(** * The engine of the Puyo game of [src/app/page.tsx]

    The React component [PuyoGame] keeps its state in [useState] cells and
    changes it from event handlers.  The development embeds the handlers as
    functions over an explicit [Session] record, the grid as the array of
    row arrays the source has, and the games' randomness as an argument.
    The older variant of the page (the second source file, whose resolver
    is [checkForMatches]) is embedded in [Module Legacy]. *)

From Stdlib Require Import QArith.
From stdpp Require Import base numbers option list.

Local Open Scope Z_scope.

(** ** Types *)

(** [type PuyoColor = 'red' | 'green' | 'blue' | 'yellow' | 'purple' | null]:
    a colour, or [None] for [null]. *)
Inductive Color := red | green | blue | yellow | purple.

Abbreviation PuyoColor := (option Color).

#[global] Instance Color_eq_dec : EqDecision Color.
Proof. solve_decision. Defined.

(** [type GameState = 'title' | 'active' | 'over' | 'pause'] *)
Inductive GameState := title | active | over | pause.

#[global] Instance GameState_eq_dec : EqDecision GameState.
Proof. solve_decision. Defined.

(** [type Grid = PuyoColor[][]]: an array of rows, row 0 on top. *)
Abbreviation Grid := (list (list PuyoColor)).

Module PuyoPair.
(** [interface PuyoPair] *)
Record t := mk {
  color1 : PuyoColor;
  color2 : PuyoColor;
  x : Z;
  y : Z;
  rotation : Z
}.
End PuyoPair.

#[global] Instance PuyoPair_eq_dec : EqDecision PuyoPair.t.
Proof. solve_decision. Defined.

(** ** Constants *)

Definition GRID_ROWS : Z := 12.
Definition GRID_COLS : Z := 6.

(** ** The grid as a matrix *)

(** [Array(GRID_ROWS).fill(null).map(() => Array(GRID_COLS).fill(null))] *)
Definition createEmptyGrid : Grid :=
  replicate (Z.to_nat GRID_ROWS) (replicate (Z.to_nat GRID_COLS) None).

(** The shape [createEmptyGrid] gives and that every in-range write keeps. *)
Definition wfGrid (grid : Grid) : Prop :=
  length grid = Z.to_nat GRID_ROWS ∧
  Forall (λ row, length row = Z.to_nat GRID_COLS) grid.

#[global] Instance wfGrid_dec grid : Decision (wfGrid grid).
Proof. unfold wfGrid. apply _. Defined.

(** The test [x >= 0 && x < GRID_COLS && y >= 0 && y < GRID_ROWS]. *)
Definition inBounds (x y : Z) : bool :=
  (0 <=? x) && (x <? GRID_COLS) && (0 <=? y) && (y <? GRID_ROWS).

(** The read [grid[y][x]].  Every read of the source is guarded, by an
    explicit bounds test or by the bounds of the loop it stands in, so on a
    well-formed grid it finds an element.  Off the matrix JavaScript answers
    [undefined] (or raises when the row is missing); the model answers
    [None] there, and no theorem below reads off a well-formed grid. *)
Definition cellAt (grid : Grid) (x y : Z) : PuyoColor :=
  if decide (0 ≤ x ∧ 0 ≤ y) then
    match grid !! Z.to_nat y with
    | Some row => default None (row !! Z.to_nat x)
    | None => None
    end
  else None.

(** The write [grid[y][x] = v] for indices the loops keep in range: the row
    object is changed in place.  Out of range the model leaves the grid as
    it is; [placePuyo], whose indices are not checked by the source, goes
    through [writeCell] below instead. *)
Definition setCell (grid : Grid) (x y : Z) (v : PuyoColor) : Grid :=
  if decide (0 ≤ x ∧ 0 ≤ y) then
    alter (λ row, <[Z.to_nat x := v]> row) (Z.to_nat y) grid
  else grid.

(** What an unchecked write [newGrid[y][x] = v] does in JavaScript. *)
Inductive WriteResult :=
| Written (grid : Grid)
    (** the element exists and is replaced *)
| TypeError
    (** [newGrid[y]] is [undefined]: "Cannot set properties of undefined" *)
| OffRow.
    (** the row exists but has no element [x]: the assignment adds a
        property to the row object, which is then no longer a row of
        [GRID_COLS] cells; the model stops there *)

Definition writeCell (grid : Grid) (x y : Z) (v : PuyoColor) : WriteResult :=
  if decide (0 ≤ y ∧ y < Z.of_nat (length grid)) then
    match grid !! Z.to_nat y with
    | Some row =>
        if decide (0 ≤ x ∧ x < Z.of_nat (length row))
        then Written (setCell grid x y v) else OffRow
    | None => TypeError
    end
  else TypeError.

(** Column [x] of the grid, read from the top row to the bottom row. *)
Definition column (grid : Grid) (x : Z) : list PuyoColor :=
  (λ y, cellAt grid x y) <$> seqZ 0 GRID_ROWS.

(** The colours of a column without its empty cells, top to bottom. *)
Definition colours (col : list PuyoColor) : list Color := omap id col.

(** Nothing empty below something coloured. *)
Definition settled (col : list PuyoColor) : Prop :=
  ∀ (i j : nat) c, (i < j)%nat → col !! i = Some (Some c) →
    (j < length col)%nat → ∃ c', col !! j = Some (Some c').

(** Every cell of the matrix once, in the order the scan of
    [checkAndUpdateChain] visits them: [y] outside, [x] inside. *)
Definition allCells : list (Z * Z) :=
  y ← seqZ 0 GRID_ROWS; x ← seqZ 0 GRID_COLS; [(x, y)].

Definition occupiedAt (grid : Grid) (p : Z * Z) : bool :=
  bool_decide (cellAt grid p.1 p.2 ≠ None).

(** The number of occupied cells. *)
Definition occupiedCount (grid : Grid) : nat :=
  length (filter (λ p, occupiedAt grid p = true) allCells).

(** ** Piece geometry and the move validator *)

Definition getSecondPuyoPosition (x y rotation : Z) : Z * Z :=
  match rotation with
  | 0 => (x, y - 1)
  | 1 => (x + 1, y)
  | 2 => (x, y + 1)
  | 3 => (x - 1, y)
  | _ => (x, y)
  end.

(** JavaScript truthiness of a cell: [null] is falsy, a colour name is a
    non-empty string. *)
Definition truthy (c : PuyoColor) : bool :=
  match c with Some _ => true | None => false end.

(** [isValidMove], with the grid of the closure as an argument. *)
Definition isValidMove (grid : Grid) (puyo : PuyoPair.t) : bool :=
  let x := PuyoPair.x puyo in
  let y := PuyoPair.y puyo in
  let '(x2, y2) := getSecondPuyoPosition x y (PuyoPair.rotation puyo) in
  (0 <=? x) && (x <? GRID_COLS) && (0 <=? y) && (y <? GRID_ROWS) &&
  (0 <=? x2) && (x2 <? GRID_COLS) && (0 <=? y2) && (y2 <? GRID_ROWS) &&
  negb (truthy (cellAt grid x y)) && negb (truthy (cellAt grid x2 y2)).

(** The cell [(x, y)] exists in the grid and holds [null]. *)
Definition holdsNull (grid : Grid) (x y : Z) : Prop :=
  0 ≤ x ∧ 0 ≤ y ∧
  ∃ row, grid !! Z.to_nat y = Some row ∧ row !! Z.to_nat x = Some None.

(** ** Gravity *)

(** The inner loop of [applyGravity] for column [x],
    [for (let y = n - 1; y >= 0; y--)], with the running [writeY]. *)
Fixpoint gravityColumn (x : Z) (n : nat) (writeY : Z) (newGrid : Grid) : Grid :=
  match n with
  | O => newGrid
  | S n' =>
      let y := Z.of_nat n' in
      match cellAt newGrid x y with
      | Some c =>
          let g1 := setCell newGrid x writeY (Some c) in
          let g2 := if decide (writeY ≠ y) then setCell g1 x y None else g1 in
          gravityColumn x n' (writeY - 1) g2
      | None => gravityColumn x n' writeY newGrid
      end
  end.

(** The outer loop, [for (let x = ...; x < GRID_COLS; x++)]: [k] columns
    are left, the next one is [x]. *)
Fixpoint gravityColumns (k : nat) (x : Z) (newGrid : Grid) : Grid :=
  match k with
  | O => newGrid
  | S k' =>
      gravityColumns k' (x + 1)
        (gravityColumn x (Z.to_nat GRID_ROWS) (GRID_ROWS - 1) newGrid)
  end.

(** [applyGravity]: [[...grid]] copies the outer array only, the loops
    then move the cells inside the row arrays. *)
Definition applyGravity (grid : Grid) : Grid :=
  gravityColumns (Z.to_nat GRID_COLS) 0 grid.

(** A column with its colours moved to the bottom, order kept. *)
Definition settle (col : list PuyoColor) : list PuyoColor :=
  replicate (length col - length (colours col)) None ++ (Some <$> colours col).

(** ** Connected regions *)

(** A [Set<string>] of keys [`${x},${y}`], kept in insertion order as the
    JavaScript set keeps it.  The key of a pair of integers determines the
    pair, so the model stores the pair itself. *)
Abbreviation KeySet := (list (Z * Z)).

(** [visited.has(key)] *)
Definition has (s : KeySet) (key : Z * Z) : bool := bool_decide (key ∈ s).

(** [visited.add(key)] *)
Definition add (s : KeySet) (key : Z * Z) : KeySet :=
  if has s key then s else s ++ [key].

(** [findConnectedPuyos].  The set [visited] is one object shared by all
    the recursive calls; the model passes it on from call to call.  [depth]
    bounds the call stack: [None] is the stack running out, which
    [findConnectedPuyos_returns] shows not to happen from [MAX_DEPTH]. *)
Fixpoint findConnectedPuyos (depth : nat) (grid : Grid) (x y : Z)
    (color : PuyoColor) (visited : KeySet) : option KeySet :=
  match depth with
  | O => None
  | S depth =>
      if (x <? 0) || (GRID_COLS <=? x) || (y <? 0) || (GRID_ROWS <=? y) ||
         bool_decide (cellAt grid x y ≠ color) || has visited (x, y)
      then Some visited
      else
        let visited := add visited (x, y) in
        visited ← findConnectedPuyos depth grid (x + 1) y color visited;
        visited ← findConnectedPuyos depth grid (x - 1) y color visited;
        visited ← findConnectedPuyos depth grid x (y + 1) color visited;
        findConnectedPuyos depth grid x (y - 1) color visited
  end.

(** One frame for every cell of the grid and one for the call that
    returns at once. *)
Definition MAX_DEPTH : nat := S (Z.to_nat (GRID_ROWS * GRID_COLS)).

(** The cells of the grid that a set has not reached. *)
Definition unvisited (visited : KeySet) : nat :=
  length (filter (λ p, p ∉ visited) allCells).

(** ** One pass of the chain resolver *)

(** A loop over a list whose body may fail. *)
Fixpoint forEachM {S A : Type} (body : S → A → option S) (s : S)
    (l : list A) : option S :=
  match l with
  | [] => Some s
  | a :: l => s' ← body s a; forEachM body s' l
  end.

(** The body of the two nested [for] loops of [checkAndUpdateChain]; the
    state is [(hasMatches, matchedPuyos)]. *)
Definition scanCell (newGrid : Grid) (st : bool * KeySet) (p : Z * Z)
    : option (bool * KeySet) :=
  let '(x, y) := p in
  if truthy (cellAt newGrid x y) then
    matches ← findConnectedPuyos MAX_DEPTH newGrid x y (cellAt newGrid x y) [];
    if decide (4 ≤ length matches)%nat
    then Some (true, foldl add st.2 matches)
    else Some st
  else Some st.

(** The match check: rows from the top, each row from the left, which is
    the order of [allCells]. *)
Definition scanMatches (newGrid : Grid) : option (bool * KeySet) :=
  forEachM (scanCell newGrid) (false, []) allCells.

(** [matchedPuyos.forEach(match => { ...; newGrid[y][x] = null })] *)
Definition clearMatched (matchedPuyos : KeySet) (newGrid : Grid) : Grid :=
  foldl (λ g key, setCell g key.1 key.2 None) newGrid matchedPuyos.

(** The score of one chain step.  [chainCount] is at least 1 where the
    source computes this, so the power is a power of an integer. *)
Definition chainPoints (puyosCleared chainCount : Z) : Z :=
  let chainMultiplier := 2 ^ (chainCount - 1) in
  let groupSizeBonus := Z.max 0 (puyosCleared - 4) * 5 in
  puyosCleared * 10 * chainMultiplier + groupSizeBonus.

(** What a resolver that runs from its first line to its last with
    nothing in between works on: its local variables [newGrid] and
    [chainCount], and the two state cells it updates as it goes.  This is
    how [checkForMatches] of the older variant always runs. *)
Record Chain := mkChain {
  newGrid : Grid;
  chainCount : Z;
  score : Z;
  chainCounter : Z
}.

(** [checkAndUpdateChain] without its two waits of 250 ms: the function
    of the older variant line by line, and the function of the page as it
    runs when nothing else happens while it sleeps.  The result carries
    [hasMatches].  The function of the page with its waits is
    [resolverPass] and [resumeResolver] below. *)
Definition checkAndUpdateChain (st : Chain) : option (bool * Chain) :=
  '(hasMatches, matchedPuyos) ← scanMatches (newGrid st);
  if hasMatches : bool then
    let chainCount := chainCount st + 1 in
    let cleared := clearMatched matchedPuyos (newGrid st) in
    let puyosCleared := Z.of_nat (length matchedPuyos) in
    let points := chainPoints puyosCleared chainCount in
    Some (true, {| newGrid := applyGravity cleared;
                   chainCount := chainCount;
                   score := score st + points;
                   chainCounter := chainCount |})
  else Some (false, st).

(** [do { await checkAndUpdateChain() } while (hasMatches)]; [fuel] bounds
    the number of passes. *)
Fixpoint chainLoop (fuel : nat) (st : Chain) : option Chain :=
  match fuel with
  | O => None
  | S fuel =>
      '(hasMatches, st') ← checkAndUpdateChain st;
      if hasMatches : bool then chainLoop fuel st' else Some st'
  end.


(** What [findConnectedPuyos grid _ _ color] keeps true of its set: no key
    twice, every key a cell of the grid that holds [color]. *)
Definition regionOf (grid : Grid) (color : PuyoColor) (s : KeySet) : Prop :=
  NoDup s ∧
  ∀ key, key ∈ s →
    inBounds key.1 key.2 = true ∧ cellAt grid key.1 key.2 = color.

(** What the scan keeps true of [(hasMatches, matchedPuyos)]. *)
Definition scanInv (grid : Grid) (st : bool * KeySet) : Prop :=
  NoDup st.2 ∧
  (∀ key, key ∈ st.2 →
     inBounds key.1 key.2 = true ∧ cellAt grid key.1 key.2 ≠ None) ∧
  (st.1 = true → (4 ≤ length st.2)%nat).

(** The cells of the matrix again, column after column. *)
Definition allCellsByColumn : list (Z * Z) :=
  x ← seqZ 0 GRID_COLS; y ← seqZ 0 GRID_ROWS; [(x, y)].

(** ** The session *)

(** The two timers of 250 ms inside [checkAndUpdateChain]. *)
Inductive Await :=
| AfterClear (puyosCleared : nat)
    (** asleep after the matched cells were emptied; [matchedPuyos.size]
        is kept for the score *)
| AfterGravity.
    (** asleep after gravity was applied again *)

(** A call of [applyGravityAndCheck] asleep on a timer: its local
    [chainCount], the place where it sleeps and the rows of its local
    [newGrid].  These are the rows of the grid state ([None]) until
    [startGame] gives the grid state rows of its own; from then on the
    resolver holds rows the grid state has left ([Some i], the matrix
    [i] of [Session.detached]), until its next [setGrid]. *)
Record Resolver := mkResolver {
  resolverChainCount : Z;
  resolverAwait : Await;
  resolverGrid : option nat
}.

(** The state cells of the component, and the part of the event loop the
    engine depends on. *)
Module Session.
Record t := mk {
  (** [useState<Grid>(createEmptyGrid())].  Every copy the source makes is
      a shallow [[...grid]]: row arrays are made by [createEmptyGrid]
      alone and written in place ever after, so this matrix is also what
      a resolver holds as [newGrid] when it was started on these rows. *)
  grid : Grid;
  (** [useState<GameState>('title')] *)
  gameState : GameState;
  (** [useState(0)] *)
  score : Z;
  (** [useState<PuyoPair | null>(null)]; [None] also stands for the
      [undefined] that [nextPuyos[0]] gives on an empty queue. *)
  currentPuyo : option PuyoPair.t;
  (** [useState<PuyoPair[]>([])] *)
  nextPuyos : list PuyoPair.t;
  (** [useState(0)] *)
  chainCounter : Z;
  (** [useState(false)] *)
  isPaused : bool;
  (** [useState(0)], then the stored value *)
  highScore : Z;
  (** [useState(1000)], milliseconds; a rational here, a double there *)
  fallSpeed : Q;
  (** [useState<PuyoPair | null>(null)] *)
  heldPuyo : option PuyoPair.t;
  (** [useState(true)] *)
  canHold : bool;
  (** [useState(false)] *)
  isAnimating : bool;
  (** The calls of [applyGravityAndCheck] asleep on a timer, the one
      whose timer fires first in front. *)
  resolvers : list Resolver;
  (** The [setTimeout(() => setChainCounter(0), 5000)] not yet fired. *)
  chainResets : nat;
  (** The matrices the grid state has left while a resolver slept on them:
      [startGame] sets the grid state to the new rows of
      [createEmptyGrid], a resolver sets it back to the rows it holds. *)
  detached : list Grid
}.

Definition setGrid (v : Grid) (s : t) : t :=
  {| grid := v;
     gameState := gameState s;
     score := score s;
     currentPuyo := currentPuyo s;
     nextPuyos := nextPuyos s;
     chainCounter := chainCounter s;
     isPaused := isPaused s;
     highScore := highScore s;
     fallSpeed := fallSpeed s;
     heldPuyo := heldPuyo s;
     canHold := canHold s;
     isAnimating := isAnimating s;
     resolvers := resolvers s;
     chainResets := chainResets s;
     detached := detached s |}.

Definition setGameState (v : GameState) (s : t) : t :=
  {| grid := grid s;
     gameState := v;
     score := score s;
     currentPuyo := currentPuyo s;
     nextPuyos := nextPuyos s;
     chainCounter := chainCounter s;
     isPaused := isPaused s;
     highScore := highScore s;
     fallSpeed := fallSpeed s;
     heldPuyo := heldPuyo s;
     canHold := canHold s;
     isAnimating := isAnimating s;
     resolvers := resolvers s;
     chainResets := chainResets s;
     detached := detached s |}.

Definition setScore (v : Z) (s : t) : t :=
  {| grid := grid s;
     gameState := gameState s;
     score := v;
     currentPuyo := currentPuyo s;
     nextPuyos := nextPuyos s;
     chainCounter := chainCounter s;
     isPaused := isPaused s;
     highScore := highScore s;
     fallSpeed := fallSpeed s;
     heldPuyo := heldPuyo s;
     canHold := canHold s;
     isAnimating := isAnimating s;
     resolvers := resolvers s;
     chainResets := chainResets s;
     detached := detached s |}.

Definition setCurrentPuyo (v : option PuyoPair.t) (s : t) : t :=
  {| grid := grid s;
     gameState := gameState s;
     score := score s;
     currentPuyo := v;
     nextPuyos := nextPuyos s;
     chainCounter := chainCounter s;
     isPaused := isPaused s;
     highScore := highScore s;
     fallSpeed := fallSpeed s;
     heldPuyo := heldPuyo s;
     canHold := canHold s;
     isAnimating := isAnimating s;
     resolvers := resolvers s;
     chainResets := chainResets s;
     detached := detached s |}.

Definition setNextPuyos (v : list PuyoPair.t) (s : t) : t :=
  {| grid := grid s;
     gameState := gameState s;
     score := score s;
     currentPuyo := currentPuyo s;
     nextPuyos := v;
     chainCounter := chainCounter s;
     isPaused := isPaused s;
     highScore := highScore s;
     fallSpeed := fallSpeed s;
     heldPuyo := heldPuyo s;
     canHold := canHold s;
     isAnimating := isAnimating s;
     resolvers := resolvers s;
     chainResets := chainResets s;
     detached := detached s |}.

Definition setChainCounter (v : Z) (s : t) : t :=
  {| grid := grid s;
     gameState := gameState s;
     score := score s;
     currentPuyo := currentPuyo s;
     nextPuyos := nextPuyos s;
     chainCounter := v;
     isPaused := isPaused s;
     highScore := highScore s;
     fallSpeed := fallSpeed s;
     heldPuyo := heldPuyo s;
     canHold := canHold s;
     isAnimating := isAnimating s;
     resolvers := resolvers s;
     chainResets := chainResets s;
     detached := detached s |}.

Definition setIsPaused (v : bool) (s : t) : t :=
  {| grid := grid s;
     gameState := gameState s;
     score := score s;
     currentPuyo := currentPuyo s;
     nextPuyos := nextPuyos s;
     chainCounter := chainCounter s;
     isPaused := v;
     highScore := highScore s;
     fallSpeed := fallSpeed s;
     heldPuyo := heldPuyo s;
     canHold := canHold s;
     isAnimating := isAnimating s;
     resolvers := resolvers s;
     chainResets := chainResets s;
     detached := detached s |}.

Definition setHighScore (v : Z) (s : t) : t :=
  {| grid := grid s;
     gameState := gameState s;
     score := score s;
     currentPuyo := currentPuyo s;
     nextPuyos := nextPuyos s;
     chainCounter := chainCounter s;
     isPaused := isPaused s;
     highScore := v;
     fallSpeed := fallSpeed s;
     heldPuyo := heldPuyo s;
     canHold := canHold s;
     isAnimating := isAnimating s;
     resolvers := resolvers s;
     chainResets := chainResets s;
     detached := detached s |}.

Definition setFallSpeed (v : Q) (s : t) : t :=
  {| grid := grid s;
     gameState := gameState s;
     score := score s;
     currentPuyo := currentPuyo s;
     nextPuyos := nextPuyos s;
     chainCounter := chainCounter s;
     isPaused := isPaused s;
     highScore := highScore s;
     fallSpeed := v;
     heldPuyo := heldPuyo s;
     canHold := canHold s;
     isAnimating := isAnimating s;
     resolvers := resolvers s;
     chainResets := chainResets s;
     detached := detached s |}.

Definition setHeldPuyo (v : option PuyoPair.t) (s : t) : t :=
  {| grid := grid s;
     gameState := gameState s;
     score := score s;
     currentPuyo := currentPuyo s;
     nextPuyos := nextPuyos s;
     chainCounter := chainCounter s;
     isPaused := isPaused s;
     highScore := highScore s;
     fallSpeed := fallSpeed s;
     heldPuyo := v;
     canHold := canHold s;
     isAnimating := isAnimating s;
     resolvers := resolvers s;
     chainResets := chainResets s;
     detached := detached s |}.

Definition setCanHold (v : bool) (s : t) : t :=
  {| grid := grid s;
     gameState := gameState s;
     score := score s;
     currentPuyo := currentPuyo s;
     nextPuyos := nextPuyos s;
     chainCounter := chainCounter s;
     isPaused := isPaused s;
     highScore := highScore s;
     fallSpeed := fallSpeed s;
     heldPuyo := heldPuyo s;
     canHold := v;
     isAnimating := isAnimating s;
     resolvers := resolvers s;
     chainResets := chainResets s;
     detached := detached s |}.

Definition setIsAnimating (v : bool) (s : t) : t :=
  {| grid := grid s;
     gameState := gameState s;
     score := score s;
     currentPuyo := currentPuyo s;
     nextPuyos := nextPuyos s;
     chainCounter := chainCounter s;
     isPaused := isPaused s;
     highScore := highScore s;
     fallSpeed := fallSpeed s;
     heldPuyo := heldPuyo s;
     canHold := canHold s;
     isAnimating := v;
     resolvers := resolvers s;
     chainResets := chainResets s;
     detached := detached s |}.

Definition setResolvers (v : list Resolver) (s : t) : t :=
  {| grid := grid s;
     gameState := gameState s;
     score := score s;
     currentPuyo := currentPuyo s;
     nextPuyos := nextPuyos s;
     chainCounter := chainCounter s;
     isPaused := isPaused s;
     highScore := highScore s;
     fallSpeed := fallSpeed s;
     heldPuyo := heldPuyo s;
     canHold := canHold s;
     isAnimating := isAnimating s;
     resolvers := v;
     chainResets := chainResets s;
     detached := detached s |}.

Definition setChainResets (v : nat) (s : t) : t :=
  {| grid := grid s;
     gameState := gameState s;
     score := score s;
     currentPuyo := currentPuyo s;
     nextPuyos := nextPuyos s;
     chainCounter := chainCounter s;
     isPaused := isPaused s;
     highScore := highScore s;
     fallSpeed := fallSpeed s;
     heldPuyo := heldPuyo s;
     canHold := canHold s;
     isAnimating := isAnimating s;
     resolvers := resolvers s;
     chainResets := v;
     detached := detached s |}.

Definition setDetached (v : list Grid) (s : t) : t :=
  {| grid := grid s;
     gameState := gameState s;
     score := score s;
     currentPuyo := currentPuyo s;
     nextPuyos := nextPuyos s;
     chainCounter := chainCounter s;
     isPaused := isPaused s;
     highScore := highScore s;
     fallSpeed := fallSpeed s;
     heldPuyo := heldPuyo s;
     canHold := canHold s;
     isAnimating := isAnimating s;
     resolvers := resolvers s;
     chainResets := chainResets s;
     detached := v |}.

End Session.
Module Direction.
(** The argument of [movePuyo]: ['left' | 'right' | 'down']. *)
Inductive t := left | right | down.
End Direction.

Module Turn.
(** The argument of [rotatePuyo]: ['left' | 'right']. *)
Inductive t := left | right.
End Turn.

Module ControlAction.
(** [type ControlAction] *)
Inductive t := left | right | down | rotateLeft | rotateRight | hold.
End ControlAction.

(** [generatePuyoPair]; the argument is what the two calls of
    [randomPuyoColor] return. *)
Definition generatePuyoPair (random : Color * Color) : PuyoPair.t :=
  {| PuyoPair.color1 := Some random.1;
     PuyoPair.color2 := Some random.2;
     PuyoPair.x := 2;
     PuyoPair.y := 0;
     PuyoPair.rotation := 0 |}.

(** The component after its first render and the effect that reads the
    stored high score. *)
Definition initialSession (storedHighScore : Z) : Session.t :=
  {| Session.grid := createEmptyGrid;
     Session.gameState := title;
     Session.score := 0;
     Session.currentPuyo := None;
     Session.nextPuyos := [];
     Session.chainCounter := 0;
     Session.isPaused := false;
     Session.highScore := storedHighScore;
     Session.fallSpeed := 1000%Q;
     Session.heldPuyo := None;
     Session.canHold := true;
     Session.isAnimating := false;
     Session.resolvers := [];
     Session.chainResets := 0%nat;
     Session.detached := [] |}.

(** The rows a resolver holds, after the grid state and the matrix [i]
    of [Session.detached] have changed places. *)
Definition swapRows (i : nat) (r : Resolver) : Resolver :=
  {| resolverChainCount := resolverChainCount r;
     resolverAwait := resolverAwait r;
     resolverGrid :=
       match resolverGrid r with
       | None => Some i
       | Some j => if decide (j = i) then None else Some j
       end |}.

(** The rows a resolver holds, after the grid state has left its rows as
    the matrix [i] of [Session.detached]. *)
Definition keepRows (i : nat) (r : Resolver) : Resolver :=
  {| resolverChainCount := resolverChainCount r;
     resolverAwait := resolverAwait r;
     resolverGrid :=
       match resolverGrid r with
       | None => Some i
       | Some j => Some j
       end |}.

(** [setGrid(createEmptyGrid())]: the grid state gets new rows.  The rows
    it had stay with the resolvers that sleep on them; when none sleeps
    nothing holds them any more. *)
Definition setFreshGrid (s : Session.t) : Session.t :=
  match Session.resolvers s with
  | [] => Session.setGrid createEmptyGrid s
  | _ :: _ =>
      let i := length (Session.detached s) in
      let s := Session.setResolvers (keepRows i <$> Session.resolvers s) s in
      let s := Session.setDetached
                 (Session.detached s ++ [Session.grid s]) s in
      Session.setGrid createEmptyGrid s
  end.

(** [setGrid([...newGrid])] and [setGrid(newGrid)] of a resolver that
    holds the rows [rows]: the grid state gets these rows.  Every stretch
    of [applyGravityAndCheck] between two timers reads and writes
    [newGrid] alone and passes it to [setGrid] before it sleeps or
    returns, so the model lets the rows change places first and the
    stretch work on the grid state. *)
Definition attachGrid (rows : option nat) (s : Session.t) : Session.t :=
  match rows with
  | None => s
  | Some i =>
      match Session.detached s !! i with
      | None => s (* no resolver holds rows that were never left *)
      | Some newGrid =>
          let s := Session.setResolvers
                     (swapRows i <$> Session.resolvers s) s in
          let s := Session.setDetached
                     (<[i := Session.grid s]> (Session.detached s)) s in
          Session.setGrid newGrid s
      end
  end.

(** The effect on [[score, highScore]]. *)
Definition syncHighScore (s : Session.t) : Session.t :=
  if decide (Session.highScore s < Session.score s)
  then Session.setHighScore (Session.score s) s else s.

(** [startGame]; the arguments are the colours of the four pieces of
    [generateNextPuyos]. *)
Definition startGame (r0 r1 r2 r3 : Color * Color) (s : Session.t)
    : Session.t :=
  let s := setFreshGrid s in
  let s := Session.setScore 0 s in
  let s := Session.setChainCounter 0 s in
  let initialNextPuyos := generatePuyoPair <$> [r0; r1; r2; r3] in
  let s := Session.setCurrentPuyo (head initialNextPuyos) s in
  let s := Session.setNextPuyos (tail initialNextPuyos) s in
  let s := Session.setGameState active s in
  let s := Session.setIsPaused false s in
  let s := Session.setFallSpeed 1000%Q s in
  let s := Session.setHeldPuyo None s in
  let s := Session.setCanHold true s in
  syncHighScore s.

(** [togglePause] *)
Definition togglePause (s : Session.t) : Session.t :=
  Session.setIsPaused (negb (Session.isPaused s)) s.

(** What a handler leaves behind. *)
Inductive Outcome :=
| Ok (s : Session.t)
    (** it returned *)
| Throws (s : Session.t)
    (** it raised the [TypeError] of a write into a missing row; [s] is
        the session it leaves: what was written into the rows before stays
        written, no state setter was reached *)
| Overflow
    (** the call stack of [findConnectedPuyos] ran out *)
| Malformed.
    (** it wrote beside a row, see [OffRow] *)

(** [newGrid[y].some(cell => cell !== null)] *)
Definition rowHasPuyo (grid : Grid) (y : nat) : bool :=
  existsb (λ cell : PuyoColor, bool_decide (cell ≠ None))
    (default [] (grid !! y)).

(** The end of [applyGravityAndCheck], after the loop: the reset of the
    chain counter is scheduled, the game-over row is checked, the
    animation flag is cleared. *)
Definition finishResolver (s : Session.t) : Session.t :=
  let s := Session.setChainResets (S (Session.chainResets s)) s in
  let s := if rowHasPuyo (Session.grid s) 1
           then Session.setGameState over s else s in
  Session.setIsAnimating false s.

(** [checkAndUpdateChain] from its first line to its first timer, or, when
    the scan finds nothing, to the end of [applyGravityAndCheck], for a
    resolver whose [newGrid] has the rows of the grid state. *)
Definition resolverPass (chainCount : Z) (s : Session.t) : option Session.t :=
  '(hasMatches, matchedPuyos) ← scanMatches (Session.grid s);
  if hasMatches : bool then
    let chainCount := chainCount + 1 in
    let s := Session.setGrid (clearMatched matchedPuyos (Session.grid s)) s in
    Some (Session.setResolvers
            (Session.resolvers s ++
             [{| resolverChainCount := chainCount;
                 resolverAwait := AfterClear (length matchedPuyos);
                 resolverGrid := None |}]) s)
  else Some (finishResolver s).

(** [applyGravityAndCheck] up to its first timer.  Its argument is the
    grid [placePuyo] has just written, whose rows are those of the
    session. *)
Definition applyGravityAndCheck (s : Session.t) : option Session.t :=
  let s := Session.setIsAnimating true s in
  let s := Session.setGrid (applyGravity (Session.grid s)) s in
  resolverPass 0 s.

(** The timer of the resolver in front fires: the call goes on to its next
    timer or to its end.  It works on the rows of its own [newGrid], which
    its [setGrid] makes the rows of the grid state: see [attachGrid]. *)
Definition resumeResolver (s : Session.t) : option Session.t :=
  match Session.resolvers s with
  | [] => Some s
  | r :: rest =>
      let s := Session.setResolvers rest s in
      let s := attachGrid (resolverGrid r) s in
      match resolverAwait r with
      | AfterClear puyosCleared =>
          let points :=
            chainPoints (Z.of_nat puyosCleared) (resolverChainCount r) in
          let s := Session.setScore (Session.score s + points) s in
          let s := syncHighScore s in
          let s := Session.setChainCounter (resolverChainCount r) s in
          let s := Session.setGrid (applyGravity (Session.grid s)) s in
          Some (Session.setResolvers
                  (Session.resolvers s ++
                   [{| resolverChainCount := resolverChainCount r;
                       resolverAwait := AfterGravity;
                       resolverGrid := None |}]) s)
      | AfterGravity => resolverPass (resolverChainCount r) s
      end
  end.

(** Timers firing one after the other with nothing in between, until no
    resolver sleeps. *)
Fixpoint runTimers (fuel : nat) (s : Session.t) : option Session.t :=
  match Session.resolvers s with
  | [] => Some s
  | _ :: _ =>
      match fuel with
      | O => None
      | S fuel => s' ← resumeResolver s; runTimers fuel s'
      end
  end.

(** [placePuyo]; [fresh] is the piece [generatePuyoPair] makes for the end
    of the queue. *)
Definition placePuyo (fresh : Color * Color) (s : Session.t) : Outcome :=
  match Session.currentPuyo s with
  | None => Ok s
  | Some currentPuyo =>
      let x := PuyoPair.x currentPuyo in
      let y := PuyoPair.y currentPuyo in
      let '(x2, y2) :=
        getSecondPuyoPosition x y (PuyoPair.rotation currentPuyo) in
      match writeCell (Session.grid s) x y (PuyoPair.color1 currentPuyo) with
      | Written g1 =>
          match writeCell g1 x2 y2 (PuyoPair.color2 currentPuyo) with
          | Written g2 =>
              let s := Session.setGrid g2 s in
              let nextPuyos := Session.nextPuyos s in
              let s := Session.setCurrentPuyo (head nextPuyos) s in
              let s := Session.setNextPuyos
                         (tail nextPuyos ++ [generatePuyoPair fresh]) s in
              let s := Session.setCanHold true s in
              match applyGravityAndCheck s with
              | Some s => Ok s
              | None => Overflow
              end
          | TypeError => Throws (Session.setGrid g1 s)
          | OffRow => Malformed
          end
      | TypeError => Throws s
      | OffRow => Malformed
      end
  end.

(** [{ ...currentPuyo }] with [x] and [y] changed. *)
Definition movedBy (dx dy : Z) (puyo : PuyoPair.t) : PuyoPair.t :=
  {| PuyoPair.color1 := PuyoPair.color1 puyo;
     PuyoPair.color2 := PuyoPair.color2 puyo;
     PuyoPair.x := PuyoPair.x puyo + dx;
     PuyoPair.y := PuyoPair.y puyo + dy;
     PuyoPair.rotation := PuyoPair.rotation puyo |}.

(** [movePuyo] *)
Definition movePuyo (direction : Direction.t) (fresh : Color * Color)
    (s : Session.t) : Outcome :=
  match Session.currentPuyo s with
  | None => Ok s
  | Some currentPuyo =>
      if bool_decide (Session.gameState s ≠ active) || Session.isPaused s
      then Ok s
      else
        let newPuyo :=
          match direction with
          | Direction.left => movedBy (-1) 0 currentPuyo
          | Direction.right => movedBy 1 0 currentPuyo
          | Direction.down => movedBy 0 1 currentPuyo
          end in
        if isValidMove (Session.grid s) newPuyo
        then Ok (Session.setCurrentPuyo (Some newPuyo) s)
        else
          match direction with
          | Direction.down => placePuyo fresh s
          | _ => Ok s
          end
  end.

(** [{ ...currentPuyo }] with [rotation] changed; [%] is the remainder
    that takes the sign of the dividend. *)
Definition rotatedBy (turn : Turn.t) (puyo : PuyoPair.t) : PuyoPair.t :=
  {| PuyoPair.color1 := PuyoPair.color1 puyo;
     PuyoPair.color2 := PuyoPair.color2 puyo;
     PuyoPair.x := PuyoPair.x puyo;
     PuyoPair.y := PuyoPair.y puyo;
     PuyoPair.rotation :=
       Z.rem (PuyoPair.rotation puyo +
              (match turn with Turn.left => -1 | Turn.right => 1 end) + 4) 4 |}.

(** [rotatePuyo] *)
Definition rotatePuyo (direction : Turn.t) (s : Session.t) : Session.t :=
  match Session.currentPuyo s with
  | None => s
  | Some currentPuyo =>
      if bool_decide (Session.gameState s ≠ active) || Session.isPaused s
      then s
      else
        let newPuyo := rotatedBy direction currentPuyo in
        if isValidMove (Session.grid s) newPuyo
        then Session.setCurrentPuyo (Some newPuyo) s
        else s
  end.

(** [{ ...heldPuyo, x: 2, y: 0, rotation: 0 }] *)
Definition atSpawn (puyo : PuyoPair.t) : PuyoPair.t :=
  {| PuyoPair.color1 := PuyoPair.color1 puyo;
     PuyoPair.color2 := PuyoPair.color2 puyo;
     PuyoPair.x := 2;
     PuyoPair.y := 0;
     PuyoPair.rotation := 0 |}.

(** [holdPuyo] *)
Definition holdPuyo (fresh : Color * Color) (s : Session.t) : Session.t :=
  match Session.currentPuyo s with
  | None => s
  | Some currentPuyo =>
      if negb (Session.canHold s) ||
         bool_decide (Session.gameState s ≠ active) || Session.isPaused s
      then s
      else
        let s' :=
          match Session.heldPuyo s with
          | Some heldPuyo =>
              let s := Session.setCurrentPuyo (Some (atSpawn heldPuyo)) s in
              Session.setHeldPuyo (Some currentPuyo) s
          | None =>
              let nextPuyos := Session.nextPuyos s in
              let s := Session.setHeldPuyo (Some currentPuyo) s in
              let s := Session.setCurrentPuyo (head nextPuyos) s in
              Session.setNextPuyos
                (tail nextPuyos ++ [generatePuyoPair fresh]) s
          end in
        Session.setCanHold false s'
  end.

(** A state update queued by a handler, applied to what the handler leaves
    whether it returned or threw. *)
Definition queued (update : Session.t → Session.t) (o : Outcome) : Outcome :=
  match o with
  | Ok s => Ok (update s)
  | Throws s => Throws (update s)
  | Overflow => Overflow
  | Malformed => Malformed
  end.

(** [handleKeyPress].  [escape] says whether the key is Escape, [action]
    is the action the key is bound to in [controls], if any.  The handlers
    read the state of the render they were made in, so the action runs on
    [s], in which [isPaused] is not yet flipped; the flip queued by
    [togglePause] is applied with the state updates of the action. *)
Definition handleKeyPress (escape : bool) (action : option ControlAction.t)
    (fresh : Color * Color) (s : Session.t) : Outcome :=
  let pauseToggle := if escape then togglePause else id in
  if Session.isPaused s then Ok (pauseToggle s)
  else
    match action with
    | None => Ok (pauseToggle s)
    | Some action =>
        queued pauseToggle
          match action with
          | ControlAction.left => movePuyo Direction.left fresh s
          | ControlAction.right => movePuyo Direction.right fresh s
          | ControlAction.down => movePuyo Direction.down fresh s
          | ControlAction.rotateLeft => Ok (rotatePuyo Turn.left s)
          | ControlAction.rotateRight => Ok (rotatePuyo Turn.right s)
          | ControlAction.hold => Ok (holdPuyo fresh s)
          end
    end.

(** What can happen to the component. *)
Inductive Event :=
| EvStart (r0 r1 r2 r3 : Color * Color)
    (** a click on the start button, shown on the title and the game-over
        screen *)
| EvKey (escape : bool) (action : option ControlAction.t)
    (fresh : Color * Color)
    (** a key press *)
| EvPauseButton
    (** a click on the pause button of the playing screen or on the resume
        button of the pause overlay *)
| EvFall (fresh : Color * Color)
    (** the interval of the game loop *)
| EvSpeed
    (** the interval of the speed increase *)
| EvTimer
    (** the 250 ms timer of the resolver in front *)
| EvChainReset.
    (** a timeout that resets the chain counter *)

Definition ofOption (o : option Session.t) : Outcome :=
  match o with Some s => Ok s | None => Overflow end.

(** The handler an event runs; [None] when the event cannot occur in [s]:
    its button is not on the screen, its timer is not set.  The start
    button is on the title screen and on the game-over screen, whether a
    resolver still sleeps or not. *)
Definition dispatch (e : Event) (s : Session.t) : option Outcome :=
  match e with
  | EvStart r0 r1 r2 r3 =>
      if bool_decide (Session.gameState s = title) ||
         bool_decide (Session.gameState s = over)
      then Some (Ok (startGame r0 r1 r2 r3 s)) else None
  | EvKey escape action fresh => Some (handleKeyPress escape action fresh s)
  | EvPauseButton =>
      if bool_decide (Session.gameState s = active) || Session.isPaused s
      then Some (Ok (togglePause s)) else None
  | EvFall fresh =>
      if bool_decide (Session.gameState s = active) &&
         negb (Session.isPaused s) && negb (Session.isAnimating s)
      then Some (movePuyo Direction.down fresh s) else None
  | EvSpeed =>
      if bool_decide (Session.gameState s = active) &&
         negb (Session.isPaused s)
      then Some (Ok (Session.setFallSpeed (Session.fallSpeed s / 1.1)%Q s))
      else None
  | EvTimer =>
      match Session.resolvers s with
      | [] => None
      | _ :: _ => Some (ofOption (resumeResolver s))
      end
  | EvChainReset =>
      match Session.chainResets s with
      | O => None
      | S n =>
          Some (Ok (Session.setChainCounter 0 (Session.setChainResets n s)))
      end
  end.

(** The session an outcome leaves, if the model follows it. *)
Definition after (o : Outcome) : option Session.t :=
  match o with
  | Ok s | Throws s => Some s
  | Overflow | Malformed => None
  end.

(** The gate the fall timer has and the key handler lacks: no move,
    rotation or hold while a resolution is animated. *)
Definition gateOpen (e : Event) (s : Session.t) : bool :=
  match e with
  | EvKey _ (Some _) _ => negb (Session.isAnimating s)
  | _ => true
  end.

(** The sessions a run of events reaches from the first render.  With
    [gated] set, only the runs in which every bound key arrives while no
    resolution is animated. *)
Inductive reachable (gated : bool) (storedHighScore : Z)
    : Session.t → Prop :=
| reachable_init :
    reachable gated storedHighScore (initialSession storedHighScore)
| reachable_step s e o s' :
    reachable gated storedHighScore s →
    (gated = true → gateOpen e s = true) →
    dispatch e s = Some o → after o = Some s' →
    reachable gated storedHighScore s'.

(** A run of events, to try the model on. *)
Fixpoint runEvents (events : list Event) (s : Session.t) : option Outcome :=
  match events with
  | [] => Some (Ok s)
  | e :: events =>
      match dispatch e s with
      | Some (Ok s') => runEvents events s'
      | o => match events with [] => o | _ :: _ => None end
      end
  end.

(** [applyGravityAndCheck] run from its first line to its last with nothing
    in between, as a function of the grid it is given. *)
Definition resolveLock (fuel : nat) (grid : Grid) (score0 chainCounter0 : Z)
    : option Chain :=
  chainLoop fuel {| newGrid := applyGravity grid; chainCount := 0;
                    score := score0; chainCounter := chainCounter0 |}.

(** ** The older variant of the page *)

Module Legacy.
(** [checkForMatches] of the older variant.  Its [checkAndUpdateChain],
    [findConnectedPuyos] and [applyGravity] are those of the page line by
    line (it has no waits and one colour less); the loop starts from
    [[...grid]], the grid as [placePuyo] wrote it. *)
Definition checkForMatches (fuel : nat) (grid : Grid)
    (score0 chainCounter0 : Z) : option Chain :=
  chainLoop fuel {| newGrid := grid; chainCount := 0;
                    score := score0; chainCounter := chainCounter0 |}.

End Legacy.

(** ** What the specification says of the active piece *)

(** Both cells of the piece are cells of the grid and hold [null]. *)
Definition pieceInGrid (grid : Grid) (puyo : PuyoPair.t) : Prop :=
  let x := PuyoPair.x puyo in
  let y := PuyoPair.y puyo in
  let p2 := getSecondPuyoPosition x y (PuyoPair.rotation puyo) in
  (inBounds x y = true ∧ inBounds p2.1 p2.2 = true) ∧
  (holdsNull grid x y ∧ holdsNull grid p2.1 p2.2).

(** The piece stands where [generatePuyoPair] and the hold swap put it:
    the anchor in the spawn cell, which is empty, the second cell one row
    above the grid. *)
Definition pieceAtSpawn (grid : Grid) (puyo : PuyoPair.t) : Prop :=
  let x := PuyoPair.x puyo in
  let y := PuyoPair.y puyo in
  (x = 2 ∧ y = 0 ∧ PuyoPair.rotation puyo = 0) ∧
  (inBounds x y = true ∧ holdsNull grid x y) ∧
  getSecondPuyoPosition x y (PuyoPair.rotation puyo) = (2, -1).

(** ** Runs of the game to try the model on *)

(** A press of the key bound to [down]. *)
Definition pressDown (fresh : Color * Color) : Event :=
  EvKey false (Some ControlAction.down) fresh.

(** A session just started. *)
Definition startedSession : Session.t :=
  startGame (red, green) (blue, blue) (red, red) (green, yellow)
    (initialSession 0).

(** Six pieces dropped straight down the spawn column.  The first five
    fill rows 11 to 2 without a group of four; the sixth puts red on row 1
    above three reds, and green on row 0.  The four reds are cleared and
    the resolver goes to sleep for 250 ms with the green cell still on
    row 0. *)
Definition stackToTheTop : list Event :=
  [EvStart (blue, green) (blue, green) (blue, green) (blue, red)] ++
  replicate 12 (pressDown (red, red)) ++
  replicate 10 (pressDown (red, green)) ++
  replicate 8 (pressDown (yellow, yellow)) ++
  replicate 6 (pressDown (yellow, yellow)) ++
  replicate 4 (pressDown (yellow, yellow)) ++
  replicate 2 (pressDown (yellow, yellow)).

(** ** What the runs with the gate keep true *)

(** The piece is where [generatePuyoPair] and the hold swap put it. *)
Definition spawnPlaced (puyo : PuyoPair.t) : Prop :=
  PuyoPair.x puyo = 2 ∧ PuyoPair.y puyo = 0 ∧ PuyoPair.rotation puyo = 0.

(** The two top rows are empty. *)
Definition topClear (grid : Grid) : Prop :=
  ∀ x, 0 ≤ x < GRID_COLS → cellAt grid x 0 = None ∧ cellAt grid x 1 = None.

(** Every column is settled. *)
Definition allSettled (grid : Grid) : Prop :=
  ∀ x, 0 ≤ x < GRID_COLS → settled (column grid x).

(** The active piece, if any, is on a validated position or still on the
    spawn position. *)
Definition pieceOK (grid : Grid) (current : option PuyoPair.t) : Prop :=
  ∀ puyo, current = Some puyo →
    isValidMove grid puyo = true ∨ spawnPlaced puyo.

(** No resolver sleeps. *)
Definition quiet (s : Session.t) : Prop :=
  Session.resolvers s = [] ∧ Session.isAnimating s = false ∧
  (Session.gameState s = active →
     topClear (Session.grid s) ∧
     pieceOK (Session.grid s) (Session.currentPuyo s)).

(** One resolver sleeps, on the rows of the grid state; the piece that
    waits has not been moved. *)
Definition resolving (s : Session.t) : Prop :=
  ∃ r, Session.resolvers s = [r] ∧ Session.isAnimating s = true ∧
       Session.gameState s = active ∧
       (∀ puyo, Session.currentPuyo s = Some puyo → spawnPlaced puyo) ∧
       (resolverAwait r = AfterGravity → allSettled (Session.grid s)) ∧
       resolverGrid r = None.

Definition sessionInv (s : Session.t) : Prop :=
  wfGrid (Session.grid s) ∧ Forall spawnPlaced (Session.nextPuyos s) ∧
  (quiet s ∨ resolving s).

(** ** Grids to try the functions on *)

(** Column 0, from the bottom: green, four reds, three greens.  The reds
    go in the first pass, the greens fall onto the green below and go in
    the second. *)
Definition twoChainGrid : Grid :=
  replicate 4 (replicate 6 None) ++
  [ [Some green; None; None; None; None; None];
    [Some green; None; None; None; None; None];
    [Some green; None; None; None; None; None];
    [Some red; None; None; None; None; None];
    [Some red; None; None; None; None; None];
    [Some red; None; None; None; None; None];
    [Some red; None; None; None; None; None];
    [Some green; None; None; None; None; None] ].

(** A grid with cells in the air: blue hangs in column 1 and column 4. *)
Definition hangingGrid : Grid :=
  replicate 9 (replicate 6 None) ++
  [ [None; Some blue; None; None; Some blue; None];
    [None; None; None; None; Some yellow; None];
    [Some red; None; Some green; None; None; None] ].

(** The grid of the older variant after a lock of a yellow and red piece
    lying on top of column 2, anchor at (2, 5), orientation 1: the red half
    at (3, 5) has nothing under it.  Settled, it would touch the three reds
    at the bottom right. *)
Definition overhangLock : Grid :=
  replicate 5 (replicate 6 None) ++
  [ [None; None; Some yellow; Some red; None; None];
    [None; None; Some blue; None; None; None];
    [None; None; Some green; None; None; None];
    [None; None; Some blue; None; None; None];
    [None; None; Some green; None; Some green; None];
    [None; None; Some blue; None; Some red; None];
    [None; None; Some green; None; Some red; Some red] ].

(** A piece of the started session brought down to the floor. *)
Definition landedSession : Session.t :=
  Session.setCurrentPuyo
    (Some (movedBy 0 11 (generatePuyoPair (red, green)))) startedSession.

(** ** Groups of connected cells *)

(** The four neighbours [findConnectedPuyos] goes on to; no diagonal. *)
Definition adjacent (p q : Z * Z) : Prop :=
  q = (p.1 + 1, p.2) ∨ q = (p.1 - 1, p.2) ∨
  q = (p.1, p.2 + 1) ∨ q = (p.1, p.2 - 1).

(** A cell of the grid that holds [color]. *)
Definition holdsColor (grid : Grid) (color : PuyoColor) (p : Z * Z) : Prop :=
  inBounds p.1 p.2 = true ∧ cellAt grid p.1 p.2 = color.

(** [q] is reached from [start] by steps between neighbours, over cells
    that hold [color] all the way. *)
Inductive connected (grid : Grid) (color : PuyoColor) (start : Z * Z)
    : Z * Z → Prop :=
| connected_start :
    holdsColor grid color start → connected grid color start start
| connected_step p q :
    connected grid color start p → adjacent p q → holdsColor grid color q →
    connected grid color start q.

(** The cell holds a puyo that belongs to a group of at least four
    connected puyos of its colour. *)
Definition inGroupOfFour (grid : Grid) (p : Z * Z) : Prop :=
  inBounds p.1 p.2 = true ∧ cellAt grid p.1 p.2 ≠ None ∧
  ∃ members : list (Z * Z),
    NoDup members ∧ (4 ≤ length members)%nat ∧
    ∀ q, q ∈ members → connected grid (cellAt grid p.1 p.2) p q.

(** Every neighbour of the same colour of a member is a member, except
    for the members whose neighbours are still being visited. *)
Definition closedExcept (grid : Grid) (color : PuyoColor) (s : KeySet)
    (pending : Z * Z → Prop) : Prop :=
  ∀ p q, p ∈ s → ¬ pending p → adjacent p q → holdsColor grid color q →
         q ∈ s.

(** ** What every run keeps true, gated or not *)

(** The queue and the active piece once a game has been started. *)
Definition queueFilled (s : Session.t) : Prop :=
  length (Session.nextPuyos s) = 3%nat ∧ is_Some (Session.currentPuyo s).

(** The rows a resolver holds are those of the grid state or of a matrix
    the grid state has left. *)
Definition holdsRows (detached : list Grid) (r : Resolver) : Prop :=
  ∀ i, resolverGrid r = Some i → (i < length detached)%nat.

(** The matrices the grid state has left have the shape of the grid, and
    every resolver holds rows that exist. *)
Definition rowsInv (s : Session.t) : Prop :=
  Forall wfGrid (Session.detached s) ∧
  Forall (holdsRows (Session.detached s)) (Session.resolvers s).

Definition runInv (stored : Z) (s : Session.t) : Prop :=
  wfGrid (Session.grid s) ∧
  Forall spawnPlaced (Session.nextPuyos s) ∧
  ((Session.gameState s = title ∧ Session.resolvers s = []) ∨
   (Session.gameState s ≠ title ∧ queueFilled s)) ∧
  0 ≤ Session.score s ∧
  Forall (λ r, 1 ≤ resolverChainCount r) (Session.resolvers s) ∧
  (0 ≤ stored →
   Session.score s ≤ Session.highScore s ∧ stored ≤ Session.highScore s) ∧
  rowsInv s.

(** The active piece, if any, is where it was spawned or on a position
    the validator has accepted: both its cells are cells of the matrix. *)
Definition pieceOnBoard (s : Session.t) : Prop :=
  ∀ puyo, Session.currentPuyo s = Some puyo →
    spawnPlaced puyo ∨
    (inBounds (PuyoPair.x puyo) (PuyoPair.y puyo) = true ∧
     let p2 := getSecondPuyoPosition (PuyoPair.x puyo) (PuyoPair.y puyo)
                 (PuyoPair.rotation puyo) in
     inBounds p2.1 p2.2 = true).

(** The handler returned, or it raised the [TypeError] of [placePuyo] on a
    piece that was still where it was spawned. *)
Definition returnsOrThrows (s : Session.t) (o : Outcome) : Prop :=
  (∃ s', o = Ok s' ∧ pieceOnBoard s') ∨
  (∃ s' puyo, o = Throws s' ∧ pieceOnBoard s' ∧
     Session.currentPuyo s = Some puyo ∧ spawnPlaced puyo).

(** ** The second cell in the specification *)

(** [secondCellOffset(orientation)] of the specification, a lookup of
    (col, row) deltas: 0 up, 1 right, 2 down, 3 left. *)
Definition secondCellOffset (orientation : Z) : option (Z * Z) :=
  match orientation with
  | 0 => Some (0, -1)
  | 1 => Some (1, 0)
  | 2 => Some (0, 1)
  | 3 => Some (-1, 0)
  | _ => None
  end.

(** ** A bound on the timers *)

(** The timers a sleeping resolver has before it at least: two after a
    clear, one after gravity. *)
Definition awaitWeight (r : Resolver) : nat :=
  match resolverAwait r with
  | AfterClear _ => 2
  | AfterGravity => 1
  end.

(** A bound on the timers that fire when nothing else happens: every
    occupied cell of the grid state and of the matrices it has left, and
    the timers the sleeping resolvers have before them. *)
Definition timerBudget (s : Session.t) : nat :=
  (occupiedCount (Session.grid s) +
   sum_list_with occupiedCount (Session.detached s) +
   sum_list_with awaitWeight (Session.resolvers s))%nat.

(** ** Runs to try the theorems on *)

(** A press of the key bound to [right]. *)
Definition pressRight (fresh : Color * Color) : Event :=
  EvKey false (Some ControlAction.right) fresh.

(** Every bound key of the run arrives while no resolution is animated. *)
Fixpoint gatedRun (events : list Event) (s : Session.t) : bool :=
  match events with
  | [] => true
  | e :: events =>
      gateOpen e s &&
      match dispatch e s with
      | Some (Ok s') => gatedRun events s'
      | _ => true
      end
  end.

(** The session a run of events from the first render, with nothing
    stored, ends in. *)
Definition sessionAfter (events : list Event) : Session.t :=
  match runEvents events (initialSession 0) with
  | Some (Ok s) => s
  | _ => initialSession 0
  end.

(** A game is started and the first piece, red on red, is dropped to the
    floor of the spawn column and locked. *)
Definition firstLock : list Event :=
  [EvStart (red, red) (red, red) (blue, green) (green, blue)] ++
  replicate 12 (pressDown (yellow, yellow)).

(** The second piece, red on red again, is brought down onto the first. *)
Definition secondPieceDown : list Event :=
  firstLock ++ replicate 9 (pressDown (yellow, yellow)).

(** The second piece is locked: four reds stand in the spawn column, the
    resolver empties them and sleeps on its first timer. *)
Definition clearAsleep : list Event :=
  secondPieceDown ++ [pressDown (yellow, yellow)].

(** Its first timer has fired: the score is 40, gravity is applied. *)
Definition clearScored : list Event := clearAsleep ++ [EvTimer].

(** Five pieces fill the spawn column from the floor to row 2, three
    yellows at the bottom; two pieces, slid to column 3, put three reds
    there and a yellow on top of the reds; the eighth piece, slid to
    column 4, puts the fourth red beside them, a green on top of it.  Its
    resolver A empties the four reds and sleeps. *)
Definition redsCleared : list Event :=
  [EvStart (yellow, yellow) (yellow, green) (blue, green) (blue, green)] ++
  replicate 12 (pressDown (blue, green)) ++
  replicate 10 (pressDown (red, red)) ++
  replicate 8 (pressDown (red, yellow)) ++
  replicate 6 (pressDown (red, green)) ++
  replicate 4 (pressDown (red, red)) ++
  [pressDown (purple, purple); pressRight (purple, purple)] ++
  replicate 11 (pressDown (purple, purple)) ++
  [pressDown (purple, purple); pressRight (purple, purple)] ++
  replicate 9 (pressDown (purple, purple)) ++
  [pressDown (purple, purple); pressRight (purple, purple);
   pressRight (purple, purple)] ++
  replicate 11 (pressDown (purple, purple)).

(** The first timer of A fires: the yellow of column 3 falls beside the
    three yellows of the spawn column.  Two presses of [down] during the
    second wait of A lock the next piece on rows 1 and 0 of the full spawn
    column; its resolver B empties the four yellows and sleeps, nine cells
    of the spawn column in the air.  Then the second timer of A fires. *)
Definition lockDuringWait : list Event :=
  redsCleared ++
  [EvTimer; pressDown (purple, purple); pressDown (purple, purple); EvTimer].

(** The two timers of B fire. *)
Definition interleavedLocks : list Event :=
  lockDuringWait ++ [EvTimer; EvTimer].

(** A click on Play Again instead, while B still sleeps. *)
Definition restartWhileAsleep : list Event :=
  lockDuringWait ++ [EvStart (red, red) (red, red) (red, red) (red, red)].

(** Five pieces, red under green, fill the spawn column from the floor to
    row 2; the sixth is moved one row down, to rows 1 and 0. *)
Definition columnFull : list Event :=
  [EvStart (red, green) (red, green) (red, green) (red, green)] ++
  replicate 12 (pressDown (red, green)) ++
  replicate 10 (pressDown (red, green)) ++
  replicate 8 (pressDown (red, green)) ++
  replicate 6 (pressDown (red, green)) ++
  replicate 4 (pressDown (red, green)) ++
  [pressDown (red, green)].

(** The sixth piece is locked there: nothing to clear, a puyo on row 1. *)
Definition toppedOut : list Event := columnFull ++ [pressDown (red, green)].

(** * Theorems *)

Lemma inBounds_spec x y :
  inBounds x y = true ↔ 0 ≤ x < GRID_COLS ∧ 0 ≤ y < GRID_ROWS.
Proof.
  unfold inBounds. rewrite !andb_true_iff, !Z.leb_le, !Z.ltb_lt. lia.
Qed.

Lemma wfGrid_row grid y :
  wfGrid grid → 0 ≤ y < GRID_ROWS →
  ∃ row, grid !! Z.to_nat y = Some row ∧ length row = Z.to_nat GRID_COLS.
Proof.
  intros [Hlen Hrows] Hy.
  destruct (lookup_lt_is_Some_2 grid (Z.to_nat y)) as [row Hrow]; [lia|].
  exists row. split; [done|].
  by eapply (Forall_lookup_1 _ _ _ _ Hrows).
Qed.

Lemma wfGrid_cell grid x y :
  wfGrid grid → inBounds x y = true →
  ∃ row, grid !! Z.to_nat y = Some row ∧
         row !! Z.to_nat x = Some (cellAt grid x y).
Proof.
  intros Hwf [Hx Hy]%inBounds_spec.
  destruct (wfGrid_row grid y Hwf Hy) as (row & Hrow & Hlen).
  exists row. split; [done|].
  unfold cellAt. rewrite decide_True by lia. rewrite Hrow.
  destruct (lookup_lt_is_Some_2 row (Z.to_nat x)) as [c Hc]; [lia|].
  by rewrite Hc.
Qed.

Lemma holdsNull_cellAt grid x y :
  wfGrid grid → inBounds x y = true →
  holdsNull grid x y ↔ cellAt grid x y = None.
Proof.
  intros Hwf Hin.
  destruct (wfGrid_cell grid x y Hwf Hin) as (row & Hrow & Hc).
  apply inBounds_spec in Hin. split.
  - intros (_ & _ & row' & Hrow' & Hc'). congruence.
  - intros Hn. repeat split; try lia. exists row. by rewrite <- Hn.
Qed.

Lemma isValidMove_pieceInGrid (grid : Grid) (puyo : PuyoPair.t) :
  wfGrid grid → isValidMove grid puyo = true ↔ pieceInGrid grid puyo.
Proof.
  intros Hwf. unfold pieceInGrid.
  set (x := PuyoPair.x puyo). set (y := PuyoPair.y puyo).
  set (p2 := getSecondPuyoPosition x y (PuyoPair.rotation puyo)).
  unfold isValidMove. fold x y. fold p2.
  destruct p2 as [x2 y2] eqn:Hp2. simpl.
  rewrite !andb_true_iff, !negb_true_iff.
  split.
  - intros [[[[[[[[[H1 H2] H3] H4] H5] H6] H7] H8] H9] H10].
    assert (Hin1 : inBounds x y = true).
    { unfold inBounds. by rewrite H1, H2, H3, H4. }
    assert (Hin2 : inBounds x2 y2 = true).
    { unfold inBounds. by rewrite H5, H6, H7, H8. }
    split; [done|]. rewrite !holdsNull_cellAt by done.
    split; [by destruct (cellAt grid x y)|by destruct (cellAt grid x2 y2)].
  - intros [[Hin1 Hin2] [Hn1 Hn2]].
    rewrite holdsNull_cellAt in Hn1, Hn2 by done.
    rewrite Hn1, Hn2. unfold inBounds in Hin1, Hin2.
    rewrite !andb_true_iff in Hin1, Hin2.
    destruct Hin1 as [[[-> ->] ->] ->], Hin2 as [[[-> ->] ->] ->]. done.
Qed.

Lemma getSecondPuyoPosition_offset x y rotation :
  getSecondPuyoPosition x y rotation =
    (x + (default (0, 0) (secondCellOffset rotation)).1,
     y + (default (0, 0) (secondCellOffset rotation)).2).
Proof.
  destruct rotation as [|[[p|p|]|[p|p|]|]|p]; simpl; f_equal; lia.
Qed.

(** C7: on a grid of the fixed shape, [isValidMove] answers true exactly
    when the anchor cell and the second cell are both inside the grid and
    both hold [null], the second cell being the anchor moved by the delta
    the specification's [secondCellOffset] gives for the orientation: one
    row up for 0, one column right for 1, one row down for 2, one column
    left for 3.  (For an orientation outside the table the source takes
    the anchor again; no piece of a run has one.) *)
Theorem isValidMove_iff (grid : Grid) (puyo : PuyoPair.t) :
  wfGrid grid →
  let x := PuyoPair.x puyo in
  let y := PuyoPair.y puyo in
  let offset := default (0, 0) (secondCellOffset (PuyoPair.rotation puyo)) in
  isValidMove grid puyo = true ↔
    (inBounds x y = true ∧ inBounds (x + offset.1) (y + offset.2) = true) ∧
    (holdsNull grid x y ∧ holdsNull grid (x + offset.1) (y + offset.2)).
Proof.
  intros Hwf x y offset.
  rewrite (isValidMove_pieceInGrid grid puyo Hwf). unfold pieceInGrid.
  fold x y. rewrite (getSecondPuyoPosition_offset x y). reflexivity.
Qed.

(** ** Reading and writing cells *)

Lemma wfGrid_setCell grid x y v : wfGrid grid → wfGrid (setCell grid x y v).
Proof.
  intros [Hlen Hrows]. unfold setCell. case_decide; [|done]. split.
  - by rewrite length_alter.
  - apply Forall_alter; [done|]. intros row _ Hrow. by rewrite length_insert.
Qed.

Lemma cellAt_setCell_ne grid x y v x' y' :
  (x, y) ≠ (x', y') →
  cellAt (setCell grid x y v) x' y' = cellAt grid x' y'.
Proof.
  intros Hne. unfold cellAt, setCell.
  destruct (decide (0 ≤ x' ∧ 0 ≤ y')) as [H'|]; [|done].
  destruct (decide (0 ≤ x ∧ 0 ≤ y)) as [H|]; [|done].
  rewrite list_lookup_alter. case_decide as Hy; [|done].
  destruct (grid !! Z.to_nat y) as [row|] eqn:Hrow; rewrite <- Hy, Hrow; [|done].
  simpl. rewrite list_lookup_insert_ne; [done|].
  intros Hx. apply Hne. f_equal; lia.
Qed.

Lemma cellAt_setCell_eq grid x y v :
  wfGrid grid → inBounds x y = true → cellAt (setCell grid x y v) x y = v.
Proof.
  intros Hwf Hin.
  destruct (wfGrid_cell grid x y Hwf Hin) as (row & Hrow & Hc).
  apply inBounds_spec in Hin.
  unfold cellAt, setCell. rewrite !decide_True by lia.
  rewrite list_lookup_alter_eq, Hrow. simpl.
  rewrite list_lookup_insert_eq; [done|].
  by eapply lookup_lt_Some.
Qed.

Lemma setCell_same grid x y :
  setCell grid x y (cellAt grid x y) = grid.
Proof.
  unfold setCell, cellAt. case_decide; [|done].
  apply list_eq. intros i. rewrite list_lookup_alter.
  case_decide as Hi; [|done]. subst i.
  destruct (grid !! Z.to_nat y) as [row|] eqn:Hrow; [|done]. simpl. f_equal.
  apply list_eq. intros j. rewrite list_lookup_insert.
  case_decide as Hj; [|done]. destruct Hj as [<- Hlt].
  destruct (lookup_lt_is_Some_2 row (Z.to_nat x) Hlt) as [c Hc].
  by rewrite Hc.
Qed.

(** Two grids of the fixed shape with the same cells are the same grid. *)
Lemma grid_ext (g1 g2 : Grid) :
  wfGrid g1 → wfGrid g2 →
  (∀ x y, inBounds x y = true → cellAt g1 x y = cellAt g2 x y) →
  g1 = g2.
Proof.
  intros Hwf1 Hwf2 Hcells. apply list_eq. intros i.
  destruct (decide (Z.of_nat i < GRID_ROWS)) as [Hi|Hi].
  - destruct (wfGrid_row g1 (Z.of_nat i) Hwf1) as (r1 & Hr1 & Hl1); [lia|].
    destruct (wfGrid_row g2 (Z.of_nat i) Hwf2) as (r2 & Hr2 & Hl2); [lia|].
    rewrite Nat2Z.id in Hr1, Hr2. rewrite Hr1, Hr2. f_equal.
    apply list_eq. intros j.
    destruct (decide (Z.of_nat j < GRID_COLS)) as [Hj|Hj].
    + assert (Hin : inBounds (Z.of_nat j) (Z.of_nat i) = true)
        by (apply inBounds_spec; lia).
      destruct (wfGrid_cell g1 _ _ Hwf1 Hin) as (r1' & Hr1' & Hc1).
      destruct (wfGrid_cell g2 _ _ Hwf2 Hin) as (r2' & Hr2' & Hc2).
      rewrite Nat2Z.id in *. simplify_eq. rewrite Hc1, Hc2.
      by rewrite Hcells.
    + rewrite !lookup_ge_None_2; [done|lia|lia].
  - destruct Hwf1 as [Hl1 _], Hwf2 as [Hl2 _].
    rewrite !lookup_ge_None_2; [done|lia|lia].
Qed.

(** ** Columns *)

Lemma length_column grid x : length (column grid x) = Z.to_nat GRID_ROWS.
Proof. unfold column. by rewrite length_fmap, length_seqZ. Qed.

Lemma lookup_column grid x (i : nat) :
  Z.of_nat i < GRID_ROWS →
  column grid x !! i = Some (cellAt grid x (Z.of_nat i)).
Proof.
  intros Hi. unfold column. rewrite list_lookup_fmap.
  by rewrite (lookup_seqZ_lt 0 GRID_ROWS i Hi).
Qed.

Lemma column_setCell_other grid x y v x' :
  x ≠ x' → column (setCell grid x y v) x' = column grid x'.
Proof.
  intros Hne. unfold column. apply list_fmap_ext. intros _ y' _.
  apply cellAt_setCell_ne. congruence.
Qed.

Lemma column_setCell grid x y v :
  wfGrid grid → inBounds x y = true →
  column (setCell grid x y v) x = <[Z.to_nat y := v]> (column grid x).
Proof.
  intros Hwf Hin. apply list_eq. intros i.
  pose proof Hin as [Hx Hy]%inBounds_spec.
  destruct (decide (Z.of_nat i < GRID_ROWS)) as [Hi|Hi].
  - rewrite lookup_column by done. rewrite list_lookup_insert.
    rewrite length_column. case_decide as Hd.
    + destruct Hd as [<- _]. rewrite Z2Nat.id by lia.
      by rewrite cellAt_setCell_eq.
    + rewrite lookup_column by done. f_equal. apply cellAt_setCell_ne.
      intros [=]. apply Hd. lia.
  - rewrite !lookup_ge_None_2; [done| |].
    + rewrite length_insert, length_column. lia.
    + rewrite length_column. lia.
Qed.

Lemma column_ext (g1 g2 : Grid) :
  wfGrid g1 → wfGrid g2 →
  (∀ x, 0 ≤ x < GRID_COLS → column g1 x = column g2 x) → g1 = g2.
Proof.
  intros Hwf1 Hwf2 Hcols. apply grid_ext; [done..|].
  intros x y [Hx Hy]%inBounds_spec.
  assert (Hl : column g1 x !! Z.to_nat y = column g2 x !! Z.to_nat y)
    by (by rewrite Hcols).
  rewrite !lookup_column in Hl by lia. rewrite Z2Nat.id in Hl by lia.
  congruence.
Qed.

(** ** Gravity on one column *)

Lemma colours_snoc_None pre : colours (pre ++ [None]) = colours pre.
Proof. unfold colours. rewrite omap_app. simpl. by rewrite app_nil_r. Qed.

Lemma colours_snoc_Some pre c : colours (pre ++ [Some c]) = colours pre ++ [c].
Proof. unfold colours. by rewrite omap_app. Qed.

Lemma colours_replicate_None k : colours (replicate k None) = [].
Proof. induction k as [|k IH]; [done|]. simpl. apply IH. Qed.

Lemma colours_fmap_Some (l : list Color) : colours (Some <$> l) = l.
Proof.
  induction l as [|c l IH]; [done|].
  unfold colours in *. simpl. f_equal. exact IH.
Qed.

Lemma length_colours col : (length (colours col) ≤ length col)%nat.
Proof.
  induction col as [|[c|] col IH]; simpl; [lia| |].
  - unfold colours in *. simpl. lia.
  - unfold colours in *. simpl. lia.
Qed.

(** One coloured cell falls through the [k] empty cells below it. *)
Lemma fall_through (pre suf : list PuyoColor) (k : nat) c :
  <[length pre := None]>
    (<[(length pre + S k)%nat := Some c]>
       (pre ++ Some c :: replicate (S k) None ++ suf))
  = pre ++ replicate (S k) None ++ Some c :: suf.
Proof.
  rewrite insert_app_r.
  replace (length pre) with (length pre + 0)%nat at 1 by lia.
  rewrite insert_app_r. f_equal.
  change (<[0%nat:=None]>
            (<[S k:=Some c]> (Some c :: replicate (S k) None ++ suf)))
    with (None :: <[k:=Some c]> (replicate (S k) None ++ suf)).
  rewrite (replicate_S_end k), <- !app_assoc.
  rewrite (insert_app_r_alt (replicate k None))
    by (by rewrite length_replicate).
  rewrite length_replicate, Nat.sub_diag. simpl.
  rewrite app_comm_cons. by rewrite replicate_cons_app, <- app_assoc.
Qed.

Lemma wfGrid_gravityColumn x n : ∀ w grid,
  wfGrid grid → wfGrid (gravityColumn x n w grid).
Proof.
  induction n as [|n IH]; intros w grid Hwf; simpl; [done|].
  destruct (cellAt grid x (Z.of_nat n)); [|by apply IH].
  apply IH. case_decide; auto using wfGrid_setCell.
Qed.

Lemma gravityColumn_other x n x' : ∀ w grid,
  x ≠ x' → column (gravityColumn x n w grid) x' = column grid x'.
Proof.
  induction n as [|n IH]; intros w grid Hne; simpl; [done|].
  destruct (cellAt grid x (Z.of_nat n)); [|by apply IH].
  rewrite IH by done.
  case_decide; by rewrite ?column_setCell_other.
Qed.

(** The state of the inner loop before it reads row [n - 1]: the rows above
    are untouched ([pre]), then come the [k] rows already emptied, down to
    [writeY], then the cells already moved ([suf]). *)
(** Two columns that differ in how their padding length is written. *)
Ltac same_padding :=
  match goal with
  | |- replicate ?a _ ++ _ = replicate ?b _ ++ _ =>
      replace b with a by lia; reflexivity
  end.

Lemma gravityColumn_column x n : ∀ w grid pre k suf,
  wfGrid grid → 0 ≤ x < GRID_COLS →
  column grid x = pre ++ replicate k None ++ suf →
  length pre = n → w = Z.of_nat n + Z.of_nat k - 1 →
  column (gravityColumn x n w grid) x =
    replicate (n + k - length (colours pre)) None ++
    (Some <$> colours pre) ++ suf.
Proof.
  induction n as [|n IH]; intros w grid pre k suf Hwf Hx Hcol Hlen Hw.
  { destruct pre; [|done]. simpl in *. by rewrite Nat.sub_0_r. }
  destruct (@exists_last _ pre) as (pre' & c & ->); [by destruct pre|].
  rewrite length_app in Hlen. simpl in Hlen.
  assert (Hn : length pre' = n) by lia.
  assert (HR : (length pre' + 1 + k + length suf)%nat = Z.to_nat GRID_ROWS).
  { rewrite <- (length_column grid x), Hcol.
    rewrite !length_app, length_replicate. simpl. lia. }
  assert (Hcell : cellAt grid x (Z.of_nat n) = c).
  { assert (Hl : column grid x !! n = Some c).
    { rewrite Hcol, <- app_assoc. rewrite lookup_app_r by lia.
      by rewrite Hn, Nat.sub_diag. }
    rewrite lookup_column in Hl by lia. congruence. }
  simpl. rewrite Hcell. destruct c as [c|].
  - assert (Hinw : inBounds x w = true) by (apply inBounds_spec; lia).
    assert (Hiny : inBounds x (Z.of_nat n) = true)
      by (apply inBounds_spec; lia).
    rewrite colours_snoc_Some, length_app, fmap_app. simpl.
    rewrite <- !app_assoc. simpl.
    destruct k as [|k].
    + rewrite decide_False by lia.
      rewrite (IH _ _ pre' 0%nat (Some c :: suf)); try done; try lia.
      * same_padding.
      * by apply wfGrid_setCell.
      * rewrite column_setCell by done. rewrite Hcol.
        replace (Z.to_nat w) with (length pre' + 0)%nat by lia.
        rewrite <- app_assoc. rewrite insert_app_r. by simpl.
    + rewrite decide_True by lia.
      rewrite (IH _ _ pre' (S k) (Some c :: suf)); try done; try lia.
      * same_padding.
      * auto using wfGrid_setCell.
      * rewrite !column_setCell by auto using wfGrid_setCell.
        rewrite Hcol, <- app_assoc. simpl.
        replace (Z.to_nat w) with (length pre' + S k)%nat by lia.
        replace (Z.to_nat (Z.of_nat n)) with (length pre') by lia.
        apply fall_through.
  - rewrite colours_snoc_None.
    rewrite (IH _ _ pre' (S k) suf); try done; try lia.
    + same_padding.
    + by rewrite Hcol, <- app_assoc.
Qed.

Lemma gravityColumn_settle grid x :
  wfGrid grid → 0 ≤ x < GRID_COLS →
  column (gravityColumn x (Z.to_nat GRID_ROWS) (GRID_ROWS - 1) grid) x =
    settle (column grid x).
Proof.
  intros Hwf Hx.
  rewrite (gravityColumn_column x _ _ grid (column grid x) 0%nat []);
    [|done|done|by rewrite app_nil_r|apply length_column|unfold GRID_ROWS; lia].
  unfold settle. rewrite length_column, app_nil_r. same_padding.
Qed.

Lemma wfGrid_gravityColumns k : ∀ x grid,
  wfGrid grid → wfGrid (gravityColumns k x grid).
Proof.
  induction k as [|k IH]; intros x grid Hwf; cbn [gravityColumns]; [done|].
  apply IH. by apply wfGrid_gravityColumn.
Qed.

Lemma gravityColumns_column k : ∀ x0 grid x,
  wfGrid grid → 0 ≤ x0 → x0 + Z.of_nat k ≤ GRID_COLS →
  column (gravityColumns k x0 grid) x =
    if decide (x0 ≤ x < x0 + Z.of_nat k) then settle (column grid x)
    else column grid x.
Proof.
  induction k as [|k IH]; intros x0 grid x Hwf H0 Hk; cbn [gravityColumns].
  { by rewrite decide_False by lia. }
  rewrite IH by (auto using wfGrid_gravityColumn || lia).
  destruct (decide (x = x0)) as [->|Hne].
  - rewrite decide_False by lia. rewrite decide_True by lia.
    apply gravityColumn_settle; [done|lia].
  - rewrite gravityColumn_other by done.
    repeat case_decide; try done; lia.
Qed.

Lemma wfGrid_applyGravity grid : wfGrid grid → wfGrid (applyGravity grid).
Proof. apply wfGrid_gravityColumns. Qed.

(** Column [x] of the result is column [x] of the argument, settled. *)
Lemma applyGravity_column grid x :
  wfGrid grid → 0 ≤ x < GRID_COLS →
  column (applyGravity grid) x = settle (column grid x).
Proof.
  intros Hwf Hx. unfold applyGravity.
  rewrite gravityColumns_column by (done || unfold GRID_COLS; lia).
  by rewrite decide_True by (unfold GRID_COLS in *; lia).
Qed.

Lemma colours_settle col : colours (settle col) = colours col.
Proof.
  unfold settle, colours. rewrite omap_app.
  fold (colours (replicate (length col - length (omap id col)) None)).
  rewrite colours_replicate_None. simpl. apply colours_fmap_Some.
Qed.

Lemma length_settle col : length (settle col) = length col.
Proof.
  unfold settle. rewrite length_app, length_replicate, length_fmap.
  pose proof (length_colours col). lia.
Qed.

Lemma settle_settle col : settle (settle col) = settle col.
Proof.
  unfold settle at 1. by rewrite colours_settle, length_settle.
Qed.

Lemma settled_settle col : settled (settle col).
Proof.
  intros i j c Hij Hi Hj. unfold settle in *.
  set (k := (length col - length (colours col))%nat) in *.
  rewrite lookup_app in Hi.
  destruct (replicate k None !! i) as [c0|] eqn:Hrep.
  { apply lookup_replicate in Hrep as [-> _]. done. }
  apply lookup_ge_None in Hrep. rewrite length_replicate in Hrep.
  rewrite lookup_app_r by (rewrite length_replicate; lia).
  rewrite length_replicate.
  rewrite length_app, length_replicate, length_fmap in Hj.
  destruct (lookup_lt_is_Some_2 (colours col) (j - k)) as [c' Hc']; [lia|].
  exists c'. by rewrite list_lookup_fmap, Hc'.
Qed.

(** C8: [applyGravity] works column by column.  Column [x] of the result
    is a function of column [x] of the argument alone; read from the top it
    shows the same colours in the same order; and in it no empty cell lies
    below a coloured one. *)
Theorem applyGravity_columns (grid : Grid) (x : Z) :
  wfGrid grid → 0 ≤ x < GRID_COLS →
  column (applyGravity grid) x = settle (column grid x) ∧
  colours (column (applyGravity grid) x) = colours (column grid x) ∧
  settled (column (applyGravity grid) x).
Proof.
  intros Hwf Hx. rewrite applyGravity_column by done.
  split; [done|]. split; [apply colours_settle|apply settled_settle].
Qed.

(** C9: settling a settled grid changes nothing. *)
Theorem applyGravity_idempotent (grid : Grid) :
  wfGrid grid → applyGravity (applyGravity grid) = applyGravity grid.
Proof.
  intros Hwf. apply column_ext; auto using wfGrid_applyGravity.
  intros x Hx.
  rewrite !applyGravity_column by auto using wfGrid_applyGravity.
  apply settle_settle.
Qed.

(** ** The cells of the matrix *)

Lemma elem_of_allCells p : p ∈ allCells ↔ inBounds p.1 p.2 = true.
Proof.
  unfold allCells. rewrite inBounds_spec, list_elem_of_bind. split.
  - intros (y & (x & Hp & Hx)%list_elem_of_bind & Hy).
    apply list_elem_of_singleton in Hp as ->.
    apply elem_of_seqZ in Hx, Hy. simpl. lia.
  - intros [Hx Hy]. exists p.2. rewrite elem_of_seqZ. split; [|lia].
    apply list_elem_of_bind. exists p.1. rewrite elem_of_seqZ.
    split; [|lia]. destruct p. apply list_elem_of_singleton. done.
Qed.

Lemma NoDup_allCells : NoDup allCells.
Proof. eapply bool_decide_unpack. by vm_compute. Qed.

Lemma length_allCells : length allCells = Z.to_nat (GRID_ROWS * GRID_COLS).
Proof. reflexivity. Qed.

Section filters.
Context {A : Type} (P Q : A → Prop).
Context `{!∀ a, Decision (P a), !∀ a, Decision (Q a)}.

Lemma length_filter_mono (l : list A) :
  (∀ a, a ∈ l → P a → Q a) →
  (length (filter P l) ≤ length (filter Q l))%nat.
Proof.
  induction l as [|a l IH]; intros HPQ; [done|].
  rewrite !filter_cons.
  assert (IH' : (length (filter P l) ≤ length (filter Q l))%nat).
  { apply IH. intros b Hb. apply HPQ. by right. }
  destruct (decide (P a)) as [HP|HP].
  - rewrite decide_True by (apply HPQ; [left|done]). simpl. lia.
  - destruct (decide (Q a)); simpl; lia.
Qed.

Lemma length_filter_ext (l : list A) :
  (∀ a, a ∈ l → P a ↔ Q a) → length (filter P l) = length (filter Q l).
Proof.
  induction l as [|a l IH]; intros HPQ; [done|].
  rewrite !filter_cons.
  assert (IH' : length (filter P l) = length (filter Q l)).
  { apply IH. intros b Hb. apply HPQ. by right. }
  destruct (decide (P a)) as [HP|HP].
  - rewrite decide_True by (apply HPQ; [left|done]). simpl. lia.
  - rewrite decide_False by (rewrite <- HPQ by left; done). done.
Qed.

Lemma length_filter_lt (l : list A) a :
  a ∈ l → Q a → ¬ P a → (∀ b, b ∈ l → P b → Q b) →
  (length (filter P l) < length (filter Q l))%nat.
Proof.
  induction l as [|b l IH]; intros Ha HQ HnP HPQ.
  { by apply elem_of_nil in Ha. }
  rewrite !filter_cons.
  assert (Htl : ∀ b', b' ∈ l → P b' → Q b')
    by (intros b' Hb'; apply HPQ; by right).
  apply elem_of_cons in Ha as [<-|Ha].
  - rewrite decide_False, decide_True by done. simpl.
    pose proof (length_filter_mono l Htl). lia.
  - specialize (IH Ha HQ HnP Htl).
    destruct (decide (P b)) as [HP|HP].
    + rewrite decide_True by (apply HPQ; [left|done]). simpl. lia.
    + destruct (decide (Q b)); simpl; lia.
Qed.

(** Taking one element out of a predicate: one element less. *)
Lemma length_filter_remove `{!EqDecision A} (l : list A) a :
  NoDup l → a ∈ l → Q a → (∀ b, b ∈ l → P b ↔ Q b ∧ b ≠ a) →
  (length (filter P l) + 1 = length (filter Q l))%nat.
Proof.
  induction l as [|b l IH]; intros Hnd Ha HQ HPQ.
  { by apply elem_of_nil in Ha. }
  apply NoDup_cons in Hnd as [Hb Hnd].
  rewrite !filter_cons.
  apply elem_of_cons in Ha as [<-|Ha].
  - rewrite (decide_True (P := Q a)) by done.
    rewrite (decide_False (P := P a)) by (rewrite HPQ by left; naive_solver).
    simpl. rewrite Nat.add_1_r. f_equal.
    apply length_filter_ext. intros b Hb'. rewrite HPQ by (by right).
    split; [naive_solver|]. intros HQb. split; [done|]. by intros ->.
  - assert (b ≠ a) by (by intros ->).
    assert (Htl : ∀ b', b' ∈ l → P b' ↔ Q b' ∧ b' ≠ a)
      by (intros b' Hb'; apply HPQ; by right).
    specialize (IH Hnd Ha HQ Htl).
    destruct (decide (Q b)) as [HQb|HQb].
    + rewrite (decide_True (P := P b)) by (rewrite HPQ by left; done).
      simpl. lia.
    + rewrite (decide_False (P := P b))
        by (rewrite HPQ by left; naive_solver).
      done.
Qed.
End filters.

(** ** Key sets *)

Lemma has_true s key : has s key = true ↔ key ∈ s.
Proof. unfold has. apply bool_decide_eq_true. Qed.

Lemma has_false s key : has s key = false ↔ key ∉ s.
Proof. unfold has. apply bool_decide_eq_false. Qed.

Lemma elem_of_add s key k : k ∈ add s key ↔ k ∈ s ∨ k = key.
Proof.
  unfold add. destruct (has s key) eqn:Hhas.
  - apply has_true in Hhas. split; [by left|]. by intros [?| ->].
  - rewrite elem_of_app, list_elem_of_singleton. done.
Qed.

Lemma NoDup_add s key : NoDup s → NoDup (add s key).
Proof.
  intros Hnd. unfold add. destruct (has s key) eqn:Hhas; [done|].
  apply has_false in Hhas. apply NoDup_app. split_and!; [done| |].
  - intros k Hk ->%list_elem_of_singleton. done.
  - apply NoDup_singleton.
Qed.

Lemma add_subseteq s key : s ⊆ add s key.
Proof. intros k Hk. apply elem_of_add. by left. Qed.

Lemma elem_of_foldl_add (m : KeySet) : ∀ s k,
  k ∈ foldl add s m ↔ k ∈ s ∨ k ∈ m.
Proof.
  induction m as [|key m IH]; intros s k; simpl.
  - rewrite elem_of_nil. naive_solver.
  - rewrite IH, elem_of_add, elem_of_cons. naive_solver.
Qed.

Lemma NoDup_foldl_add (m : KeySet) : ∀ s, NoDup s → NoDup (foldl add s m).
Proof.
  induction m as [|key m IH]; intros s Hnd; simpl; [done|].
  apply IH. by apply NoDup_add.
Qed.

(** ** The flood fill *)

Lemma unvisited_mono (v v' : KeySet) : v ⊆ v' → (unvisited v' ≤ unvisited v)%nat.
Proof.
  intros Hsub. apply length_filter_mono. intros p _ Hp Hv. apply Hp. auto.
Qed.

Lemma unvisited_add v x y :
  inBounds x y = true → (x, y) ∉ v →
  (unvisited (add v (x, y)) < unvisited v)%nat.
Proof.
  intros Hin Hv. apply (length_filter_lt _ _ _ (x, y)).
  - by apply elem_of_allCells.
  - done.
  - intros Hn. apply Hn. apply elem_of_add. by right.
  - intros p _ Hp Hpv. apply Hp. apply elem_of_add. by left.
Qed.

Lemma unvisited_nil : unvisited [] = Z.to_nat (GRID_ROWS * GRID_COLS).
Proof. reflexivity. Qed.

(** The guard of [findConnectedPuyos]. *)
Lemma findConnectedPuyos_guard grid x y color visited :
  (x <? 0) || (GRID_COLS <=? x) || (y <? 0) || (GRID_ROWS <=? y) ||
  bool_decide (cellAt grid x y ≠ color) || has visited (x, y) = false ↔
  inBounds x y = true ∧ cellAt grid x y = color ∧ (x, y) ∉ visited.
Proof.
  rewrite !orb_false_iff, has_false, bool_decide_eq_false, inBounds_spec.
  rewrite !Z.ltb_ge, !Z.leb_gt.
  destruct (decide (cellAt grid x y = color)); naive_solver lia.
Qed.

(** The call stack never runs out when it has a frame for every cell not
    yet visited and one more; the set only grows. *)
Lemma findConnectedPuyos_returns depth : ∀ grid x y color visited,
  (unvisited visited < depth)%nat →
  ∃ visited', findConnectedPuyos depth grid x y color visited = Some visited'
              ∧ visited ⊆ visited'.
Proof.
  induction depth as [|depth IH]; intros grid x y color visited Hlt; [lia|].
  simpl.
  match goal with |- context [if ?b then _ else _] => destruct b eqn:Hguard end.
  { by exists visited. }
  apply findConnectedPuyos_guard in Hguard as (Hin & Hcol & Hnew).
  pose proof (unvisited_add visited x y Hin Hnew) as Hless.
  pose proof (add_subseteq visited (x, y)) as Hs0.
  destruct (IH grid (x + 1) y color (add visited (x, y))) as (v1 & -> & Hs1);
    [lia|]. simpl.
  pose proof (unvisited_mono _ _ Hs1) as Hu1.
  destruct (IH grid (x - 1) y color v1) as (v2 & -> & Hs2); [lia|]. simpl.
  pose proof (unvisited_mono _ _ Hs2) as Hu2.
  destruct (IH grid x (y + 1) color v2) as (v3 & -> & Hs3); [lia|]. simpl.
  pose proof (unvisited_mono _ _ Hs3) as Hu3.
  destruct (IH grid x (y - 1) color v3) as (v4 & -> & Hs4); [lia|].
  exists v4. split; [done|]. intros k Hk. by apply Hs4, Hs3, Hs2, Hs1, Hs0.
Qed.

(** What it returns is a set of cells of the colour asked for, and holds
    what the set held before. *)
Lemma findConnectedPuyos_regionOf depth : ∀ grid x y color visited visited',
  findConnectedPuyos depth grid x y color visited = Some visited' →
  regionOf grid color visited →
  regionOf grid color visited' ∧ visited ⊆ visited'.
Proof.
  induction depth as [|depth IH]; intros grid x y color visited visited';
    [done|].
  simpl.
  match goal with |- context [if ?b then _ else _] => destruct b eqn:Hguard end.
  { intros [= <-] Hreg. done. }
  apply findConnectedPuyos_guard in Hguard as (Hin & Hcol & Hnew).
  intros Hfind Hreg.
  assert (Hreg0 : regionOf grid color (add visited (x, y))).
  { destruct Hreg as [Hnd Hall]. split; [by apply NoDup_add|].
    intros k [Hk| ->]%elem_of_add; auto. }
  destruct (findConnectedPuyos depth grid (x + 1) y color _) as [v1|] eqn:E1;
    [|done].
  destruct (IH _ _ _ _ _ _ E1 Hreg0) as [Hreg1 H1]. simpl in Hfind.
  destruct (findConnectedPuyos depth grid (x - 1) y color _) as [v2|] eqn:E2;
    [|done].
  destruct (IH _ _ _ _ _ _ E2 Hreg1) as [Hreg2 H2]. simpl in Hfind.
  destruct (findConnectedPuyos depth grid x (y + 1) color _) as [v3|] eqn:E3;
    [|done].
  destruct (IH _ _ _ _ _ _ E3 Hreg2) as [Hreg3 H3]. simpl in Hfind.
  destruct (IH _ _ _ _ _ _ Hfind Hreg3) as [Hreg4 H4].
  split; [done|]. intros k Hk. by apply H4, H3, H2, H1, add_subseteq.
Qed.

Lemma regionOf_nil grid color : regionOf grid color [].
Proof. split; [apply NoDup_nil_2|]. intros k Hk. by apply elem_of_nil in Hk. Qed.

(** From an empty set the fill of a grid cell returns, with a region that
    holds the cell it started from. *)
Lemma findConnectedPuyos_start grid x y :
  inBounds x y = true →
  ∃ matches,
    findConnectedPuyos MAX_DEPTH grid x y (cellAt grid x y) [] = Some matches
    ∧ regionOf grid (cellAt grid x y) matches ∧ (x, y) ∈ matches.
Proof.
  intros Hin.
  destruct (findConnectedPuyos_returns MAX_DEPTH grid x y (cellAt grid x y) [])
    as (m & Hm & _).
  { rewrite unvisited_nil. unfold MAX_DEPTH. lia. }
  exists m. split; [done|].
  destruct (findConnectedPuyos_regionOf _ _ _ _ _ _ _ Hm (regionOf_nil _ _))
    as [Hreg _].
  split; [done|].
  unfold MAX_DEPTH in Hm.
  remember (Z.to_nat (GRID_ROWS * GRID_COLS)) as depth eqn:Hdepth.
  clear Hdepth. simpl in Hm.
  match type of Hm with context [if ?b then _ else _] =>
    destruct b eqn:Hguard end.
  { exfalso. apply not_false_iff_true in Hguard. apply Hguard.
    apply findConnectedPuyos_guard. split_and!; [done..|]. apply not_elem_of_nil. }
  destruct (findConnectedPuyos _ grid (x + 1) y _ _) as [v1|] eqn:E1; [|done].
  simpl in Hm.
  destruct (findConnectedPuyos _ grid (x - 1) y _ _) as [v2|] eqn:E2; [|done].
  simpl in Hm.
  destruct (findConnectedPuyos _ grid x (y + 1) _ _) as [v3|] eqn:E3; [|done].
  simpl in Hm.
  pose proof (regionOf_nil grid (cellAt grid x y)) as Hnil.
  assert (Hreg0 : regionOf grid (cellAt grid x y) (add [] (x, y))).
  { split; [apply NoDup_add, NoDup_nil_2|].
    intros k [Hk| ->]%elem_of_add; [by apply elem_of_nil in Hk|done]. }
  destruct (findConnectedPuyos_regionOf _ _ _ _ _ _ _ E1 Hreg0) as [R1 S1].
  destruct (findConnectedPuyos_regionOf _ _ _ _ _ _ _ E2 R1) as [R2 S2].
  destruct (findConnectedPuyos_regionOf _ _ _ _ _ _ _ E3 R2) as [R3 S3].
  destruct (findConnectedPuyos_regionOf _ _ _ _ _ _ _ Hm R3) as [R4 S4].
  apply S4, S3, S2, S1. apply elem_of_add. by right.
Qed.

(** ** Counting the occupied cells *)

Lemma occupiedAt_true grid p :
  occupiedAt grid p = true ↔ cellAt grid p.1 p.2 ≠ None.
Proof. unfold occupiedAt. apply bool_decide_eq_true. Qed.

Lemma allCells_by_column : allCells ≡ₚ allCellsByColumn.
Proof. eapply bool_decide_unpack. by vm_compute. Qed.

Lemma length_filter_column (P : Z * Z → Prop) `{!∀ p, Decision (P p)}
    (x : Z) (ys : list Z) :
  length (filter P (y ← ys; [(x, y)])) =
  length (filter (λ y, P (x, y)) ys).
Proof.
  induction ys as [|y ys IH]; [done|].
  rewrite bind_cons, filter_app, length_app, IH, !filter_cons. simpl.
  rewrite filter_nil. destruct (decide (P (x, y))); simpl; lia.
Qed.

Lemma length_filter_columns (P : Z * Z → Prop) `{!∀ p, Decision (P p)}
    (xs ys : list Z) :
  length (filter P (x ← xs; y ← ys; [(x, y)])) =
  sum_list_with (λ x, length (filter (λ y, P (x, y)) ys)) xs.
Proof.
  induction xs as [|x xs IH]; [done|].
  rewrite bind_cons, filter_app, length_app, IH, length_filter_column. done.
Qed.

Lemma length_colours_fmap (f : Z → PuyoColor) (ys : list Z) :
  length (colours (f <$> ys)) = length (filter (λ y, f y ≠ None) ys).
Proof.
  induction ys as [|y ys IH]; [done|].
  rewrite filter_cons, fmap_cons. unfold colours in *. simpl.
  destruct (f y) as [c|] eqn:Hf; simpl.
  - f_equal. exact IH.
  - exact IH.
Qed.

Lemma sum_list_with_ext {A : Type} (f g : A → nat) (l : list A) :
  (∀ a, a ∈ l → f a = g a) → sum_list_with f l = sum_list_with g l.
Proof.
  induction l as [|a l IH]; intros Hfg; [done|]. simpl.
  rewrite Hfg by left. rewrite IH; [done|]. intros b Hb. apply Hfg. by right.
Qed.

(** The occupied cells, counted column by column. *)
Lemma occupiedCount_columns grid :
  occupiedCount grid =
  sum_list_with (λ x, length (colours (column grid x))) (seqZ 0 GRID_COLS).
Proof.
  unfold occupiedCount. rewrite allCells_by_column.
  unfold allCellsByColumn. rewrite length_filter_columns.
  apply sum_list_with_ext. intros x _.
  unfold column. rewrite length_colours_fmap.
  apply length_filter_ext. intros y _. apply occupiedAt_true.
Qed.

Lemma occupiedCount_applyGravity grid :
  wfGrid grid → occupiedCount (applyGravity grid) = occupiedCount grid.
Proof.
  intros Hwf. rewrite !occupiedCount_columns.
  apply sum_list_with_ext. intros x Hx%elem_of_seqZ.
  rewrite applyGravity_column by (done || lia).
  by rewrite colours_settle.
Qed.

Lemma occupiedCount_setCell_None grid x y :
  wfGrid grid → inBounds x y = true → cellAt grid x y ≠ None →
  (occupiedCount (setCell grid x y None) + 1 = occupiedCount grid)%nat.
Proof.
  intros Hwf Hin Hocc. unfold occupiedCount.
  apply (length_filter_remove _ _ _ (x, y)).
  - apply NoDup_allCells.
  - by apply elem_of_allCells.
  - by apply occupiedAt_true.
  - intros [x' y'] _. rewrite !occupiedAt_true. simpl.
    destruct (decide ((x, y) = (x', y'))) as [[= <- <-]|Hne].
    + rewrite cellAt_setCell_eq by done. naive_solver.
    + rewrite cellAt_setCell_ne by done. naive_solver.
Qed.

Lemma wfGrid_clearMatched (matchedPuyos : KeySet) : ∀ grid,
  wfGrid grid → wfGrid (clearMatched matchedPuyos grid).
Proof.
  induction matchedPuyos as [|k m IH]; intros grid Hwf; [done|].
  apply IH. by apply wfGrid_setCell.
Qed.

(** Clearing a set of distinct occupied cells empties exactly that many. *)
Lemma occupiedCount_clearMatched (matchedPuyos : KeySet) : ∀ grid,
  wfGrid grid → NoDup matchedPuyos →
  (∀ key, key ∈ matchedPuyos →
     inBounds key.1 key.2 = true ∧ cellAt grid key.1 key.2 ≠ None) →
  (occupiedCount (clearMatched matchedPuyos grid) + length matchedPuyos
   = occupiedCount grid)%nat.
Proof.
  induction matchedPuyos as [|k m IH]; intros grid Hwf Hnd Hall.
  { simpl. lia. }
  apply NoDup_cons in Hnd as [Hk Hnd].
  destruct (Hall k) as [Hin Hocc]; [left|].
  unfold clearMatched in *. simpl.
  rewrite <- (occupiedCount_setCell_None grid k.1 k.2) by done.
  rewrite <- (IH (setCell grid k.1 k.2 None)); [lia| |done|].
  - by apply wfGrid_setCell.
  - intros k' Hk'. destruct (Hall k') as [Hin' Hocc']; [by right|].
    split; [done|]. rewrite cellAt_setCell_ne; [done|].
    destruct k, k'. simpl. intros [= -> ->]. done.
Qed.

(** ** The scan *)

Lemma forEachM_invariant {S A : Type} (body : S → A → option S)
    (I : S → Prop) (l : list A) : ∀ s,
  (∀ s a, a ∈ l → I s → ∃ s', body s a = Some s' ∧ I s') →
  I s → ∃ s', forEachM body s l = Some s' ∧ I s'.
Proof.
  induction l as [|a l IH]; intros s Hbody Hs; simpl.
  { by exists s. }
  destruct (Hbody s a) as (s1 & -> & Hs1); [left|done|]. simpl.
  apply IH; [|done]. intros s2 b Hb. apply Hbody. by right.
Qed.

Lemma scanCell_scanInv grid st p :
  p ∈ allCells → scanInv grid st →
  ∃ st', scanCell grid st p = Some st' ∧ scanInv grid st'.
Proof.
  intros Hp%elem_of_allCells (Hnd & Hall & Hfour). destruct p as [x y].
  unfold scanCell. simpl in Hp.
  destruct (cellAt grid x y) as [c|] eqn:Hc; cbn [truthy]; [|by exists st].
  destruct (findConnectedPuyos_start grid x y Hp) as (m & Hm & Hreg & _).
  rewrite Hc in Hm, Hreg. rewrite Hm. simpl.
  case_decide as Hlen; [|by exists st].
  eexists. split; [done|]. destruct Hreg as [Hndm Hallm].
  split_and!; simpl.
  - by apply NoDup_foldl_add.
  - intros k [Hk|Hk]%elem_of_foldl_add; [by apply Hall|].
    destruct (Hallm k Hk) as [? ->]. done.
  - intros _. etrans; [exact Hlen|]. apply submseteq_length.
    apply NoDup_submseteq; [done|]. intros k Hk.
    apply elem_of_foldl_add. by right.
Qed.

(** The scan returns; its set holds distinct occupied cells, at least
    four of them when [hasMatches] is set. *)
Lemma scanMatches_scanInv grid :
  ∃ st, scanMatches grid = Some st ∧ scanInv grid st.
Proof.
  apply forEachM_invariant.
  - intros s a Ha Hs. by apply scanCell_scanInv.
  - split_and!; simpl; [apply NoDup_nil_2| |done].
    intros k Hk. by apply elem_of_nil in Hk.
Qed.

(** ** One pass and the loop *)


Lemma occupiedCount_le grid :
  (occupiedCount grid ≤ Z.to_nat (GRID_ROWS * GRID_COLS))%nat.
Proof.
  unfold occupiedCount. rewrite <- length_allCells. apply length_filter.
Qed.



(** ** The pause toggle *)

(** C10: the pause toggle flips [isPaused] and nothing else, and a press of
    Escape (on a key bound to no action) runs it whatever the phase is. *)
Theorem togglePause_frame (s : Session.t) (fresh : Color * Color) :
  dispatch (EvKey true None fresh) s = Some (Ok (togglePause s)) ∧
  Session.isPaused (togglePause s) = negb (Session.isPaused s) ∧
  Session.grid (togglePause s) = Session.grid s ∧
  Session.gameState (togglePause s) = Session.gameState s ∧
  Session.score (togglePause s) = Session.score s ∧
  Session.currentPuyo (togglePause s) = Session.currentPuyo s ∧
  Session.nextPuyos (togglePause s) = Session.nextPuyos s ∧
  Session.chainCounter (togglePause s) = Session.chainCounter s ∧
  Session.highScore (togglePause s) = Session.highScore s ∧
  Session.fallSpeed (togglePause s) = Session.fallSpeed s ∧
  Session.heldPuyo (togglePause s) = Session.heldPuyo s ∧
  Session.canHold (togglePause s) = Session.canHold s ∧
  Session.isAnimating (togglePause s) = Session.isAnimating s ∧
  Session.resolvers (togglePause s) = Session.resolvers s ∧
  Session.chainResets (togglePause s) = Session.chainResets s ∧
  Session.detached (togglePause s) = Session.detached s.
Proof.
  split_and!; try reflexivity.
  unfold dispatch, handleKeyPress. by destruct (Session.isPaused s).
Qed.

(** ** Runs *)

Lemma runEvents_reachable stored events : ∀ s s',
  reachable false stored s → runEvents events s = Some (Ok s') →
  reachable false stored s'.
Proof.
  induction events as [|e events IH]; intros s s' Hs Hrun; simpl in Hrun.
  { by injection Hrun as <-. }
  destruct (dispatch e s) as [[s1| | |]|] eqn:He;
    try (destruct events; [done|done]).
  apply (IH s1); [|done].
  eapply reachable_step; [exact Hs|done|exact He|done].
Qed.

Lemma startedSession_reachable : reachable true 0 startedSession.
Proof.
  apply (reachable_step true 0 (initialSession 0)
           (EvStart (red, green) (blue, blue) (red, red) (green, yellow))
           (Ok startedSession) startedSession).
  - apply reachable_init.
  - intros _. reflexivity.
  - vm_compute. reflexivity.
  - reflexivity.
Qed.

(** The claim C2 fails on a session just started: the phase is active, no
    resolution is animated, and the second cell of the piece just spawned
    is at row -1. *)
Lemma spawned_piece_not_in_grid :
  reachable true 0 startedSession ∧
  Session.gameState startedSession = active ∧
  Session.isAnimating startedSession = false ∧
  ∃ puyo, Session.currentPuyo startedSession = Some puyo ∧
          ¬ pieceInGrid (Session.grid startedSession) puyo.
Proof.
  split; [apply startedSession_reachable|]. split; [done|]. split; [done|].
  eexists. split; [reflexivity|].
  intros [[_ Hin] _]. by vm_compute in Hin.
Qed.

(** C4, the defect: a lock the engine itself issues writes above the grid.
    While the resolver of the lock before sleeps on its first timer, the
    key handler still takes a press of [down] (only the fall timer looks at
    [isAnimating]); the piece is still where it was spawned, the move is
    rejected because the cell under it is not yet cleared by gravity, and
    [placePuyo] writes the second colour to row -1. *)
Theorem lock_at_spawn_writes_above_grid :
  ∃ s puyo s',
    runEvents stackToTheTop (initialSession 0) = Some (Ok s) ∧
    reachable false 0 s ∧
    Session.gameState s = active ∧ Session.isPaused s = false ∧
    Session.currentPuyo s = Some puyo ∧
    isValidMove (Session.grid s) (movedBy 0 1 puyo) = false ∧
    getSecondPuyoPosition (PuyoPair.x puyo) (PuyoPair.y puyo)
      (PuyoPair.rotation puyo) = (2, -1) ∧
    inBounds 2 (-1) = false ∧
    dispatch (pressDown (yellow, yellow)) s = Some (Throws s').
Proof.
  destruct (runEvents stackToTheTop (initialSession 0)) as [[s| | |]|] eqn:Hrun;
    try (by vm_compute in Hrun).
  pose proof (runEvents_reachable 0 _ _ _ (reachable_init false 0) Hrun)
    as Hreach.
  vm_compute in Hrun. injection Hrun as <-.
  eexists _, _, _. split; [reflexivity|]. split; [exact Hreach|].
  split_and!; reflexivity.
Qed.

(** ** The invariant of the gated runs *)

Lemma wfGrid_createEmptyGrid : wfGrid createEmptyGrid.
Proof.
  split; [apply length_replicate|].
  apply Forall_replicate, length_replicate.
Qed.

Lemma cellAt_createEmptyGrid x y : cellAt createEmptyGrid x y = None.
Proof.
  unfold cellAt, createEmptyGrid. case_decide; [|done].
  destruct (replicate _ _ !! Z.to_nat y) as [row|] eqn:Hrow; [|done].
  apply lookup_replicate in Hrow as [-> _].
  destruct (replicate _ _ !! Z.to_nat x) as [c|] eqn:Hc; [|done].
  by apply lookup_replicate in Hc as [-> _].
Qed.

Lemma allSettled_applyGravity grid :
  wfGrid grid → allSettled (applyGravity grid).
Proof.
  intros Hwf x Hx. rewrite applyGravity_column by done.
  apply settled_settle.
Qed.

Lemma rowHasPuyo_false grid (y : nat) x :
  wfGrid grid → rowHasPuyo grid y = false →
  Z.of_nat y < GRID_ROWS → 0 ≤ x < GRID_COLS →
  cellAt grid x (Z.of_nat y) = None.
Proof.
  intros Hwf Hrow Hy Hx.
  destruct (wfGrid_cell grid x (Z.of_nat y) Hwf) as (row & Hr & Hc).
  { apply inBounds_spec. lia. }
  unfold rowHasPuyo in Hrow. rewrite Nat2Z.id in Hr. rewrite Hr in Hrow.
  simpl in Hrow.
  destruct (cellAt grid x (Z.of_nat y)) as [c|] eqn:Hcell; [|done].
  exfalso. apply not_true_iff_false in Hrow. apply Hrow.
  apply existsb_exists. exists (Some c). split.
  - apply list_elem_of_In. by eapply list_elem_of_lookup_2.
  - by apply bool_decide_eq_true.
Qed.

Lemma rowHasPuyo_true grid (y : nat) :
  wfGrid grid → Z.of_nat y < GRID_ROWS →
  rowHasPuyo grid y = true ↔
  ∃ x, 0 ≤ x < GRID_COLS ∧ cellAt grid x (Z.of_nat y) ≠ None.
Proof.
  intros Hwf Hy. split.
  - intros Hrow.
    destruct (wfGrid_row grid (Z.of_nat y) Hwf) as (row & Hr & Hlen); [lia|].
    unfold rowHasPuyo in Hrow. rewrite Nat2Z.id in Hr. rewrite Hr in Hrow.
    simpl in Hrow. apply existsb_exists in Hrow as (c & Hc & Hne).
    apply list_elem_of_In, list_elem_of_lookup in Hc as [i Hi].
    apply bool_decide_eq_true in Hne.
    pose proof (lookup_lt_Some _ _ _ Hi) as Hlt.
    exists (Z.of_nat i). split; [lia|].
    unfold cellAt. rewrite decide_True by lia.
    by rewrite !Nat2Z.id, Hr, Hi.
  - intros (x & Hx & Hne).
    destruct (rowHasPuyo grid y) eqn:Hrow; [done|].
    by rewrite (rowHasPuyo_false grid y x) in Hne.
Qed.

(** In a settled grid an empty row 1 has an empty row 0 above it. *)
Lemma topClear_settled grid :
  wfGrid grid → allSettled grid → rowHasPuyo grid 1 = false → topClear grid.
Proof.
  intros Hwf Hset Hrow x Hx.
  assert (H1 : cellAt grid x 1 = None).
  { apply (rowHasPuyo_false grid 1 x); [done..|unfold GRID_ROWS; lia|done]. }
  split; [|done].
  destruct (cellAt grid x 0) as [c|] eqn:H0; [|done].
  destruct (Hset x Hx 0%nat 1%nat c) as [c' Hc'].
  - lia.
  - rewrite lookup_column by (unfold GRID_ROWS; lia). by rewrite <- H0.
  - rewrite length_column. unfold GRID_ROWS. lia.
  - rewrite lookup_column in Hc' by (unfold GRID_ROWS; lia).
    change (Z.of_nat 1) with 1 in Hc'. congruence.
Qed.

Lemma topClear_createEmptyGrid : topClear createEmptyGrid.
Proof. intros x _. by rewrite !cellAt_createEmptyGrid. Qed.

(** From the spawn position, under two empty top rows, the piece can move
    down. *)
Lemma spawnPlaced_can_fall grid puyo :
  wfGrid grid → topClear grid → spawnPlaced puyo →
  isValidMove grid (movedBy 0 1 puyo) = true.
Proof.
  intros Hwf Htop (Hx & Hy & Hr).
  apply isValidMove_pieceInGrid; [done|].
  unfold pieceInGrid, movedBy. simpl. rewrite Hx, Hy, Hr. simpl.
  destruct (Htop 2) as [H0 H1]; [unfold GRID_COLS; lia|].
  split; [done|]. by rewrite !holdsNull_cellAt.
Qed.

Lemma spawnPlaced_generatePuyoPair random :
  spawnPlaced (generatePuyoPair random).
Proof. done. Qed.

Lemma spawnPlaced_atSpawn puyo : spawnPlaced (atSpawn puyo).
Proof. done. Qed.

Lemma spawnPlaced_head (queue : list PuyoPair.t) puyo :
  Forall spawnPlaced queue → head queue = Some puyo → spawnPlaced puyo.
Proof. destruct queue; [done|]. intros Hq [= <-]. by inversion Hq. Qed.

Lemma spawnPlaced_queue (queue : list PuyoPair.t) fresh :
  Forall spawnPlaced queue →
  Forall spawnPlaced (tail queue ++ [generatePuyoPair fresh]).
Proof.
  intros Hq. apply Forall_app. split.
  - destruct queue; [done|]. by inversion Hq.
  - by apply Forall_singleton.
Qed.

Lemma resolverPass_sessionInv s chainCount :
  wfGrid (Session.grid s) → allSettled (Session.grid s) →
  Forall spawnPlaced (Session.nextPuyos s) →
  Session.resolvers s = [] → Session.isAnimating s = true →
  Session.gameState s = active →
  (∀ puyo, Session.currentPuyo s = Some puyo → spawnPlaced puyo) →
  ∃ s', resolverPass chainCount s = Some s' ∧ sessionInv s'.
Proof.
  intros Hwf Hset Hq Hres Hanim Hact Hcur. unfold resolverPass.
  destruct (scanMatches_scanInv (Session.grid s))
    as ([hasMatches m] & -> & _). simpl. destruct hasMatches.
  - eexists. split; [done|]. split_and!; simpl.
    + by apply wfGrid_clearMatched.
    + done.
    + right. eexists. rewrite Hres. simpl. split_and!; try done.
  - exists (finishResolver s). split; [done|]. unfold finishResolver. simpl.
    destruct (rowHasPuyo (Session.grid s) 1) eqn:Hrow; simpl.
    + split_and!; try done. left. split_and!; simpl; try done.
    + split_and!; try done. left. split_and!; simpl; try done.
      intros _. split; [by apply topClear_settled|].
      intros puyo Hp. right. by apply Hcur.
Qed.

(** A lock from a validated position writes inside the grid and starts the
    resolver. *)
Lemma placePuyo_sessionInv s fresh puyo :
  sessionInv s → quiet s → Session.gameState s = active →
  Session.currentPuyo s = Some puyo →
  isValidMove (Session.grid s) puyo = true →
  ∃ s', placePuyo fresh s = Ok s' ∧ sessionInv s'.
Proof.
  intros (Hwf & Hq & _) (Hres & Hanim & _) Hact Hcur Hvalid.
  apply isValidMove_pieceInGrid in Hvalid as [[Hin1 Hin2] _]; [|done].
  unfold placePuyo. rewrite Hcur.
  destruct (getSecondPuyoPosition _ _ _) as [x2 y2]. simpl in Hin2.
  set (x := PuyoPair.x puyo) in *. set (y := PuyoPair.y puyo) in *.
  assert (Hw : ∀ g x y v, wfGrid g → inBounds x y = true →
                writeCell g x y v = Written (setCell g x y v)).
  { intros g x' y' v Hg Hin.
    destruct (wfGrid_cell g x' y' Hg Hin) as (row & Hrow & Hc).
    pose proof (lookup_lt_Some _ _ _ Hrow).
    pose proof (lookup_lt_Some _ _ _ Hc).
    apply inBounds_spec in Hin.
    unfold writeCell. rewrite decide_True by lia. rewrite Hrow.
    by rewrite decide_True by lia. }
  rewrite Hw by done. rewrite Hw by auto using wfGrid_setCell.
  unfold applyGravityAndCheck.
  match goal with |- context [resolverPass 0 ?s0] =>
    destruct (resolverPass_sessionInv s0 0) as (s' & -> & Hinv) end;
    simpl; try done.
  - auto using wfGrid_applyGravity, wfGrid_setCell.
  - apply allSettled_applyGravity. auto using wfGrid_setCell.
  - by apply spawnPlaced_queue.
  - intros p Hp. by eapply spawnPlaced_head.
  - by exists s'.
Qed.

Lemma movePuyo_sessionInv direction fresh s :
  sessionInv s → quiet s →
  ∃ s', movePuyo direction fresh s = Ok s' ∧ sessionInv s'.
Proof.
  intros Hinv Hquiet. unfold movePuyo.
  destruct (Session.currentPuyo s) as [puyo|] eqn:Hcur; [|by exists s].
  destruct (bool_decide _ || _) eqn:Hgate; [by exists s|].
  apply orb_false_iff in Hgate as [Hact _].
  apply bool_decide_eq_false in Hact. apply dec_stable in Hact.
  destruct Hinv as (Hwf & Hq & Hmode).
  destruct Hquiet as (Hres & Hanim & Hactive).
  destruct (Hactive Hact) as [Htop Hpiece].
  assert (Hmoved : ∀ puyo', isValidMove (Session.grid s) puyo' = true →
            sessionInv (Session.setCurrentPuyo (Some puyo') s)).
  { intros puyo' Hv. split_and!; simpl; try done. left.
    split_and!; simpl; try done. intros _. split; [done|].
    intros p [= <-]. by left. }
  match goal with |- context [isValidMove _ ?p] =>
    destruct (isValidMove (Session.grid s) p) eqn:Hv end.
  { eexists. split; [done|]. by apply Hmoved. }
  destruct direction; try (exists s; split; [done|]; split_and!; try done;
    left; split_and!; done).
  destruct (Hpiece puyo Hcur) as [Hvalid|Hspawn].
  - by eapply placePuyo_sessionInv.
  - by rewrite spawnPlaced_can_fall in Hv.
Qed.

Lemma rotatePuyo_sessionInv direction s :
  sessionInv s → quiet s → sessionInv (rotatePuyo direction s).
Proof.
  intros Hinv Hquiet. unfold rotatePuyo.
  destruct (Session.currentPuyo s) as [puyo|] eqn:Hcur; [|done].
  destruct (bool_decide _ || _) eqn:Hgate; [done|].
  destruct (isValidMove _ _) eqn:Hv; [|done].
  destruct Hinv as (Hwf & Hq & _). destruct Hquiet as (Hres & Hanim & Hactive).
  split_and!; simpl; try done. left. split_and!; simpl; try done.
  intros Hact. split; [by apply Hactive|]. intros p [= <-]. by left.
Qed.

Lemma holdPuyo_sessionInv fresh s :
  sessionInv s → quiet s → sessionInv (holdPuyo fresh s).
Proof.
  intros Hinv Hquiet. unfold holdPuyo.
  destruct (Session.currentPuyo s) as [puyo|] eqn:Hcur; [|done].
  destruct (negb _ || _ || _) eqn:Hgate; [done|].
  destruct Hinv as (Hwf & Hq & _). destruct Hquiet as (Hres & Hanim & Hactive).
  destruct (Session.heldPuyo s) as [held|]; simpl.
  - split_and!; simpl; try done. left. split_and!; simpl; try done.
    intros Hact. split; [by apply Hactive|]. intros p [= <-]. by right.
  - split_and!; simpl; try done; [by apply spawnPlaced_queue|].
    left. split_and!; simpl; try done.
    intros Hact. split; [by apply Hactive|].
    intros p Hp. right. by eapply spawnPlaced_head.
Qed.

(** The invariant reads six of the state cells only. *)
Lemma sessionInv_same s s' :
  Session.grid s' = Session.grid s →
  Session.gameState s' = Session.gameState s →
  Session.currentPuyo s' = Session.currentPuyo s →
  Session.nextPuyos s' = Session.nextPuyos s →
  Session.isAnimating s' = Session.isAnimating s →
  Session.resolvers s' = Session.resolvers s →
  sessionInv s → sessionInv s'.
Proof.
  intros Hg Hs Hc Hn Ha Hr. unfold sessionInv, quiet, resolving.
  by rewrite Hg, Hs, Hc, Hn, Ha, Hr.
Qed.

Lemma togglePause_sessionInv s : sessionInv s → sessionInv (togglePause s).
Proof. by apply sessionInv_same. Qed.

Lemma syncHighScore_sessionInv s : sessionInv s → sessionInv (syncHighScore s).
Proof.
  unfold syncHighScore. case_decide; [|done]. by apply sessionInv_same.
Qed.

Lemma setFreshGrid_quiet s :
  Session.resolvers s = [] →
  setFreshGrid s = Session.setGrid createEmptyGrid s.
Proof. intros Hnone. unfold setFreshGrid. by rewrite Hnone. Qed.

Lemma startGame_sessionInv r0 r1 r2 r3 s :
  sessionInv s → Session.resolvers s = [] →
  sessionInv (startGame r0 r1 r2 r3 s).
Proof.
  intros (_ & _ & [Hquiet|Hres]) Hnone.
  - destruct Hquiet as (_ & Hanim & _).
    unfold startGame. rewrite setFreshGrid_quiet by done.
    apply syncHighScore_sessionInv.
    split_and!; simpl.
    + apply wfGrid_createEmptyGrid.
    + by repeat constructor.
    + left. split_and!; simpl; try done. intros _.
      split; [apply topClear_createEmptyGrid|].
      intros p [= <-]. by right.
  - destruct Hres as (r & Hr & _). congruence.
Qed.

Lemma resumeResolver_sessionInv s :
  sessionInv s → ∃ s', resumeResolver s = Some s' ∧ sessionInv s'.
Proof.
  intros Hinv. pose proof Hinv as (Hwf & Hq & [Hquiet|Hres]).
  - destruct Hquiet as (Hnone & _). unfold resumeResolver. rewrite Hnone.
    by exists s.
  - destruct Hres as (r & Hr & Hanim & Hact & Hcur & Hset & Hrows).
    unfold resumeResolver. rewrite Hr, Hrows. cbn [attachGrid].
    destruct (resolverAwait r) as [puyosCleared|] eqn:Hawait.
    + eexists. split; [done|].
      unfold syncHighScore. simpl.
      assert (Hwf' : wfGrid (applyGravity (Session.grid s)))
        by (by apply wfGrid_applyGravity).
      assert (Hset' : allSettled (applyGravity (Session.grid s)))
        by (by apply allSettled_applyGravity).
      case_decide; simpl; (split_and!; simpl; [done|done|]);
        right; eexists; split_and!; simpl; done.
    + apply resolverPass_sessionInv; simpl; auto.
Qed.

(** A quiet session or a sleeping resolver, never both. *)
Lemma sessionInv_quiet s :
  sessionInv s → Session.isAnimating s = false → quiet s.
Proof.
  intros (_ & _ & [Hquiet|(r & _ & Hanim & _)]) Hno; [done|congruence].
Qed.

Lemma handleKeyPress_sessionInv escape action fresh s :
  sessionInv s → gateOpen (EvKey escape action fresh) s = true →
  ∃ s', handleKeyPress escape action fresh s = Ok s' ∧ sessionInv s'.
Proof.
  intros Hinv Hgate. unfold handleKeyPress.
  set (pauseToggle := if escape then togglePause else id).
  assert (Htoggle : ∀ s0, sessionInv s0 → sessionInv (pauseToggle s0)).
  { intros s0 H0. unfold pauseToggle. destruct escape; [|done].
    by apply togglePause_sessionInv. }
  destruct (Session.isPaused s).
  { eexists. split; [done|]. by apply Htoggle. }
  destruct action as [action|].
  2: { eexists. split; [done|]. by apply Htoggle. }
  simpl in Hgate. apply negb_true_iff in Hgate.
  pose proof (sessionInv_quiet s Hinv Hgate) as Hquiet.
  assert (Hmove : ∀ d, ∃ s1, movePuyo d fresh s = Ok s1 ∧ sessionInv s1)
    by (intros d; by apply movePuyo_sessionInv).
  destruct action; simpl.
  - destruct (Hmove Direction.left) as (s1 & -> & H1). simpl.
    eexists. split; [done|]. by apply Htoggle.
  - destruct (Hmove Direction.right) as (s1 & -> & H1). simpl.
    eexists. split; [done|]. by apply Htoggle.
  - destruct (Hmove Direction.down) as (s1 & -> & H1). simpl.
    eexists. split; [done|]. by apply Htoggle.
  - eexists. split; [done|]. by apply Htoggle, rotatePuyo_sessionInv.
  - eexists. split; [done|]. by apply Htoggle, rotatePuyo_sessionInv.
  - eexists. split; [done|]. by apply Htoggle, holdPuyo_sessionInv.
Qed.

(** Every step of a gated run returns, and keeps the invariant: no handler
    throws, no lock writes off the grid. *)
Lemma dispatch_sessionInv e s o :
  sessionInv s → gateOpen e s = true → dispatch e s = Some o →
  ∃ s', o = Ok s' ∧ sessionInv s'.
Proof.
  intros Hinv Hgate Hdisp. destruct e; simpl in Hdisp.
  - destruct (_ || _) eqn:Hen; [|done]. injection Hdisp as <-.
    eexists. split; [done|].
    apply startGame_sessionInv; [done|].
    destruct Hinv as (_ & _ & [[Hnone _]|(r & _ & _ & Hact & _)]); [done|].
    rewrite Hact in Hen. done.
  - injection Hdisp as <-. by apply handleKeyPress_sessionInv.
  - destruct (_ || _); [|done]. injection Hdisp as <-.
    eexists. split; [done|]. by apply togglePause_sessionInv.
  - destruct (_ && _) eqn:Hen; [|done]. injection Hdisp as <-.
    apply andb_true_iff in Hen as [_ Hanim%negb_true_iff].
    apply movePuyo_sessionInv; [done|]. by apply sessionInv_quiet.
  - destruct (_ && _); [|done]. injection Hdisp as <-.
    eexists. split; [done|]. by apply (sessionInv_same s).
  - destruct (Session.resolvers s) eqn:Hres; [done|]. injection Hdisp as <-.
    destruct (resumeResolver_sessionInv s Hinv) as (s1 & -> & H1).
    by exists s1.
  - destruct (Session.chainResets s); [done|]. injection Hdisp as <-.
    eexists. split; [done|]. by apply (sessionInv_same s).
Qed.

Lemma initialSession_sessionInv stored : sessionInv (initialSession stored).
Proof.
  split_and!; simpl; [apply wfGrid_createEmptyGrid|done|].
  left. split_and!; done.
Qed.

Lemma reachable_sessionInv stored s :
  reachable true stored s → sessionInv s.
Proof.
  induction 1 as [|s e o s' Hreach IH Hgate Hdisp Hafter].
  - apply initialSession_sessionInv.
  - destruct (dispatch_sessionInv e s o IH (Hgate eq_refl) Hdisp)
      as (s1 & -> & H1).
    cbn [after] in Hafter. by injection Hafter as <-.
Qed.

(** In the runs with the gate no handler throws: every lock writes both
    colours inside the grid. *)
Lemma gated_dispatch_returns stored e s o :
  reachable true stored s → gateOpen e s = true → dispatch e s = Some o →
  ∃ s', o = Ok s'.
Proof.
  intros Hreach Hgate Hdisp.
  destruct (dispatch_sessionInv e s o) as (s' & -> & _);
    [by eapply reachable_sessionInv|done..|by exists s'].
Qed.

(** C2, amended: in the runs in which moves, rotations and holds arrive
    only while no resolution is animated, whenever the phase is active and
    the animation flag is down there is no active piece, or its two cells
    are cells of the grid and empty, or it stands where it was spawned or
    swapped in: anchor in the empty spawn cell of row 0, orientation 0,
    second cell at row -1 above the grid. *)
Theorem active_piece_placed (stored : Z) (s : Session.t) :
  reachable true stored s →
  Session.gameState s = active → Session.isAnimating s = false →
  Session.currentPuyo s = None ∨
  ∃ puyo, Session.currentPuyo s = Some puyo ∧
          (pieceInGrid (Session.grid s) puyo ∨
           pieceAtSpawn (Session.grid s) puyo).
Proof.
  intros Hreach Hact Hanim.
  pose proof (reachable_sessionInv _ _ Hreach) as Hinv.
  destruct (sessionInv_quiet s Hinv Hanim) as (_ & _ & Hactive).
  destruct Hinv as (Hwf & _). destruct (Hactive Hact) as [Htop Hpiece].
  destruct (Session.currentPuyo s) as [puyo|]; [right|by left].
  exists puyo. split; [done|].
  destruct (Hpiece puyo eq_refl) as [Hvalid|(Hx & Hy & Hr)].
  - left. by apply isValidMove_pieceInGrid.
  - right. unfold pieceAtSpawn. rewrite Hx, Hy, Hr.
    split; [done|]. split; [|done]. split; [done|].
    apply holdsNull_cellAt; [done..|].
    apply Htop. unfold GRID_COLS. lia.
Qed.

Lemma runTimers_more_fuel fuel : ∀ fuel' s s',
  runTimers fuel s = Some s' → (fuel ≤ fuel')%nat →
  runTimers fuel' s = Some s'.
Proof.
  induction fuel as [|fuel IH]; intros fuel' s s' Hrun Hle.
  { destruct fuel'; simpl in *; by destruct (Session.resolvers s). }
  destruct fuel' as [|fuel']; [lia|]. simpl in *.
  destruct (Session.resolvers s); [done|].
  destruct (resumeResolver s) as [s1|]; simpl in *; [|done].
  apply IH; [done|lia].
Qed.
(** ** A lock and its resolver, run to the end *)

Lemma writeCell_inBounds grid x y v :
  wfGrid grid → inBounds x y = true →
  writeCell grid x y v = Written (setCell grid x y v).
Proof.
  intros Hwf Hin.
  destruct (wfGrid_cell grid x y Hwf Hin) as (row & Hrow & Hc).
  pose proof (lookup_lt_Some _ _ _ Hrow).
  pose proof (lookup_lt_Some _ _ _ Hc).
  apply inBounds_spec in Hin.
  unfold writeCell. rewrite decide_True by lia. rewrite Hrow.
  by rewrite decide_True by lia.
Qed.

Lemma chainLoop_more_fuel fuel : ∀ fuel' st final,
  chainLoop fuel st = Some final → (fuel ≤ fuel')%nat →
  chainLoop fuel' st = Some final.
Proof.
  induction fuel as [|fuel IH]; intros fuel' st final Hloop Hle; [done|].
  destruct fuel' as [|fuel']; [lia|]. simpl in *.
  destruct (checkAndUpdateChain st) as [[hasMatches st']|]; simpl in *;
    [|done]. destruct hasMatches; [|done].
  apply IH; [done|lia].
Qed.

Lemma runTimers_done fuel s :
  Session.resolvers s = [] → runTimers fuel s = Some s.
Proof. intros Hnone. destruct fuel; simpl; by rewrite Hnone. Qed.

Lemma runTimers_fire fuel s r rest :
  Session.resolvers s = r :: rest →
  runTimers (S fuel) s = resumeResolver s ≫= runTimers fuel.
Proof. intros Hres. simpl. by rewrite Hres. Qed.

(** The first timer of a pass: the score, the chain counter, gravity. *)
Lemma resumeResolver_AfterClear s count puyosCleared :
  Session.resolvers s =
    [{| resolverChainCount := count;
        resolverAwait := AfterClear puyosCleared;
        resolverGrid := None |}] →
  ∃ s2, resumeResolver s = Some s2 ∧
    Session.resolvers s2 =
      [{| resolverChainCount := count; resolverAwait := AfterGravity;
          resolverGrid := None |}] ∧
    Session.grid s2 = applyGravity (Session.grid s) ∧
    Session.score s2 =
      Session.score s + chainPoints (Z.of_nat puyosCleared) count ∧
    Session.chainCounter s2 = count ∧
    Session.gameState s2 = Session.gameState s ∧
    Session.currentPuyo s2 = Session.currentPuyo s ∧
    Session.nextPuyos s2 = Session.nextPuyos s.
Proof.
  intros Hres. unfold resumeResolver. rewrite Hres.
  cbn [resolverAwait resolverChainCount]. eexists. split; [done|].
  unfold syncHighScore. simpl. case_decide; done.
Qed.

(** The second timer of a pass: the loop goes round. *)
Lemma resumeResolver_AfterGravity s count :
  Session.resolvers s =
    [{| resolverChainCount := count; resolverAwait := AfterGravity;
        resolverGrid := None |}] →
  resumeResolver s = resolverPass count (Session.setResolvers [] s).
Proof. intros Hres. unfold resumeResolver. by rewrite Hres. Qed.

(** The timers of a resolver firing one after the other do what the loop of
    [applyGravityAndCheck] does, and then the end of the function: the
    session gets the grid, the score and the chain counter the loop ends
    with, the animation flag goes down, and the phase becomes [over]
    exactly when row 1 of that grid holds a puyo. *)
Lemma resolverPass_runs fuel : ∀ s count,
  wfGrid (Session.grid s) → Session.resolvers s = [] →
  (occupiedCount (Session.grid s) < fuel)%nat →
  ∃ s1 s' final,
    resolverPass count s = Some s1 ∧ runTimers fuel s1 = Some s' ∧
    chainLoop fuel {| newGrid := Session.grid s; chainCount := count;
                      score := Session.score s;
                      chainCounter := Session.chainCounter s |} = Some final ∧
    Session.grid s' = newGrid final ∧
    Session.score s' = score final ∧
    Session.chainCounter s' = chainCounter final ∧
    wfGrid (Session.grid s') ∧
    Session.resolvers s' = [] ∧ Session.isAnimating s' = false ∧
    Session.gameState s' =
      (if rowHasPuyo (Session.grid s') 1 then over else Session.gameState s) ∧
    Session.currentPuyo s' = Session.currentPuyo s ∧
    Session.nextPuyos s' = Session.nextPuyos s.
Proof.
  induction fuel as [fuel IH] using (well_founded_induction lt_wf).
  intros s count Hwf Hnone Hlt. destruct fuel as [|fuel]; [lia|].
  unfold resolverPass. cbn [chainLoop]. unfold checkAndUpdateChain.
  cbn [newGrid].
  destruct (scanMatches_scanInv (Session.grid s))
    as ([hasMatches m] & -> & Hnd & Hall & Hfour).
  simpl in Hnd, Hall, Hfour. cbn [mbind option_bind].
  destruct hasMatches.
  - (* a match: two timers, then the next pass *)
    specialize (Hfour eq_refl).
    pose proof (occupiedCount_clearMatched m (Session.grid s) Hwf Hnd Hall)
      as Hcleared.
    pose proof (wfGrid_clearMatched m _ Hwf) as Hwfc.
    destruct fuel as [|fuel]; [lia|].
    set (cleared := clearMatched m (Session.grid s)) in *.
    match goal with |- context [Some ?t = Some _] => set (s1 := t) end.
    assert (Hres1 : Session.resolvers s1 =
              [{| resolverChainCount := count + 1;
                  resolverAwait := AfterClear (length m);
                  resolverGrid := None |}]).
    { unfold s1. simpl. by rewrite Hnone. }
    destruct (resumeResolver_AfterClear s1 _ _ Hres1)
      as (s2 & Hr1 & Hres2 & Hg2 & Hsc2 & Hcc2 & Hst2 & Hcur2 & Hnext2).
    pose proof (resumeResolver_AfterGravity s2 _ Hres2) as Hr2.
    set (s3 := Session.setResolvers [] s2) in *.
    assert (Hg3 : Session.grid s3 = applyGravity cleared) by exact Hg2.
    destruct (IH fuel ltac:(lia) s3 (count + 1))
      as (s4 & s' & final & Hpass & Hrun & Hloop
          & Hg & Hsc & Hcc & Hwf' & Hres & Hanim & Hstate & Hcur & Hnext).
    { rewrite Hg3. by apply wfGrid_applyGravity. }
    { done. }
    { rewrite Hg3, occupiedCount_applyGravity by done. lia. }
    exists s1, s', final. split; [reflexivity|].
    change (Session.grid s3) with (Session.grid s2) in Hloop.
    change (Session.score s3) with (Session.score s2) in Hloop.
    change (Session.chainCounter s3) with (Session.chainCounter s2) in Hloop.
    rewrite Hg2, Hsc2, Hcc2 in Hloop.
    split_and!; try done.
    + (* the timers *)
      rewrite (runTimers_fire _ s1 _ _ Hres1), Hr1. cbn [mbind option_bind].
      rewrite (runTimers_fire _ s2 _ _ Hres2), Hr2, Hpass.
      cbn [mbind option_bind]. exact Hrun.
    + apply (chainLoop_more_fuel fuel); [|lia]. exact Hloop.
    + rewrite Hstate.
      change (Session.gameState s3) with (Session.gameState s2).
      by rewrite Hst2.
    + rewrite Hcur.
      change (Session.currentPuyo s3) with (Session.currentPuyo s2).
      by rewrite Hcur2.
    + rewrite Hnext.
      change (Session.nextPuyos s3) with (Session.nextPuyos s2).
      by rewrite Hnext2.
  - (* no match: the end of the function *)
    exists (finishResolver s), (finishResolver s). eexists.
    split; [done|]. split.
    { apply runTimers_done. unfold finishResolver. simpl.
      by destruct (rowHasPuyo _ _). }
    split; [done|]. unfold finishResolver. simpl.
    destruct (rowHasPuyo (Session.grid s) 1) eqn:Hrow; simpl;
      rewrite ?Hrow; done.
Qed.

(** A lock followed by its resolver run to the end leaves the phase
    [over] exactly when row 1 of the grid it ends with holds a puyo, and
    [active] otherwise. *)
Lemma lock_then_timers_game_over (s : Session.t) (fresh : Color * Color)
    (puyo : PuyoPair.t) :
  wfGrid (Session.grid s) →
  Session.gameState s = active → Session.isPaused s = false →
  Session.resolvers s = [] →
  Session.currentPuyo s = Some puyo →
  isValidMove (Session.grid s) puyo = true →
  isValidMove (Session.grid s) (movedBy 0 1 puyo) = false →
  ∃ s1 s',
    movePuyo Direction.down fresh s = Ok s1 ∧
    runTimers (S (Z.to_nat (GRID_ROWS * GRID_COLS))) s1 = Some s' ∧
    Session.resolvers s' = [] ∧ Session.isAnimating s' = false ∧
    (Session.gameState s' = over ↔
       ∃ x, 0 ≤ x < GRID_COLS ∧ cellAt (Session.grid s') x 1 ≠ None) ∧
    (Session.gameState s' ≠ over → Session.gameState s' = active).
Proof.
  intros Hwf Hact Hpause Hnone Hcur Hvalid Hblocked.
  apply isValidMove_pieceInGrid in Hvalid as [[Hin1 Hin2] _]; [|done].
  unfold movePuyo. rewrite Hcur, Hact, Hpause, Hblocked. simpl.
  unfold placePuyo. rewrite Hcur.
  destruct (getSecondPuyoPosition _ _ _) as [x2 y2]. simpl in Hin2.
  rewrite writeCell_inBounds by done.
  rewrite writeCell_inBounds by auto using wfGrid_setCell.
  unfold applyGravityAndCheck.
  match goal with |- context [resolverPass 0 ?s0] =>
    destruct (resolverPass_runs (S (Z.to_nat (GRID_ROWS * GRID_COLS))) s0 0)
      as (s1 & s' & final & -> & Hrun & _ & _ & _ & _ & Hwf' & Hres & Hanim
          & Hstate & _)
  end.
  - simpl. auto using wfGrid_applyGravity, wfGrid_setCell.
  - done.
  - match goal with |- (occupiedCount ?g < _)%nat =>
      pose proof (occupiedCount_le g) end. lia.
  - exists s1, s'. split_and!; try done.
    + rewrite Hstate. simpl. rewrite Hact.
      rewrite <- (rowHasPuyo_true _ 1) by (done || unfold GRID_ROWS; lia).
      by destruct (rowHasPuyo (Session.grid s') 1).
    + rewrite Hstate. simpl. rewrite Hact.
      by destruct (rowHasPuyo (Session.grid s') 1).
Qed.

(** ** The first scan and gravity *)


(** C3, the defect: [checkForMatches] of the older variant scans the grid
    as the lock left it.  On [overhangLock] it finds no group and returns
    the grid with the red cell still in the air, where the resolver of the
    page settles the grid first, finds the four reds and scores 40. *)
Theorem legacy_scans_unsettled_grid :
  wfGrid overhangLock ∧
  ¬ settled (column overhangLock 3) ∧
  Legacy.checkForMatches MAX_DEPTH overhangLock 0 0 =
    Some {| newGrid := overhangLock; chainCount := 0;
            score := 0; chainCounter := 0 |} ∧
  ∃ final, resolveLock MAX_DEPTH overhangLock 0 0 = Some final ∧
           chainCount final = 1 ∧ score final = 40 ∧
           cellAt (newGrid final) 3 5 = None.
Proof.
  split; [eapply bool_decide_unpack; by vm_compute|]. split.
  { intros Hs. destruct (Hs 5%nat 6%nat red) as [c Hc];
      [lia|by vm_compute|vm_compute; lia|by vm_compute in Hc]. }
  split; [by vm_compute|].
  eexists. split; [by vm_compute|]. by vm_compute.
Qed.

(** ** The theorems at work *)

Lemma wfGrid_twoChainGrid : wfGrid twoChainGrid.
Proof. eapply bool_decide_unpack. by vm_compute. Defined.

Lemma wfGrid_hangingGrid : wfGrid hangingGrid.
Proof. eapply bool_decide_unpack. by vm_compute. Defined.

(** C8 on column 4 of [hangingGrid]: blue over yellow stay blue over
    yellow, at the bottom. *)
Lemma applyGravity_columns_witness :
  wfGrid hangingGrid ∧ 0 ≤ 4 < GRID_COLS ∧
  column (applyGravity hangingGrid) 4 = settle (column hangingGrid 4) ∧
  colours (column (applyGravity hangingGrid) 4) =
    colours (column hangingGrid 4) ∧
  settled (column (applyGravity hangingGrid) 4).
Proof.
  assert (Hx : 0 ≤ 4 < GRID_COLS) by (unfold GRID_COLS; lia).
  split; [exact wfGrid_hangingGrid|]. split; [exact Hx|].
  exact (applyGravity_columns hangingGrid 4 wfGrid_hangingGrid Hx).
Defined.

(** C9 on [hangingGrid]. *)
Lemma applyGravity_idempotent_witness :
  wfGrid hangingGrid ∧
  applyGravity (applyGravity hangingGrid) = applyGravity hangingGrid.
Proof.
  split; [exact wfGrid_hangingGrid|].
  exact (applyGravity_idempotent hangingGrid wfGrid_hangingGrid).
Defined.

(** C2, amended, on the session just started: its piece stands on the
    spawn position. *)
Lemma active_piece_placed_witness :
  reachable true 0 startedSession ∧
  Session.gameState startedSession = active ∧
  Session.isAnimating startedSession = false ∧
  (Session.currentPuyo startedSession = None ∨
   ∃ puyo, Session.currentPuyo startedSession = Some puyo ∧
           (pieceInGrid (Session.grid startedSession) puyo ∨
            pieceAtSpawn (Session.grid startedSession) puyo)).
Proof.
  split; [exact startedSession_reachable|].
  split; [reflexivity|]. split; [reflexivity|].
  exact (active_piece_placed 0 startedSession startedSession_reachable
           eq_refl eq_refl).
Defined.

(** ** The flood fill finds the group of its start cell *)

Lemma findConnectedPuyos_guard_true grid x y color visited :
  (x <? 0) || (GRID_COLS <=? x) || (y <? 0) || (GRID_ROWS <=? y) ||
  bool_decide (cellAt grid x y ≠ color) || has visited (x, y) = true →
  holdsColor grid color (x, y) → (x, y) ∈ visited.
Proof.
  intros Hguard [Hin Hcol]. simpl in *.
  destruct (decide ((x, y) ∈ visited)) as [|Hnot]; [done|].
  exfalso. apply not_false_iff_true in Hguard. apply Hguard.
  by apply findConnectedPuyos_guard.
Qed.

(** Whatever holds of the set before, holds of the start cell when it is
    of the colour, and passes to neighbours of the colour, holds of the
    set after. *)
Lemma findConnectedPuyos_preserves (P : Z * Z → Prop) grid color depth :
  (∀ p q, P p → adjacent p q → holdsColor grid color q → P q) →
  ∀ x y visited visited',
    findConnectedPuyos depth grid x y color visited = Some visited' →
    (∀ p, p ∈ visited → P p) →
    (holdsColor grid color (x, y) → P (x, y)) →
    ∀ p, p ∈ visited' → P p.
Proof.
  intros Hstep.
  induction depth as [|depth IH]; intros x y visited visited'; [done|].
  simpl.
  match goal with |- context [if ?b then _ else _] => destruct b eqn:Hguard end.
  { intros [= <-] Hall _. done. }
  apply findConnectedPuyos_guard in Hguard as (Hin & Hcol & Hnew).
  intros Hfind Hall Hxy.
  assert (Hhere : P (x, y)) by (by apply Hxy).
  assert (Hall0 : ∀ p, p ∈ add visited (x, y) → P p).
  { intros p [Hp| ->]%elem_of_add; auto. }
  assert (Hnb : ∀ q, adjacent (x, y) q → holdsColor grid color q → P q)
    by (intros q; by apply Hstep).
  destruct (findConnectedPuyos depth grid (x + 1) y color _) as [v1|] eqn:E1;
    [|done]. simpl in Hfind.
  destruct (findConnectedPuyos depth grid (x - 1) y color _) as [v2|] eqn:E2;
    [|done]. simpl in Hfind.
  destruct (findConnectedPuyos depth grid x (y + 1) color _) as [v3|] eqn:E3;
    [|done]. simpl in Hfind.
  pose proof (IH _ _ _ _ E1 Hall0) as Hall1.
  pose proof (IH _ _ _ _ E2 (Hall1 ltac:(intros; apply Hnb; [left|]; done)))
    as Hall2.
  pose proof (IH _ _ _ _ E3
    (Hall2 ltac:(intros; apply Hnb; [right; left|]; done))) as Hall3.
  apply (IH _ _ _ _ Hfind).
  - apply Hall3. intros. apply Hnb; [right; right; left|]; done.
  - intros. apply Hnb; [right; right; right|]; done.
Qed.

(** The set after holds the start cell when it is of the colour, and is
    closed under neighbours wherever the set before was. *)
Lemma findConnectedPuyos_closed grid color depth :
  ∀ x y visited visited' pending,
    findConnectedPuyos depth grid x y color visited = Some visited' →
    closedExcept grid color visited pending →
    closedExcept grid color visited' pending ∧
    (holdsColor grid color (x, y) → (x, y) ∈ visited') ∧
    visited ⊆ visited'.
Proof.
  induction depth as [|depth IH]; intros x y visited visited' pending;
    [done|].
  simpl.
  match goal with |- context [if ?b then _ else _] => destruct b eqn:Hguard end.
  { intros [= <-] Hclosed. split; [done|]. split; [|done].
    by apply findConnectedPuyos_guard_true. }
  apply findConnectedPuyos_guard in Hguard as (Hin & Hcol & Hnew).
  intros Hfind Hclosed.
  set (pending' := λ p, pending p ∨ p = (x, y)).
  assert (Hclosed0 : closedExcept grid color (add visited (x, y)) pending').
  { intros p q [Hp| ->]%elem_of_add Hpend Hadj Hq.
    - apply elem_of_add. left. apply (Hclosed p q); auto.
      intros ?. apply Hpend. by left.
    - exfalso. apply Hpend. by right. }
  destruct (findConnectedPuyos depth grid (x + 1) y color _) as [v1|] eqn:E1;
    [|done]. simpl in Hfind.
  destruct (findConnectedPuyos depth grid (x - 1) y color _) as [v2|] eqn:E2;
    [|done]. simpl in Hfind.
  destruct (findConnectedPuyos depth grid x (y + 1) color _) as [v3|] eqn:E3;
    [|done]. simpl in Hfind.
  destruct (IH _ _ _ _ _ E1 Hclosed0) as (Hc1 & Hn1 & Hs1).
  destruct (IH _ _ _ _ _ E2 Hc1) as (Hc2 & Hn2 & Hs2).
  destruct (IH _ _ _ _ _ E3 Hc2) as (Hc3 & Hn3 & Hs3).
  destruct (IH _ _ _ _ _ Hfind Hc3) as (Hc4 & Hn4 & Hs4).
  assert (Hhere : (x, y) ∈ visited').
  { apply Hs4, Hs3, Hs2, Hs1, elem_of_add. by right. }
  split_and!; [|done|].
  - intros p q Hp Hpend Hadj Hq.
    destruct (decide (p = (x, y))) as [->|Hne].
    + destruct Hadj as [->| [->| [->| ->]]]; simpl in *.
      * by apply Hs4, Hs3, Hs2, Hn1.
      * by apply Hs4, Hs3, Hn2.
      * by apply Hs4, Hn3.
      * by apply Hn4.
    + apply (Hc4 p q); auto. by intros [?|?].
  - intros p Hp. by apply Hs4, Hs3, Hs2, Hs1, add_subseteq.
Qed.

Lemma connected_holdsColor grid color start p :
  connected grid color start p → holdsColor grid color p.
Proof. by destruct 1. Qed.

Lemma connected_holdsColor_start grid color start p :
  connected grid color start p → holdsColor grid color start.
Proof. induction 1; done. Qed.

Lemma connected_trans grid color a b c :
  connected grid color a b → connected grid color b c →
  connected grid color a c.
Proof.
  intros Hab Hbc. induction Hbc as [|p q Hbp IH Hadj Hq]; [done|].
  by eapply connected_step.
Qed.

Lemma adjacent_sym p q : adjacent p q → adjacent q p.
Proof.
  destruct p as [x y]. unfold adjacent. simpl.
  intros [->| [->| [->| ->]]]; simpl.
  - right; left. f_equal; lia.
  - left. f_equal; lia.
  - right; right; right. f_equal; lia.
  - right; right; left. f_equal; lia.
Qed.

Lemma connected_sym grid color a b :
  connected grid color a b → connected grid color b a.
Proof.
  induction 1 as [|p q Hap IH Hadj Hq]; [by constructor|].
  apply (connected_trans _ _ q p a); [|done].
  apply (connected_step _ _ _ q); [by constructor|by apply adjacent_sym|].
  by eapply connected_holdsColor.
Qed.

(** From an empty set, the fill of a cell of the grid returns the cells
    connected to it, each once. *)
Lemma findConnectedPuyos_group grid x y :
  inBounds x y = true →
  ∃ matches,
    findConnectedPuyos MAX_DEPTH grid x y (cellAt grid x y) [] = Some matches
    ∧ NoDup matches ∧
    ∀ p, p ∈ matches ↔ connected grid (cellAt grid x y) (x, y) p.
Proof.
  intros Hin.
  destruct (findConnectedPuyos_start grid x y Hin) as (m & Hm & [Hnd _] & _).
  exists m. split; [done|]. split; [done|].
  assert (Hstart : holdsColor grid (cellAt grid x y) (x, y)) by done.
  intros p. split.
  - revert p.
    apply (findConnectedPuyos_preserves _ grid (cellAt grid x y) MAX_DEPTH
             (λ p q Hp Hadj Hq, connected_step _ _ _ p q Hp Hadj Hq)
             x y [] m Hm).
    + intros p Hp. by apply elem_of_nil in Hp.
    + intros _. by constructor.
  - destruct (findConnectedPuyos_closed grid (cellAt grid x y) MAX_DEPTH
                x y [] m (λ _, False) Hm) as (Hclosed & Hhere & _).
    { intros p0 q0 Hp0. by apply elem_of_nil in Hp0. }
    intros Hconn. induction Hconn as [|p' q Hp IH Hadj Hq];
      [by apply Hhere|].
    apply (Hclosed p' q); auto.
Qed.

(** ** The scan marks the groups of four *)

Lemma inGroupOfFour_matches grid x y matches :
  inBounds x y = true → cellAt grid x y ≠ None →
  NoDup matches →
  (∀ p, p ∈ matches ↔ connected grid (cellAt grid x y) (x, y) p) →
  (4 ≤ length matches)%nat ↔ inGroupOfFour grid (x, y).
Proof.
  intros Hin Hocc Hnd Hm. split.
  - intros Hfour. split; [done|]. split; [done|].
    exists matches. split; [done|]. split; [done|].
    intros q Hq. by apply Hm.
  - intros (_ & _ & members & Hndm & Hfour & Hall).
    etrans; [exact Hfour|]. apply submseteq_length.
    apply NoDup_submseteq; [done|]. intros q Hq. apply Hm. by apply Hall.
Qed.

(** The group of a cell is the group of every cell connected to it. *)
Lemma inGroupOfFour_connected grid p q :
  inGroupOfFour grid p → connected grid (cellAt grid p.1 p.2) p q →
  inGroupOfFour grid q.
Proof.
  intros (Hin & Hocc & members & Hnd & Hfour & Hall) Hpq.
  destruct (connected_holdsColor _ _ _ _ Hpq) as [Hinq Hcol].
  split; [done|]. split; [by rewrite Hcol|].
  exists members. split; [done|]. split; [done|].
  intros m Hm. rewrite Hcol.
  apply (connected_trans _ _ q p m); [by apply connected_sym|by apply Hall].
Qed.

Lemma inGroupOfFour_self grid p :
  inGroupOfFour grid p → connected grid (cellAt grid p.1 p.2) p p.
Proof. intros (Hin & _). by constructor. Qed.

(** One step of the scan: the cells connected to [p] are added when [p]
    is in a group of four, nothing changes otherwise. *)
Lemma scanCell_group grid st p :
  p ∈ allCells →
  ∃ st', scanCell grid st p = Some st' ∧
    (∀ k, k ∈ st'.2 ↔
       k ∈ st.2 ∨ (inGroupOfFour grid p ∧
                   connected grid (cellAt grid p.1 p.2) p k)) ∧
    (st'.1 = true ↔ st.1 = true ∨ inGroupOfFour grid p).
Proof.
  intros Hp%elem_of_allCells. destruct p as [x y]. simpl in Hp.
  unfold scanCell.
  destruct (findConnectedPuyos_group grid x y Hp) as (m & Hm & Hnd & Hconn).
  destruct (cellAt grid x y) as [c|] eqn:Hc; cbn [truthy].
  - rewrite Hm. cbn [mbind option_bind].
    pose proof (inGroupOfFour_matches grid x y m Hp) as Hfour.
    rewrite Hc in Hfour. specialize (Hfour ltac:(done) Hnd Hconn).
    case_decide as Hlen.
    + eexists. split; [done|]. simpl. rewrite Hc.
      pose proof (proj1 Hfour Hlen) as Hgroup. split.
      * intros k. rewrite elem_of_foldl_add, Hconn. tauto.
      * tauto.
    + exists st. split; [done|]. simpl. rewrite Hc. tauto.
  - exists st. split; [done|]. unfold inGroupOfFour. simpl. rewrite Hc.
    split; [intros k|]; (split; [by left|]); intros [?|Hg]; try done;
      by destruct Hg as [(_ & ? & _) _] || by destruct Hg as (_ & ? & _).
Qed.

Lemma scan_groups grid (cells : list (Z * Z)) : ∀ st,
  (∀ p, p ∈ cells → p ∈ allCells) →
  ∃ st', forEachM (scanCell grid) st cells = Some st' ∧
    (∀ k, k ∈ st'.2 ↔
       k ∈ st.2 ∨ ∃ p, p ∈ cells ∧ inGroupOfFour grid p ∧
                       connected grid (cellAt grid p.1 p.2) p k) ∧
    (st'.1 = true ↔ st.1 = true ∨ ∃ p, p ∈ cells ∧ inGroupOfFour grid p).
Proof.
  induction cells as [|p cells IH]; intros st Hcells; simpl.
  { exists st. split; [done|]. split.
    - intros k. split; [by left|]. intros [?|(p & Hp & _)]; [done|].
      by apply elem_of_nil in Hp.
    - split; [by left|]. intros [?|(p & Hp & _)]; [done|].
      by apply elem_of_nil in Hp. }
  destruct (scanCell_group grid st p) as (st1 & -> & Hk1 & Hb1);
    [apply Hcells; left|]. simpl.
  destruct (IH st1) as (st' & -> & Hk & Hb).
  { intros q Hq. apply Hcells. by right. }
  exists st'. split; [done|]. split.
  - intros k. rewrite Hk, Hk1. split.
    + intros [[?|[? ?]]|(q & Hq & ? & ?)]; [by left|right..].
      * exists p. split; [left|done].
      * exists q. split; [by right|done].
    + intros [?|(q & [->|Hq]%elem_of_cons & ? & ?)].
      * by left; left.
      * by left; right.
      * right. by exists q.
  - rewrite Hb, Hb1. split.
    + intros [[?|?]|(q & Hq & ?)]; [by left|right..].
      * exists p. split; [left|done].
      * exists q. split; [by right|done].
    + intros [?|(q & [->|Hq]%elem_of_cons & ?)].
      * by left; left.
      * by left; right.
      * right. by exists q.
Qed.

Lemma scanMatches_inGroupOfFour grid :
  ∃ hasMatches matchedPuyos,
    scanMatches grid = Some (hasMatches, matchedPuyos) ∧
    NoDup matchedPuyos ∧
    (∀ p, p ∈ matchedPuyos ↔ inGroupOfFour grid p) ∧
    (hasMatches = true ↔ ∃ p, inGroupOfFour grid p).
Proof.
  destruct (scan_groups grid allCells (false, [])) as ([b m] & Hscan & Hk & Hb);
    [done|].
  destruct (scanMatches_scanInv grid) as (st & Hscan' & Hnd & _).
  unfold scanMatches in *. rewrite Hscan in Hscan'. injection Hscan' as <-.
  exists b, m. split; [done|]. split; [done|]. cbn [fst snd] in Hk, Hb.
  split.
  - intros p. rewrite Hk. split.
    + intros [Hp|(q & _ & Hq & Hqp)]; [by apply elem_of_nil in Hp|].
      by eapply inGroupOfFour_connected.
    + intros Hp. right. exists p. split_and!; [|done|].
      * apply elem_of_allCells. by destruct Hp.
      * by apply inGroupOfFour_self.
  - rewrite Hb. split.
    + intros [?|(p & _ & Hp)]; [done|]. by exists p.
    + intros [p Hp]. right. exists p. split; [|done].
      apply elem_of_allCells. by destruct Hp.
Qed.

Lemma cellAt_clearMatched (matchedPuyos : KeySet) : ∀ grid x y,
  wfGrid grid →
  (∀ key, key ∈ matchedPuyos → inBounds key.1 key.2 = true) →
  cellAt (clearMatched matchedPuyos grid) x y =
    if decide ((x, y) ∈ matchedPuyos) then None else cellAt grid x y.
Proof.
  induction matchedPuyos as [|k m IH]; intros grid x y Hwf Hin.
  { by rewrite decide_False by apply not_elem_of_nil. }
  unfold clearMatched in *. simpl.
  rewrite IH; [|by apply wfGrid_setCell|intros; apply Hin; by right].
  destruct (decide ((x, y) ∈ m)) as [Hm|Hm].
  { by rewrite decide_True by (by right). }
  destruct (decide ((x, y) = k)) as [<-|Hne].
  - rewrite decide_True by left. simpl.
    apply cellAt_setCell_eq; [done|]. apply (Hin (x, y)). left.
  - rewrite decide_False by (intros [?|?]%elem_of_cons; done).
    apply cellAt_setCell_ne. destruct k. simpl. congruence.
Qed.

(** ** What the flood fill, the scan and the resolver compute *)

(** From an empty set, [findConnectedPuyos] on a cell of a well-formed
    grid returns exactly the cells connected to it through neighbours (left, right,
    below, above) of the colour of the cell, each of them once, so at most
    [GRID_ROWS * GRID_COLS] keys. *)
Theorem findConnectedPuyos_connected (grid : Grid) (x y : Z) :
  wfGrid grid → inBounds x y = true →
  ∃ matches,
    findConnectedPuyos MAX_DEPTH grid x y (cellAt grid x y) [] = Some matches
    ∧ NoDup matches
    ∧ Z.of_nat (length matches) ≤ GRID_ROWS * GRID_COLS
    ∧ ∀ p, p ∈ matches ↔ connected grid (cellAt grid x y) (x, y) p.
Proof.
  intros _ Hin.
  destruct (findConnectedPuyos_group grid x y Hin) as (m & Hm & Hnd & Hconn).
  exists m. split_and!; [done|done| |done].
  assert (Hle : (length m ≤ length allCells)%nat).
  { apply submseteq_length, NoDup_submseteq; [done|]. intros p Hp.
    apply elem_of_allCells. apply Hconn in Hp.
    by destruct (connected_holdsColor _ _ _ _ Hp). }
  rewrite length_allCells in Hle. unfold GRID_ROWS, GRID_COLS in *. lia.
Qed.

(** The scan of [checkAndUpdateChain] on a well-formed grid returns;
    [matchedPuyos] holds, each
    once, exactly the cells that belong to a group of four or more
    connected puyos of one colour, and [hasMatches] says whether there is
    such a cell. *)
Theorem scanMatches_marks_groups (grid : Grid) :
  wfGrid grid →
  ∃ hasMatches matchedPuyos,
    scanMatches grid = Some (hasMatches, matchedPuyos) ∧
    NoDup matchedPuyos ∧
    (∀ p, p ∈ matchedPuyos ↔ inGroupOfFour grid p) ∧
    (hasMatches = true ↔ ∃ p, inGroupOfFour grid p).
Proof. intros _. apply scanMatches_inGroupOfFour. Qed.



(** ** Gravity on a settled grid *)

Lemma settled_tail (a : PuyoColor) col : settled (a :: col) → settled col.
Proof.
  intros Hs i j c Hij Hi Hj.
  destruct (Hs (S i) (S j) c) as [c' Hc']; [lia|done|simpl; lia|].
  by exists c'.
Qed.

Lemma settled_below_colour c col :
  settled (Some c :: col) → Some <$> colours col = col.
Proof.
  intros Hs.
  assert (Hall : ∀ j, (j < length col)%nat → ∃ c', col !! j = Some (Some c')).
  { intros j Hj. destruct (Hs 0%nat (S j) c) as [c' Hc'];
      [lia|done|simpl; lia|]. by exists c'. }
  clear Hs. induction col as [|a col IH]; [done|].
  destruct (Hall 0%nat) as [c' Hc']; [simpl; lia|].
  injection Hc' as ->. unfold colours in *. simpl. f_equal.
  apply IH. intros j Hj. apply (Hall (S j)). simpl. lia.
Qed.

Lemma settle_settled col : settled col → settle col = col.
Proof.
  induction col as [|[c|] col IH]; intros Hs; [done| |].
  - pose proof (settled_below_colour c col Hs) as Hcol.
    unfold settle. change (colours (Some c :: col)) with (c :: colours col).
    pose proof (f_equal length Hcol) as Hlen. rewrite length_fmap in Hlen.
    simpl. rewrite Hlen, Nat.sub_diag. simpl. f_equal. exact Hcol.
  - specialize (IH (settled_tail _ _ Hs)). unfold settle in *.
    change (colours (None :: col)) with (colours col).
    pose proof (length_colours col).
    replace (length (None :: col) - length (colours col))%nat
      with (S (length col - length (colours col))) by (simpl; lia).
    simpl. by rewrite IH.
Qed.

(** [applyGravity] changes nothing in a grid whose columns are settled. *)
Theorem applyGravity_settled (grid : Grid) :
  wfGrid grid → allSettled grid → applyGravity grid = grid.
Proof.
  intros Hwf Hset. apply column_ext; [by apply wfGrid_applyGravity|done|].
  intros x Hx. rewrite applyGravity_column by done.
  apply settle_settled. by apply Hset.
Qed.

(** ** Rotation *)

(** For a piece with an orientation among 0, 1, 2, 3: a rotation gives
    such an orientation again; a rotation to the left undoes one to the
    right and the other way round; four rotations to the right give the
    piece back; the second cell is a neighbour of the anchor, and two
    different orientations give two different second cells. *)
Theorem rotation_cycle (puyo : PuyoPair.t) :
  0 ≤ PuyoPair.rotation puyo ≤ 3 →
  (∀ turn, 0 ≤ PuyoPair.rotation (rotatedBy turn puyo) ≤ 3) ∧
  rotatedBy Turn.left (rotatedBy Turn.right puyo) = puyo ∧
  rotatedBy Turn.right (rotatedBy Turn.left puyo) = puyo ∧
  rotatedBy Turn.right (rotatedBy Turn.right
    (rotatedBy Turn.right (rotatedBy Turn.right puyo))) = puyo ∧
  adjacent (PuyoPair.x puyo, PuyoPair.y puyo)
    (getSecondPuyoPosition (PuyoPair.x puyo) (PuyoPair.y puyo)
       (PuyoPair.rotation puyo)) ∧
  (∀ rotation', 0 ≤ rotation' ≤ 3 →
     getSecondPuyoPosition (PuyoPair.x puyo) (PuyoPair.y puyo) rotation' =
     getSecondPuyoPosition (PuyoPair.x puyo) (PuyoPair.y puyo)
       (PuyoPair.rotation puyo) →
     rotation' = PuyoPair.rotation puyo).
Proof.
  destruct puyo as [c1 c2 x y r]. simpl. intros Hr.
  assert (Hcases : r = 0 ∨ r = 1 ∨ r = 2 ∨ r = 3) by lia.
  split_and!.
  - intros turn. unfold rotatedBy. simpl.
    destruct turn.
    + pose proof (Z.rem_bound_pos (r + -1 + 4) 4). lia.
    + pose proof (Z.rem_bound_pos (r + 1 + 4) 4). lia.
  - unfold rotatedBy. simpl.
    destruct Hcases as [->|[->|[->| ->]]]; reflexivity.
  - unfold rotatedBy. simpl.
    destruct Hcases as [->|[->|[->| ->]]]; reflexivity.
  - unfold rotatedBy. simpl.
    destruct Hcases as [->|[->|[->| ->]]]; reflexivity.
  - unfold adjacent. simpl.
    destruct Hcases as [->|[->|[->| ->]]]; simpl; auto.
  - intros r' Hr'.
    assert (Hcases' : r' = 0 ∨ r' = 1 ∨ r' = 2 ∨ r' = 3) by lia.
    destruct Hcases as [->|[->|[->| ->]]],
             Hcases' as [->|[->|[->| ->]]]; simpl; intros [=]; lia.
Qed.

(** ** Hold, pause and the gates of the commands *)

(** A hold after a hold does nothing, whatever the first one did; and a
    hold never touches the grid, the score, the phase, the pause flag or
    the resolvers. *)
Theorem holdPuyo_once (fresh fresh' : Color * Color) (s : Session.t) :
  holdPuyo fresh' (holdPuyo fresh s) = holdPuyo fresh s ∧
  Session.grid (holdPuyo fresh s) = Session.grid s ∧
  Session.score (holdPuyo fresh s) = Session.score s ∧
  Session.gameState (holdPuyo fresh s) = Session.gameState s ∧
  Session.isPaused (holdPuyo fresh s) = Session.isPaused s ∧
  Session.isAnimating (holdPuyo fresh s) = Session.isAnimating s ∧
  Session.resolvers (holdPuyo fresh s) = Session.resolvers s.
Proof.
  unfold holdPuyo at 2 3 4 5 6 7 8 9.
  destruct (Session.currentPuyo s) as [puyo|] eqn:Hcur.
  2: { unfold holdPuyo. by rewrite Hcur. }
  destruct (negb _ || _ || _) eqn:Hgate.
  { unfold holdPuyo. by rewrite Hcur, Hgate. }
  split; [|by destruct (Session.heldPuyo s)].
  unfold holdPuyo.
  destruct (Session.heldPuyo s) as [held|]; simpl.
  - done.
  - by destruct (head (Session.nextPuyos s)).
Qed.

(** While the game is paused, or in a phase other than [active], a key
    bound to an action does nothing, Escape does nothing but flip the pause
    flag, and neither the fall timer nor the speed timer is set. *)
Theorem commands_gated (action : option ControlAction.t)
    (fresh : Color * Color) (s : Session.t) :
  Session.isPaused s = true ∨ Session.gameState s ≠ active →
  handleKeyPress false action fresh s = Ok s ∧
  handleKeyPress true action fresh s = Ok (togglePause s) ∧
  dispatch (EvFall fresh) s = None ∧
  dispatch EvSpeed s = None.
Proof.
  intros Hgate.
  assert (Hmove : ∀ d, movePuyo d fresh s = Ok s).
  { intros d. unfold movePuyo. destruct (Session.currentPuyo s); [|done].
    destruct Hgate as [->| Hne]; [by rewrite orb_true_r|].
    by rewrite bool_decide_eq_true_2. }
  assert (Hrot : ∀ t, rotatePuyo t s = s).
  { intros t. unfold rotatePuyo. destruct (Session.currentPuyo s); [|done].
    destruct Hgate as [->| Hne]; [by rewrite orb_true_r|].
    by rewrite bool_decide_eq_true_2. }
  assert (Hhold : holdPuyo fresh s = s).
  { unfold holdPuyo. destruct (Session.currentPuyo s); [|done].
    destruct Hgate as [->| Hne]; [by rewrite orb_true_r|].
    by rewrite bool_decide_eq_true_2, orb_true_r. }
  split_and!.
  - unfold handleKeyPress. destruct (Session.isPaused s); [done|].
    destruct action as [[]|]; simpl; by rewrite ?Hmove, ?Hrot, ?Hhold.
  - unfold handleKeyPress. destruct (Session.isPaused s); [done|].
    destruct action as [[]|]; simpl; by rewrite ?Hmove, ?Hrot, ?Hhold.
  - simpl. destruct Hgate as [->| Hne]; [by rewrite andb_false_r|].
    by rewrite bool_decide_eq_false_2.
  - simpl. destruct Hgate as [->| Hne]; [by rewrite andb_false_r|].
    by rewrite bool_decide_eq_false_2.
Qed.

(** Validate, then commit: a move to the side or a rotation leaves the
    session as it is, or changes the active piece alone, to a position
    [isValidMove] has accepted on the grid of the session; it never locks
    the piece. *)
Theorem side_moves_commit_valid (fresh : Color * Color) (s : Session.t) :
  wfGrid (Session.grid s) →
  ∀ s',
    (movePuyo Direction.left fresh s = Ok s' ∨
     movePuyo Direction.right fresh s = Ok s' ∨
     s' = rotatePuyo Turn.left s ∨ s' = rotatePuyo Turn.right s) →
    s' = s ∨
    ∃ puyo, isValidMove (Session.grid s) puyo = true ∧
            s' = Session.setCurrentPuyo (Some puyo) s.
Proof.
  intros _ s'. unfold movePuyo, rotatePuyo.
  destruct (Session.currentPuyo s) as [puyo|].
  2: { intros [[= <-]|[[= <-]|[->| ->]]]; by left. }
  destruct (bool_decide _ || _).
  { intros [[= <-]|[[= <-]|[->| ->]]]; by left. }
  intros [H|[H|[->| ->]]].
  - destruct (isValidMove _ _) eqn:Hv; injection H as <-; [right|by left].
    by eexists.
  - destruct (isValidMove _ _) eqn:Hv; injection H as <-; [right|by left].
    by eexists.
  - destruct (isValidMove _ _) eqn:Hv; [right|by left]. by eexists.
  - destruct (isValidMove _ _) eqn:Hv; [right|by left]. by eexists.
Qed.

(** ** The invariant of all runs *)

Lemma chainPoints_nonneg (puyosCleared : nat) count :
  1 ≤ count → 0 ≤ chainPoints (Z.of_nat puyosCleared) count.
Proof.
  intros Hcount. unfold chainPoints.
  assert (0 < 2 ^ (count - 1)) by (apply Z.pow_pos_nonneg; lia).
  nia.
Qed.

(** Closes the routine parts of [runInv]. *)
Ltac close_runInv Hhigh :=
  first
    [ done
    | apply wfGrid_createEmptyGrid
    | by apply wfGrid_applyGravity
    | by apply wfGrid_clearMatched
    | by apply wfGrid_setCell
    | by apply wfGrid_applyGravity, wfGrid_setCell
    | (right; unfold queueFilled in *; simpl; destruct_and?; by split_and!)
    | (apply Forall_app; split; [done|]; apply Forall_singleton; simpl; lia)
    | by apply spawnPlaced_queue
    | lia
    | (let H0 := fresh in intros H0; specialize (Hhigh H0); lia) ].

Lemma rowsInv_same s s' :
  Session.detached s' = Session.detached s →
  Session.resolvers s' = Session.resolvers s →
  rowsInv s → rowsInv s'.
Proof. intros Hd Hr. unfold rowsInv. by rewrite Hd, Hr. Qed.

Lemma rowsInv_queued s s' r :
  resolverGrid r = None →
  Session.detached s' = Session.detached s →
  Session.resolvers s' = Session.resolvers s ++ [r] →
  rowsInv s → rowsInv s'.
Proof.
  intros Hr Hd Hq [Hwf Hrows]. unfold rowsInv. rewrite Hd, Hq.
  split; [done|].
  apply Forall_app. split; [done|]. apply Forall_singleton.
  intros i Hi. congruence.
Qed.

Lemma runInv_initialSession stored : runInv stored (initialSession stored).
Proof.
  split_and!; simpl; try done;
    try apply wfGrid_createEmptyGrid; try (by left); lia.
Qed.

Lemma runInv_syncHighScore stored s :
  runInv stored s → runInv stored (syncHighScore s).
Proof.
  intros (Hwf & Hq & Hfill & Hscore & Hres & Hhigh & Hrows).
  unfold syncHighScore. case_decide; [|done].
  split_and!; simpl; close_runInv Hhigh.
Qed.

(** [startGame] leaves the rows of the game before to the resolvers that
    sleep on them. *)
Lemma runInv_setFreshGrid stored s :
  runInv stored s → Session.gameState s ≠ title →
  runInv stored (setFreshGrid s).
Proof.
  intros (Hwf & Hq & Hfill & Hscore & Hres & Hhigh & Hdet & Hrows) Hnt.
  destruct Hfill as [[? _]|[_ Hfill]]; [done|].
  unfold setFreshGrid. destruct (Session.resolvers s) as [|r rest] eqn:Hrs.
  { split_and!; simpl; rewrite ?Hrs; try close_runInv Hhigh.
    split; simpl; [done|]. by rewrite Hrs. }
  rewrite <- Hrs in Hres, Hrows |- *. clear Hrs r rest.
  split_and!; simpl; try close_runInv Hhigh.
  - apply Forall_fmap. eapply Forall_impl; [exact Hres|]. by intros [].
  - split; simpl.
    + apply Forall_app. split; [done|]. by apply Forall_singleton.
    + apply Forall_fmap. eapply Forall_impl; [exact Hrows|].
      intros r0 Hr0 i. unfold keepRows. simpl. rewrite length_app. simpl.
      destruct (resolverGrid r0) as [j|] eqn:Hj.
      * intros [= <-]. specialize (Hr0 j Hj). lia.
      * intros [= <-]. lia.
Qed.

Lemma runInv_startGame stored r0 r1 r2 r3 s :
  runInv stored s → runInv stored (startGame r0 r1 r2 r3 s).
Proof.
  intros Hinv.
  assert (Hfresh : wfGrid (Session.grid (setFreshGrid s)) ∧
                   rowsInv (setFreshGrid s) ∧
                   Forall (λ r, 1 ≤ resolverChainCount r)
                     (Session.resolvers (setFreshGrid s)) ∧
                   Session.highScore (setFreshGrid s) = Session.highScore s).
  { destruct (decide (Session.gameState s = title)) as [Ht|Hnt].
    - destruct Hinv as (Hwf & Hq & Hfill & Hscore & Hres & Hhigh & Hrows).
      destruct Hfill as [[_ Hnone]|[? _]]; [|done].
      rewrite setFreshGrid_quiet by done. simpl.
      split; [apply wfGrid_createEmptyGrid|]. by rewrite Hnone in *.
    - destruct (runInv_setFreshGrid stored s Hinv Hnt)
        as (Hwf & _ & _ & _ & Hres & _ & Hrows).
      split_and!; try done.
      unfold setFreshGrid. by destruct (Session.resolvers s). }
  destruct Hfresh as (Hwf' & Hrows' & Hres' & Hhigh').
  destruct Hinv as (Hwf & Hq & Hfill & Hscore & Hres & Hhigh & Hrows).
  unfold startGame, syncHighScore. simpl. rewrite Hhigh'.
  case_decide; split_and!; simpl; try close_runInv Hhigh;
    by repeat constructor.
Qed.

Lemma runInv_resolverPass stored count s s' :
  0 ≤ count → runInv stored s → Session.gameState s ≠ title →
  resolverPass count s = Some s' → runInv stored s'.
Proof.
  intros Hcount (Hwf & Hq & Hfill & Hscore & Hres & Hhigh & Hrows) Hnt.
  destruct Hfill as [[Ht _]|[_ Hfill]]; [done|].
  unfold resolverPass.
  destruct (scanMatches (Session.grid s)) as [[hasMatches m]|]; [|done].
  cbn [mbind option_bind]. destruct hasMatches; intros [= <-].
  - split_and!; simpl; try close_runInv Hhigh.
    eapply (rowsInv_queued s); [| |reflexivity|done]; reflexivity.
  - unfold finishResolver. simpl.
    destruct (rowHasPuyo _ _); split_and!; simpl; close_runInv Hhigh.
Qed.

(** The rows of a resolver and of the grid state change places. *)
Lemma runInv_attachGrid stored rows s :
  runInv stored s → runInv stored (attachGrid rows s).
Proof.
  intros Hinv. destruct rows as [i|]; [|done]. unfold attachGrid.
  destruct (Session.detached s !! i) as [newGrid|] eqn:Hi; [|done].
  destruct Hinv as (Hwf & Hq & Hfill & Hscore & Hres & Hhigh & Hdet & Hrows).
  pose proof (lookup_lt_Some _ _ _ Hi) as Hlt.
  split_and!; simpl; try close_runInv Hhigh.
  - by apply (Forall_lookup_1 _ _ _ _ Hdet Hi).
  - destruct Hfill as [[Ht Hnone]|Hfill]; [left|by right].
    split; [done|]. by rewrite Hnone.
  - apply Forall_fmap. eapply Forall_impl; [exact Hres|]. by intros [].
  - split; simpl.
    + by apply Forall_insert.
    + apply Forall_fmap. eapply Forall_impl; [exact Hrows|].
      intros r0 Hr0 j. unfold swapRows. simpl. rewrite length_insert.
      destruct (resolverGrid r0) as [k|] eqn:Hk.
      * case_decide; [done|]. intros [= <-]. by apply (Hr0 k).
      * by intros [= <-].
Qed.

Lemma runInv_resumeResolver stored s s' :
  runInv stored s → resumeResolver s = Some s' → runInv stored s'.
Proof.
  intros Hinv. unfold resumeResolver.
  destruct (Session.resolvers s) as [|r rest] eqn:Hrs; [by intros [= <-]|].
  assert (Hr : 1 ≤ resolverChainCount r).
  { destruct Hinv as (_ & _ & _ & _ & Hres & _).
    rewrite Hrs in Hres. by apply Forall_cons in Hres as [? _]. }
  assert (Hrest : runInv stored (Session.setResolvers rest s)).
  { destruct Hinv as (Hwf & Hq & Hfill & Hscore & Hres & Hhigh & Hdet & Hrows).
    rewrite Hrs in Hres, Hrows, Hfill.
    apply Forall_cons in Hres as [_ Hres].
    apply Forall_cons in Hrows as [_ Hrows].
    destruct Hfill as [[_ ?]|Hfill]; [done|].
    split_and!; simpl; close_runInv Hhigh. }
  pose proof (runInv_attachGrid stored (resolverGrid r) _ Hrest) as Hatt.
  set (s0 := attachGrid (resolverGrid r) (Session.setResolvers rest s)) in *.
  assert (Hnt : Session.gameState s0 ≠ title).
  { destruct Hinv as (_ & _ & Hfill & _). rewrite Hrs in Hfill.
    destruct Hfill as [[_ ?]|[Hnt _]]; [done|].
    unfold s0, attachGrid. destruct (resolverGrid r) as [i|]; [|done].
    by destruct (Session.detached _ !! i). }
  clearbody s0.
  destruct Hatt as (Hwf & Hq & Hfill & Hscore & Hres & Hhigh & Hrows).
  destruct Hfill as [[? _]|[_ Hfill]]; [done|].
  destruct (resolverAwait r) as [puyosCleared|].
  - intros [= <-].
    pose proof (chainPoints_nonneg puyosCleared _ Hr) as Hpoints.
    unfold syncHighScore. simpl.
    case_decide; split_and!; simpl; try close_runInv Hhigh;
      (eapply (rowsInv_queued s0); [| |reflexivity|done]; reflexivity).
  - apply runInv_resolverPass; [lia| |done].
    split_and!; simpl; close_runInv Hhigh.
Qed.

Lemma runInv_placePuyo stored fresh s o s' :
  runInv stored s → Session.gameState s ≠ title →
  placePuyo fresh s = o → after o = Some s' → runInv stored s'.
Proof.
  intros Hinv Hnt. pose proof Hinv as
    (Hwf & Hq & Hfill & Hscore & Hres & Hhigh & Hrows).
  destruct Hfill as [[? _]|[_ [Hlen Hcur]]]; [done|].
  assert (Hthrow : ∀ g1, wfGrid g1 → runInv stored (Session.setGrid g1 s)).
  { intros g1 Hwf1. split_and!; simpl; close_runInv Hhigh. }
  unfold placePuyo. destruct (Session.currentPuyo s) as [puyo|];
    [|by intros <- [= <-]].
  destruct (getSecondPuyoPosition _ _ _) as [x2 y2].
  unfold writeCell at 1.
  case_decide; [|by intros <- [= <-]].
  destruct (Session.grid s !! _) as [row|]; [|by intros <- [= <-]].
  case_decide; [|by intros <-].
  set (g1 := setCell (Session.grid s) _ _ _).
  assert (Hwf1 : wfGrid g1) by (by apply wfGrid_setCell).
  specialize (Hthrow g1 Hwf1).
  unfold writeCell.
  case_decide; [|by intros <- [= <-]].
  destruct (g1 !! _) as [row2|]; [|by intros <- [= <-]].
  case_decide; [|by intros <-].
  unfold applyGravityAndCheck.
  match goal with |- context [resolverPass 0 ?s0] =>
    destruct (resolverPass 0 s0) as [s1|] eqn:Hpass end; [|by intros <-].
  intros <- [= <-].
  apply (runInv_resolverPass stored 0 _ _ ltac:(lia)) in Hpass; [done| |done].
  split_and!; simpl; try close_runInv Hhigh.
  right. split; [done|]. unfold queueFilled. simpl.
  by destruct (Session.nextPuyos s) as [|p0 [|p1 [|p2 [|]]]].
Qed.

Lemma runInv_movePuyo stored direction fresh s o s' :
  runInv stored s →
  movePuyo direction fresh s = o → after o = Some s' → runInv stored s'.
Proof.
  intros Hinv. pose proof Hinv as
    (Hwf & Hq & Hfill & Hscore & Hres & Hhigh & Hrows).
  unfold movePuyo. destruct (Session.currentPuyo s) as [puyo|] eqn:Hcur;
    [|by intros <- [= <-]].
  destruct (bool_decide _ || _) eqn:Hgate; [by intros <- [= <-]|].
  apply orb_false_iff in Hgate as [Hact _].
  apply bool_decide_eq_false in Hact. apply dec_stable in Hact.
  assert (Hnt : Session.gameState s ≠ title) by (by rewrite Hact).
  destruct (isValidMove _ _).
  { intros <- [= <-].
    destruct Hfill as [[? _]|[_ [Hlen _]]]; [done|].
    split_and!; simpl; close_runInv Hhigh. }
  destruct direction; try by intros <- [= <-].
  by apply runInv_placePuyo.
Qed.

Lemma runInv_rotatePuyo stored direction s :
  runInv stored s → runInv stored (rotatePuyo direction s).
Proof.
  intros Hinv. pose proof Hinv as
    (Hwf & Hq & Hfill & Hscore & Hres & Hhigh & Hrows).
  unfold rotatePuyo. destruct (Session.currentPuyo s) as [puyo|]; [|done].
  destruct (bool_decide _ || _) eqn:Hgate; [done|].
  apply orb_false_iff in Hgate as [Hact _].
  apply bool_decide_eq_false in Hact. apply dec_stable in Hact.
  destruct (isValidMove _ _); [|done].
  destruct Hfill as [[? _]|[? [Hlen _]]]; [congruence|].
  split_and!; simpl; close_runInv Hhigh.
Qed.

Lemma runInv_holdPuyo stored fresh s :
  runInv stored s → runInv stored (holdPuyo fresh s).
Proof.
  intros Hinv. pose proof Hinv as
    (Hwf & Hq & Hfill & Hscore & Hres & Hhigh & Hrows).
  unfold holdPuyo. destruct (Session.currentPuyo s) as [puyo|]; [|done].
  destruct (negb _ || _ || _) eqn:Hgate; [done|].
  apply orb_false_iff in Hgate as [[_ Hact]%orb_false_iff _].
  apply bool_decide_eq_false in Hact. apply dec_stable in Hact.
  destruct Hfill as [[? _]|[Hnt [Hlen _]]]; [congruence|].
  destruct (Session.heldPuyo s) as [held|].
  - split_and!; simpl; close_runInv Hhigh.
  - split_and!; simpl; try close_runInv Hhigh.
    right. split; [done|]. unfold queueFilled. simpl.
    by destruct (Session.nextPuyos s) as [|p0 [|p1 [|p2 [|]]]].
Qed.

Lemma runInv_togglePause stored s :
  runInv stored s → runInv stored (togglePause s).
Proof. done. Qed.

Lemma runInv_handleKeyPress stored escape action fresh s o s' :
  runInv stored s →
  handleKeyPress escape action fresh s = o → after o = Some s' →
  runInv stored s'.
Proof.
  intros Hinv. unfold handleKeyPress.
  set (pauseToggle := if escape then togglePause else id).
  assert (Htoggle : ∀ s0, runInv stored s0 → runInv stored (pauseToggle s0)).
  { intros s0 H0. unfold pauseToggle. by destruct escape. }
  destruct (Session.isPaused s); [intros <- [= <-]; by apply Htoggle|].
  destruct action as [action|]; [|intros <- [= <-]; by apply Htoggle].
  assert (Hqueued : ∀ o1,
    (∀ s1, after o1 = Some s1 → runInv stored s1) →
    queued pauseToggle o1 = o → after o = Some s' → runInv stored s').
  { intros o1 H1 <-. destruct o1; simpl; try done;
      intros [= <-]; by apply Htoggle, H1. }
  destruct action; apply Hqueued; intros s1;
    try (simpl; intros [= <-]);
    eauto using runInv_movePuyo, runInv_rotatePuyo, runInv_holdPuyo.
Qed.

Lemma runInv_dispatch stored e s o s' :
  runInv stored s → dispatch e s = Some o → after o = Some s' →
  runInv stored s'.
Proof.
  intros Hinv Hdisp Hafter. destruct e; simpl in Hdisp.
  - destruct (_ || _); [|done]. injection Hdisp as <-.
    cbn [after] in Hafter. injection Hafter as <-.
    by apply runInv_startGame.
  - injection Hdisp as Hdisp. by eapply runInv_handleKeyPress.
  - destruct (_ || _); [|done]. injection Hdisp as <-.
    cbn [after] in Hafter. by injection Hafter as <-.
  - destruct (_ && _); [|done]. injection Hdisp as Hdisp.
    by eapply runInv_movePuyo.
  - destruct (_ && _); [|done]. injection Hdisp as <-.
    cbn [after] in Hafter. injection Hafter as <-.
    destruct Hinv as (Hwf & Hq & Hfill & Hscore & Hres & Hhigh & Hrows).
    split_and!; simpl; done.
  - destruct (Session.resolvers s) eqn:Hres; [done|]. injection Hdisp as <-.
    destruct (resumeResolver s) as [s1|] eqn:Hresume; [|done].
    cbn [after ofOption] in Hafter. injection Hafter as <-.
    by eapply runInv_resumeResolver.
  - destruct (Session.chainResets s); [done|]. injection Hdisp as <-.
    cbn [after] in Hafter. by injection Hafter as <-.
Qed.

Lemma reachable_runInv gated stored s :
  reachable gated stored s → runInv stored s.
Proof.
  induction 1 as [|s e o s' Hreach IH Hgate Hdisp Hafter].
  - apply runInv_initialSession.
  - by eapply runInv_dispatch.
Qed.

(** ** What every run keeps *)

(** In every run, gated or not, the grid keeps its [GRID_ROWS] rows of
    [GRID_COLS] cells and the score is never negative; once a game has been
    started there is an active piece and the queue holds three pieces, all
    on the spawn position. *)
Theorem every_run_keeps_shape (gated : bool) (stored : Z) (s : Session.t) :
  reachable gated stored s →
  wfGrid (Session.grid s) ∧ 0 ≤ Session.score s ∧
  (Session.gameState s ≠ title →
     length (Session.nextPuyos s) = 3%nat ∧
     Forall spawnPlaced (Session.nextPuyos s) ∧
     is_Some (Session.currentPuyo s)).
Proof.
  intros Hreach.
  destruct (reachable_runInv _ _ _ Hreach)
    as (Hwf & Hq & Hfill & Hscore & _).
  split; [done|]. split; [done|]. intros Hnt.
  destruct Hfill as [[? _]|[_ [Hlen Hcur]]]; done.
Qed.

(** With a stored high score that is not negative, in every run the high
    score is at least the score and at least the stored one. *)
Theorem high_score_covers_score (gated : bool) (stored : Z)
    (s : Session.t) :
  0 ≤ stored → reachable gated stored s →
  Session.score s ≤ Session.highScore s ∧ stored ≤ Session.highScore s.
Proof.
  intros Hstored Hreach.
  destruct (reachable_runInv _ _ _ Hreach) as (_ & _ & _ & _ & _ & Hhigh).
  by apply Hhigh.
Qed.

(** In the runs with the gate, whenever the phase is active and no
    resolution is animated, rows 0 and 1 of the grid are empty. *)
Theorem top_rows_empty (stored : Z) (s : Session.t) (x : Z) :
  reachable true stored s →
  Session.gameState s = active → Session.isAnimating s = false →
  0 ≤ x < GRID_COLS →
  cellAt (Session.grid s) x 0 = None ∧ cellAt (Session.grid s) x 1 = None.
Proof.
  intros Hreach Hact Hanim Hx.
  pose proof (reachable_sessionInv _ _ Hreach) as Hinv.
  destruct (sessionInv_quiet s Hinv Hanim) as (_ & _ & Hactive).
  destruct (Hactive Hact) as [Htop _]. by apply Htop.
Qed.

(** [resolverPass_runs] with the cells of the session it reads named. *)
Lemma resolverPass_runs_from fuel (s0 : Session.t) g sc cc cur nxt :
  Session.grid s0 = g → Session.score s0 = sc →
  Session.chainCounter s0 = cc → Session.currentPuyo s0 = cur →
  Session.nextPuyos s0 = nxt →
  wfGrid g → Session.resolvers s0 = [] →
  (occupiedCount g < fuel)%nat →
  ∃ s1 s' final,
    resolverPass 0 s0 = Some s1 ∧ runTimers fuel s1 = Some s' ∧
    chainLoop fuel {| newGrid := g; chainCount := 0;
                      score := sc; chainCounter := cc |} = Some final ∧
    Session.grid s' = newGrid final ∧
    Session.score s' = score final ∧
    Session.chainCounter s' = chainCounter final ∧
    Session.currentPuyo s' = cur ∧
    Session.nextPuyos s' = nxt.
Proof.
  intros <- <- <- <- <- Hwf Hnone Hlt.
  destruct (resolverPass_runs fuel s0 0 Hwf Hnone Hlt)
    as (s1 & s' & final & H1 & H2 & H3 & H4 & H5 & H6 & _ & _ & _ & _ & H7 & H8).
  exists s1, s', final.
  exact (conj H1 (conj H2 (conj H3 (conj H4 (conj H5 (conj H6 (conj H7 H8))))))).
Qed.

(** A lock from a validated position, followed by the timers of its
    resolver with nothing in between, computes what the loop of
    [applyGravityAndCheck] computes on the grid with the two colours
    written: the session ends with the grid, the score and the chain
    counter of the loop, with the head of the queue as the active piece and
    the fresh piece at the end of the queue. *)
Theorem lock_runs_like_loop (s : Session.t) (fresh : Color * Color)
    (puyo : PuyoPair.t) :
  wfGrid (Session.grid s) →
  Session.gameState s = active → Session.isPaused s = false →
  Session.resolvers s = [] →
  Session.currentPuyo s = Some puyo →
  isValidMove (Session.grid s) puyo = true →
  isValidMove (Session.grid s) (movedBy 0 1 puyo) = false →
  let x := PuyoPair.x puyo in
  let y := PuyoPair.y puyo in
  let p2 := getSecondPuyoPosition x y (PuyoPair.rotation puyo) in
  let written :=
    setCell (setCell (Session.grid s) x y (PuyoPair.color1 puyo))
      p2.1 p2.2 (PuyoPair.color2 puyo) in
  ∃ s1 s' final,
    movePuyo Direction.down fresh s = Ok s1 ∧
    runTimers (S (Z.to_nat (GRID_ROWS * GRID_COLS))) s1 = Some s' ∧
    resolveLock (S (Z.to_nat (GRID_ROWS * GRID_COLS))) written
      (Session.score s) (Session.chainCounter s) = Some final ∧
    Session.grid s' = newGrid final ∧
    Session.score s' = score final ∧
    Session.chainCounter s' = chainCounter final ∧
    Session.currentPuyo s' = head (Session.nextPuyos s) ∧
    Session.nextPuyos s' =
      tail (Session.nextPuyos s) ++ [generatePuyoPair fresh].
Proof.
  intros Hwf Hact Hpause Hnone Hcur Hvalid Hblocked x y p2 written.
  apply isValidMove_pieceInGrid in Hvalid as [[Hin1 Hin2] _]; [|done].
  subst written p2 x y. unfold resolveLock.
  remember (S (Z.to_nat (GRID_ROWS * GRID_COLS))) as fuel eqn:Hfuel.
  unfold movePuyo. rewrite Hcur, Hact, Hpause, Hblocked. simpl.
  unfold placePuyo. rewrite Hcur.
  destruct (getSecondPuyoPosition _ _ _) as [x2 y2]. cbn [fst snd] in *.
  rewrite writeCell_inBounds by done.
  rewrite writeCell_inBounds by auto using wfGrid_setCell.
  unfold applyGravityAndCheck.
  match goal with |- context [resolverPass 0 ?s0] =>
    edestruct (resolverPass_runs_from fuel s0)
      as (s1 & s' & final & -> & Hrest);
      [simpl; reflexivity|simpl; reflexivity|simpl; reflexivity|simpl; reflexivity|simpl; reflexivity|..]
  end.
  - apply wfGrid_applyGravity. auto using wfGrid_setCell.
  - done.
  - match goal with |- (occupiedCount ?g < _)%nat =>
      pose proof (occupiedCount_le g) end. lia.
  - exists s1, s', final. split; [reflexivity|]. exact Hrest.
Qed.

(** ** Score and high score along a run *)

Lemma resolverPass_scores count s s' :
  resolverPass count s = Some s' →
  Session.score s' = Session.score s ∧
  Session.highScore s' = Session.highScore s.
Proof.
  unfold resolverPass.
  destruct (scanMatches (Session.grid s)) as [[[] m]|]; simpl; [| |done].
  - by intros [= <-].
  - intros [= <-]. unfold finishResolver. simpl.
    by destruct (rowHasPuyo _ _).
Qed.

Lemma syncHighScore_scores s :
  Session.score (syncHighScore s) = Session.score s ∧
  Session.highScore s ≤ Session.highScore (syncHighScore s).
Proof. unfold syncHighScore. case_decide; simpl; lia. Qed.

(** The change of rows touches the grid, the matrices left and the rows
    the resolvers hold, nothing else. *)
Lemma attachGrid_frame rows s :
  Session.gameState (attachGrid rows s) = Session.gameState s ∧
  Session.score (attachGrid rows s) = Session.score s ∧
  Session.highScore (attachGrid rows s) = Session.highScore s ∧
  Session.chainCounter (attachGrid rows s) = Session.chainCounter s ∧
  Session.currentPuyo (attachGrid rows s) = Session.currentPuyo s ∧
  Session.nextPuyos (attachGrid rows s) = Session.nextPuyos s ∧
  Session.isAnimating (attachGrid rows s) = Session.isAnimating s ∧
  length (Session.resolvers (attachGrid rows s))
    = length (Session.resolvers s).
Proof.
  destruct rows as [i|]; [|done]. unfold attachGrid.
  destruct (Session.detached s !! i); [|done]. simpl.
  by rewrite length_fmap.
Qed.

Lemma resumeResolver_scores s s' :
  resumeResolver s = Some s' →
  Session.highScore s ≤ Session.highScore s' ∧
  (Forall (λ r, 1 ≤ resolverChainCount r) (Session.resolvers s) →
   Session.score s ≤ Session.score s').
Proof.
  unfold resumeResolver.
  destruct (Session.resolvers s) as [|r rest] eqn:Hres.
  - intros [= <-]. split; [lia|]. intros _. lia.
  - destruct (attachGrid_frame (resolverGrid r) (Session.setResolvers rest s))
      as (_ & Hsc0 & Hhigh0 & _).
    set (s0 := attachGrid _ _) in *. simpl in Hsc0, Hhigh0. clearbody s0.
    destruct (resolverAwait r) as [puyosCleared|].
    + intros [= <-]. simpl.
      match goal with |- context [syncHighScore ?s1] =>
        destruct (syncHighScore_scores s1) as [Hsc Hhigh] end.
      simpl in Hsc, Hhigh. split; [lia|].
      intros Hall. apply Forall_cons in Hall as [Hr _].
      rewrite Hsc.
      pose proof (chainPoints_nonneg puyosCleared _ Hr). lia.
    + intros Hpass. apply resolverPass_scores in Hpass as [-> ->].
      split; [lia|]. intros _. lia.
Qed.

Lemma placePuyo_scores fresh s s' :
  after (placePuyo fresh s) = Some s' →
  Session.score s' = Session.score s ∧
  Session.highScore s' = Session.highScore s.
Proof.
  unfold placePuyo. destruct (Session.currentPuyo s) as [puyo|].
  - destruct (getSecondPuyoPosition _ _ _) as [x2 y2].
    destruct (writeCell _ _ _ _) as [g1| |]; [| |done].
    + destruct (writeCell _ _ _ _) as [g2| |]; [| |done].
      * unfold applyGravityAndCheck.
        destruct (resolverPass 0 _) as [s1|] eqn:Hpass; [|done].
        apply resolverPass_scores in Hpass. cbn [after].
        by intros [= <-].
      * cbn [after]. by intros [= <-].
    + cbn [after]. by intros [= <-].
  - cbn [after]. by intros [= <-].
Qed.

Lemma movePuyo_scores direction fresh s s' :
  after (movePuyo direction fresh s) = Some s' →
  Session.score s' = Session.score s ∧
  Session.highScore s' = Session.highScore s.
Proof.
  unfold movePuyo. destruct (Session.currentPuyo s) as [puyo|].
  - destruct (_ || _); [cbn [after]; by intros [= <-]|].
    destruct (isValidMove _ _); [cbn [after]; by intros [= <-]|].
    destruct direction; try (cbn [after]; by intros [= <-]).
    apply placePuyo_scores.
  - cbn [after]. by intros [= <-].
Qed.

Lemma rotatePuyo_scores direction s :
  Session.score (rotatePuyo direction s) = Session.score s ∧
  Session.highScore (rotatePuyo direction s) = Session.highScore s.
Proof.
  unfold rotatePuyo. destruct (Session.currentPuyo s); [|done].
  destruct (_ || _); [done|]. by destruct (isValidMove _ _).
Qed.

Lemma holdPuyo_scores fresh s :
  Session.score (holdPuyo fresh s) = Session.score s ∧
  Session.highScore (holdPuyo fresh s) = Session.highScore s.
Proof.
  unfold holdPuyo. destruct (Session.currentPuyo s); [|done].
  destruct (_ || _); [done|]. by destruct (Session.heldPuyo s).
Qed.

Lemma handleKeyPress_scores escape action fresh s s' :
  after (handleKeyPress escape action fresh s) = Some s' →
  Session.score s' = Session.score s ∧
  Session.highScore s' = Session.highScore s.
Proof.
  unfold handleKeyPress.
  assert (Hflip : ∀ s0,
    Session.score ((if escape then togglePause else id) s0) = Session.score s0
    ∧ Session.highScore ((if escape then togglePause else id) s0)
      = Session.highScore s0) by (intros s0; by destruct escape).
  destruct (Session.isPaused s).
  { cbn [after]. intros [= <-]. apply Hflip. }
  destruct action as [action|].
  2: { cbn [after]. intros [= <-]. apply Hflip. }
  assert (Hqueued : ∀ o,
    (∀ s1, after o = Some s1 →
       Session.score s1 = Session.score s ∧
       Session.highScore s1 = Session.highScore s) →
    after (queued (if escape then togglePause else id) o) = Some s' →
    Session.score s' = Session.score s ∧
    Session.highScore s' = Session.highScore s).
  { intros [s1|s1| |] Ho; cbn [queued after]; try done.
    - intros [= <-]. destruct (Hflip s1) as [-> ->]. by apply Ho.
    - intros [= <-]. destruct (Hflip s1) as [-> ->]. by apply Ho. }
  destruct action; apply Hqueued; intros s1.
  - apply movePuyo_scores.
  - apply movePuyo_scores.
  - apply movePuyo_scores.
  - cbn [after]. intros [= <-]. apply rotatePuyo_scores.
  - cbn [after]. intros [= <-]. apply rotatePuyo_scores.
  - cbn [after]. intros [= <-]. apply holdPuyo_scores.
Qed.

(** No event lowers the high score; no event but a start lowers the score,
    in a run. *)
Theorem scores_never_drop (gated : bool) (stored : Z) (e : Event)
    (s : Session.t) (o : Outcome) (s' : Session.t) :
  reachable gated stored s →
  dispatch e s = Some o → after o = Some s' →
  Session.highScore s ≤ Session.highScore s' ∧
  ((∀ r0 r1 r2 r3, e ≠ EvStart r0 r1 r2 r3) →
   Session.score s ≤ Session.score s').
Proof.
  intros Hreach Hdisp Hafter.
  destruct (reachable_runInv _ _ _ Hreach) as (_ & _ & _ & _ & Hres & _).
  destruct e as [r0 r1 r2 r3|escape action fresh| |fresh| | |];
    cbn [dispatch] in Hdisp.
  - destruct (_ || _); [|done]. injection Hdisp as <-.
    cbn [after] in Hafter. injection Hafter as <-.
    split; [|intros Hne; by destruct (Hne r0 r1 r2 r3)].
    unfold startGame.
    match goal with |- context [syncHighScore ?s0] =>
      destruct (syncHighScore_scores s0) as [_ Hhigh] end.
    simpl in Hhigh.
    replace (Session.highScore (setFreshGrid s)) with (Session.highScore s)
      in Hhigh; [exact Hhigh|].
    unfold setFreshGrid. by destruct (Session.resolvers s).
  - injection Hdisp as <-.
    apply handleKeyPress_scores in Hafter as [-> ->]. split; [lia|]. lia.
  - destruct (_ || _); [|done]. injection Hdisp as <-.
    cbn [after] in Hafter. injection Hafter as <-. simpl. lia.
  - destruct (_ && _); [|done]. injection Hdisp as <-.
    apply movePuyo_scores in Hafter as [-> ->]. lia.
  - destruct (_ && _); [|done]. injection Hdisp as <-.
    cbn [after] in Hafter. injection Hafter as <-. simpl. lia.
  - destruct (Session.resolvers s) as [|r rest] eqn:Hq; [done|].
    injection Hdisp as <-.
    destruct (resumeResolver s) as [s1|] eqn:Hresume; [|done].
    cbn [ofOption after] in Hafter. injection Hafter as <-.
    apply resumeResolver_scores in Hresume as [Hhigh Hscore].
    split; [done|]. intros _. apply Hscore. by rewrite Hq.
  - destruct (Session.chainResets s); [done|]. injection Hdisp as <-.
    cbn [after] in Hafter. injection Hafter as <-. simpl. lia.
Qed.

(** In the runs with the gate no handler throws or runs out of stack, and
    the session it leaves is one of those runs again. *)
Theorem gated_runs_never_throw (stored : Z) (e : Event) (s : Session.t)
    (o : Outcome) :
  reachable true stored s → gateOpen e s = true → dispatch e s = Some o →
  ∃ s', o = Ok s' ∧ reachable true stored s'.
Proof.
  intros Hreach Hgate Hdisp.
  destruct (gated_dispatch_returns _ _ _ _ Hreach Hgate Hdisp) as [s' ->].
  exists s'. split; [done|]. by eapply reachable_step.
Qed.

(** ** A pass of the resolver, and its timers *)

(** A pass of [checkAndUpdateChain] up to its first timer: the scan marks
    the cells of the groups of four; when there is none the function ends,
    otherwise the marked cells are emptied and the resolver sleeps with its
    chain count raised by one. *)
Lemma resolverPass_spec (s : Session.t) (count : Z) :
  wfGrid (Session.grid s) →
  ∃ hasMatches matchedPuyos,
    NoDup matchedPuyos ∧
    (∀ p, p ∈ matchedPuyos ↔ inGroupOfFour (Session.grid s) p) ∧
    (hasMatches = true ↔ ∃ p, inGroupOfFour (Session.grid s) p) ∧
    (hasMatches = true → (4 ≤ length matchedPuyos)%nat) ∧
    (occupiedCount (clearMatched matchedPuyos (Session.grid s))
       + length matchedPuyos = occupiedCount (Session.grid s))%nat ∧
    resolverPass count s =
      Some (if hasMatches : bool
            then Session.setResolvers
                   (Session.resolvers s ++
                    [{| resolverChainCount := count + 1;
                        resolverAwait := AfterClear (length matchedPuyos);
                        resolverGrid := None |}])
                   (Session.setGrid
                      (clearMatched matchedPuyos (Session.grid s)) s)
            else finishResolver s).
Proof.
  intros Hwf.
  destruct (scanMatches_inGroupOfFour (Session.grid s))
    as (b & m & Hscan & Hnd & Hk & Hb).
  destruct (scanMatches_scanInv (Session.grid s))
    as (st & Hscan' & _ & Hall & Hfour).
  rewrite Hscan in Hscan'. injection Hscan' as <-. cbn [fst snd] in *.
  exists b, m. split_and!; [done..| |].
  - by apply occupiedCount_clearMatched.
  - unfold resolverPass. rewrite Hscan. cbn [mbind option_bind].
    by destruct b.
Qed.

(** The timer after a clear. *)
Lemma resumeResolver_clearTimer (s : Session.t) (r : Resolver)
    (rest : list Resolver) (puyosCleared : nat) :
  Session.resolvers s = r :: rest →
  resolverAwait r = AfterClear puyosCleared →
  let s0 := attachGrid (resolverGrid r) (Session.setResolvers rest s) in
  ∃ s2, resumeResolver s = Some s2 ∧
    Session.score s2 =
      Session.score s +
      chainPoints (Z.of_nat puyosCleared) (resolverChainCount r) ∧
    Session.chainCounter s2 = resolverChainCount r ∧
    Session.grid s2 = applyGravity (Session.grid s0) ∧
    Session.detached s2 = Session.detached s0 ∧
    Session.resolvers s2 =
      Session.resolvers s0 ++
      [{| resolverChainCount := resolverChainCount r;
          resolverAwait := AfterGravity;
          resolverGrid := None |}] ∧
    Session.gameState s2 = Session.gameState s ∧
    Session.isAnimating s2 = Session.isAnimating s.
Proof.
  intros Hres Hawait s0. unfold resumeResolver. rewrite Hres, Hawait.
  fold s0.
  destruct (attachGrid_frame (resolverGrid r) (Session.setResolvers rest s))
    as (Hst & Hsc & _ & _ & _ & _ & Hanim & _).
  fold s0 in Hst, Hsc, Hanim. simpl in Hst, Hsc, Hanim.
  eexists. split; [reflexivity|].
  unfold syncHighScore. simpl. case_decide; simpl; rewrite ?Hsc; done.
Qed.

(** The timer after gravity: the loop goes round with the same count. *)
Lemma resumeResolver_gravityTimer (s : Session.t) (r : Resolver)
    (rest : list Resolver) :
  Session.resolvers s = r :: rest → resolverAwait r = AfterGravity →
  resumeResolver s =
    resolverPass (resolverChainCount r)
      (attachGrid (resolverGrid r) (Session.setResolvers rest s)).
Proof. intros Hres Hawait. unfold resumeResolver. by rewrite Hres, Hawait. Qed.

(** ** The loop of the older variant *)



(** ** The score of a chain step *)


(** ** The end of the loop *)

Lemma sum_list_with_insert {A} (f : A → nat) (l : list A) (i : nat) (x y : A) :
  l !! i = Some y →
  (sum_list_with f (<[i := x]> l) + f y = sum_list_with f l + f x)%nat.
Proof.
  revert i. induction l as [|a l IH]; intros [|i] Hi; simplify_eq/=.
  - lia.
  - specialize (IH i Hi). lia.
Qed.

Lemma awaitWeight_swapRows i (resolvers : list Resolver) :
  sum_list_with awaitWeight (swapRows i <$> resolvers)
  = sum_list_with awaitWeight resolvers.
Proof.
  induction resolvers as [|r l IH]; [done|].
  rewrite fmap_cons. cbn [sum_list_with]. by rewrite IH.
Qed.

(** The change of rows moves no cell and no timer. *)
Lemma timerBudget_attachGrid rows s :
  timerBudget (attachGrid rows s) = timerBudget s.
Proof.
  destruct rows as [i|]; [|done]. unfold attachGrid.
  destruct (Session.detached s !! i) as [newGrid|] eqn:Hi; [|done].
  unfold timerBudget. simpl. rewrite awaitWeight_swapRows.
  pose proof (sum_list_with_insert occupiedCount _ i (Session.grid s) _ Hi).
  lia.
Qed.

(** Every timer that fires lowers the bound. *)
Lemma resumeResolver_timerBudget stored s r rest :
  runInv stored s → Session.resolvers s = r :: rest →
  ∃ s', resumeResolver s = Some s' ∧ (timerBudget s' < timerBudget s)%nat.
Proof.
  intros Hinv Hres.
  assert (Hrest : runInv stored (Session.setResolvers rest s)).
  { destruct Hinv as (Hwf & Hq & Hfill & Hscore & Hcounts & Hhigh & Hdet & Hrows).
    rewrite Hres in Hcounts, Hrows, Hfill.
    apply Forall_cons in Hcounts as [_ Hcounts].
    apply Forall_cons in Hrows as [_ Hrows].
    destruct Hfill as [[_ ?]|Hfill]; [done|].
    split_and!; simpl; try done. by right. }
  pose proof (runInv_attachGrid stored (resolverGrid r) _ Hrest) as Hatt.
  assert (Hbudget : timerBudget s =
            (timerBudget (attachGrid (resolverGrid r)
                            (Session.setResolvers rest s)) + awaitWeight r)%nat).
  { rewrite timerBudget_attachGrid. unfold timerBudget. simpl.
    rewrite Hres. simpl. lia. }
  destruct (resolverAwait r) as [puyosCleared|] eqn:Hawait.
  - destruct (resumeResolver_clearTimer s r rest puyosCleared Hres Hawait)
      as (s2 & Hresume & _ & _ & Hg & Hd & Hq & _).
    exists s2. split; [done|]. rewrite Hbudget.
    unfold timerBudget, awaitWeight. rewrite Hg, Hd, Hq, Hawait.
    rewrite sum_list_with_app. simpl.
    destruct Hatt as (Hwf0 & _).
    rewrite occupiedCount_applyGravity by done. lia.
  - rewrite (resumeResolver_gravityTimer s r rest Hres Hawait).
    destruct Hatt as (Hwf0 & _).
    destruct (resolverPass_spec _ (resolverChainCount r) Hwf0)
      as (b & m & _ & _ & _ & Hfour & Hocc & ->).
    eexists. split; [reflexivity|]. rewrite Hbudget.
    unfold awaitWeight. rewrite Hawait. destruct b.
    + specialize (Hfour eq_refl). unfold timerBudget. simpl.
      rewrite sum_list_with_app. simpl. lia.
    + unfold timerBudget, finishResolver. simpl.
      destruct (rowHasPuyo _ _); simpl; lia.
Qed.


(** ** A lock with no other resolver asleep *)






(** ** Runs of events *)

Lemma runEvents_reachable_gated stored events : ∀ s s',
  reachable true stored s → gatedRun events s = true →
  runEvents events s = Some (Ok s') → reachable true stored s'.
Proof.
  induction events as [|e events IH]; intros s s' Hs Hgate Hrun;
    simpl in Hrun, Hgate.
  { by injection Hrun as <-. }
  apply andb_true_iff in Hgate as [Hopen Hgate].
  destruct (dispatch e s) as [[s1| | |]|] eqn:He;
    try (destruct events; [done|done]).
  apply (IH s1); [|done|done].
  eapply reachable_step; [exact Hs|done|exact He|done].
Qed.

Lemma sessionAfter_reachable events : reachable false 0 (sessionAfter events).
Proof.
  unfold sessionAfter.
  destruct (runEvents events (initialSession 0)) as [[s| | |]|] eqn:Hrun;
    try apply reachable_init.
  eapply runEvents_reachable; [apply reachable_init|exact Hrun].
Qed.

Lemma sessionAfter_gated events :
  gatedRun events (initialSession 0) = true →
  reachable true 0 (sessionAfter events).
Proof.
  intros Hgate. unfold sessionAfter.
  destruct (runEvents events (initialSession 0)) as [[s| | |]|] eqn:Hrun;
    try apply reachable_init.
  eapply runEvents_reachable_gated; [apply reachable_init|done|exact Hrun].
Qed.

(** ** The game-over test *)

Lemma writeCell_Written grid x y v g :
  wfGrid grid → writeCell grid x y v = Written g → wfGrid g.
Proof.
  intros Hwf. unfold writeCell. case_decide; [|done].
  destruct (grid !! Z.to_nat y); [|done]. case_decide; [|done].
  intros [= <-]. by apply wfGrid_setCell.
Qed.

(** Only the end of [applyGravityAndCheck] sets a timeout for the chain
    counter; a pass that ends there leaves the phase as the test of row 1
    says. *)
Lemma resolverPass_chainResets count s s' :
  wfGrid (Session.grid s) → resolverPass count s = Some s' →
  Session.chainResets s' = S (Session.chainResets s) →
  Session.gameState s' =
    (if rowHasPuyo (Session.grid s') 1 then over else Session.gameState s).
Proof.
  intros Hwf Hpass Hend.
  destruct (resolverPass_spec s count Hwf)
    as (b & m & _ & _ & _ & _ & _ & Hspec).
  rewrite Hspec in Hpass. injection Hpass as <-. destruct b.
  - simpl in Hend. lia.
  - unfold finishResolver. simpl.
    destruct (rowHasPuyo (Session.grid s) 1) eqn:Hrow; simpl; by rewrite Hrow.
Qed.

Lemma placePuyo_chainResets fresh s s' :
  wfGrid (Session.grid s) → placePuyo fresh s = Ok s' →
  Session.chainResets s' = S (Session.chainResets s) →
  Session.gameState s' =
    (if rowHasPuyo (Session.grid s') 1 then over else Session.gameState s).
Proof.
  intros Hwf. unfold placePuyo.
  destruct (Session.currentPuyo s) as [puyo|]; [|intros [= <-]; lia].
  destruct (getSecondPuyoPosition _ _ _) as [x2 y2].
  destruct (writeCell (Session.grid s) _ _ _) as [g1| |] eqn:Hw1; [|done..].
  destruct (writeCell g1 _ _ _) as [g2| |] eqn:Hw2; [|done..].
  apply writeCell_Written in Hw1; [|done].
  apply writeCell_Written in Hw2; [|done].
  unfold applyGravityAndCheck.
  match goal with |- context [resolverPass 0 ?s0] =>
    destruct (resolverPass 0 s0) as [s1|] eqn:Hpass end; [|done].
  intros [= <-] Hend.
  apply resolverPass_chainResets in Hpass; [exact Hpass| |exact Hend].
  simpl. by apply wfGrid_applyGravity.
Qed.

Lemma movePuyo_chainResets direction fresh s s' :
  wfGrid (Session.grid s) → movePuyo direction fresh s = Ok s' →
  Session.chainResets s' = S (Session.chainResets s) →
  Session.gameState s' =
    (if rowHasPuyo (Session.grid s') 1 then over else active).
Proof.
  intros Hwf. unfold movePuyo.
  destruct (Session.currentPuyo s) as [puyo|]; [|intros [= <-]; lia].
  destruct (bool_decide _ || _) eqn:Hgate; [intros [= <-]; lia|].
  apply orb_false_iff in Hgate as [Hact _].
  apply bool_decide_eq_false in Hact. apply dec_stable in Hact.
  destruct (isValidMove _ _); [intros [= <-]; simpl; lia|].
  destruct direction; try (intros [= <-]; lia).
  intros Hplace Hend. rewrite <- Hact.
  by apply (placePuyo_chainResets fresh).
Qed.

(** In the runs with the gate the game-over test is the one of the
    specification.  A call of [applyGravityAndCheck] ends where the timeout
    for the chain counter is set, at the lock itself when the first scan
    finds nothing or on a timer later; whenever that happens the phase is
    [over] exactly when row 1 of the grid holds a puyo, and [active]
    otherwise. *)
Theorem gated_game_over_iff_row_1 (stored : Z) (e : Event)
    (s s' : Session.t) :
  reachable true stored s → gateOpen e s = true →
  dispatch e s = Some (Ok s') →
  Session.chainResets s' = S (Session.chainResets s) →
  (Session.gameState s' = over ↔
     ∃ x, 0 ≤ x < GRID_COLS ∧ cellAt (Session.grid s') x 1 ≠ None) ∧
  (Session.gameState s' ≠ over → Session.gameState s' = active).
Proof.
  intros Hreach Hgate Hdisp Hend.
  pose proof (reachable_sessionInv _ _ Hreach) as Hinv.
  destruct (dispatch_sessionInv e s (Ok s') Hinv Hgate Hdisp)
    as (s1 & [= <-] & (Hwf' & _)).
  pose proof Hinv as (Hwf & _ & Hmode).
  assert (Htest : Session.gameState s' =
            (if rowHasPuyo (Session.grid s') 1 then over else active)).
  { destruct e as [r0 r1 r2 r3|escape action fresh| |fresh| | |];
      cbn [dispatch] in Hdisp.
    - destruct (_ || _); [|done]. injection Hdisp as <-.
      exfalso. revert Hend. unfold startGame, syncHighScore, setFreshGrid.
      case_decide; destruct (Session.resolvers s); simpl; lia.
    - injection Hdisp as Hkey. unfold handleKeyPress in Hkey.
      assert (Hflip : ∀ s0,
        Session.chainResets ((if escape then togglePause else id) s0)
          = Session.chainResets s0 ∧
        Session.gameState ((if escape then togglePause else id) s0)
          = Session.gameState s0 ∧
        Session.grid ((if escape then togglePause else id) s0)
          = Session.grid s0) by (intros s0; by destruct escape).
      destruct (Session.isPaused s).
      { injection Hkey as <-. destruct (Hflip s) as (Hc & _). lia. }
      destruct action as [action|].
      2: { injection Hkey as <-. destruct (Hflip s) as (Hc & _). lia. }
      assert (Hmove : ∀ d s1,
        movePuyo d fresh s = Ok s1 →
        Session.chainResets s1 = S (Session.chainResets s) →
        Session.gameState s1 =
          (if rowHasPuyo (Session.grid s1) 1 then over else active))
        by (intros d s1; by apply movePuyo_chainResets).
      assert (Hsame : ∀ s1,
        Session.chainResets s1 = Session.chainResets s →
        Session.chainResets ((if escape then togglePause else id) s1)
          = S (Session.chainResets s) → False).
      { intros s1 H1 H2. destruct (Hflip s1) as (Hc & _). lia. }
      destruct action; cbn [queued] in Hkey.
      + destruct (movePuyo Direction.left fresh s) as [s1| | |] eqn:Hm;
          [|done..]. cbn [queued] in Hkey. injection Hkey as <-.
        destruct (Hflip s1) as (Hc & Hst & Hg). rewrite Hst, Hg.
        apply (Hmove _ _ Hm). lia.
      + destruct (movePuyo Direction.right fresh s) as [s1| | |] eqn:Hm;
          [|done..]. cbn [queued] in Hkey. injection Hkey as <-.
        destruct (Hflip s1) as (Hc & Hst & Hg). rewrite Hst, Hg.
        apply (Hmove _ _ Hm). lia.
      + destruct (movePuyo Direction.down fresh s) as [s1| | |] eqn:Hm;
          [|done..]. cbn [queued] in Hkey. injection Hkey as <-.
        destruct (Hflip s1) as (Hc & Hst & Hg). rewrite Hst, Hg.
        apply (Hmove _ _ Hm). lia.
      + injection Hkey as <-. exfalso. apply (Hsame (rotatePuyo Turn.left s));
          [|done]. unfold rotatePuyo.
        destruct (Session.currentPuyo s); [|done].
        destruct (_ || _); [done|]. by destruct (isValidMove _ _).
      + injection Hkey as <-. exfalso. apply (Hsame (rotatePuyo Turn.right s));
          [|done]. unfold rotatePuyo.
        destruct (Session.currentPuyo s); [|done].
        destruct (_ || _); [done|]. by destruct (isValidMove _ _).
      + injection Hkey as <-. exfalso. apply (Hsame (holdPuyo fresh s));
          [|done]. unfold holdPuyo.
        destruct (Session.currentPuyo s); [|done].
        destruct (_ || _); [done|]. by destruct (Session.heldPuyo s).
    - destruct (_ || _); [|done]. injection Hdisp as <-. simpl in Hend. lia.
    - destruct (_ && _); [|done]. injection Hdisp as Hmove.
      by apply (movePuyo_chainResets Direction.down fresh s).
    - destruct (_ && _); [|done]. injection Hdisp as <-. simpl in Hend. lia.
    - destruct (Session.resolvers s) as [|r rest] eqn:Hres; [done|].
      destruct Hmode as [[Hq _]|(r0 & Hr0 & _ & Hact & _ & _ & Hrows)];
        [congruence|].
      rewrite Hres in Hr0. injection Hr0 as <- ->.
      destruct (resolverAwait r) as [cleared|] eqn:Hawait.
      { exfalso. revert Hdisp Hend. unfold resumeResolver.
        rewrite Hres, Hawait, Hrows. cbn [attachGrid ofOption].
        intros [= <-]. unfold syncHighScore. simpl.
        case_decide; simpl; lia. }
      rewrite (resumeResolver_gravityTimer s r [] Hres Hawait), Hrows
        in Hdisp.
      cbn [attachGrid] in Hdisp.
      destruct (resolverPass (resolverChainCount r) _) as [s1|] eqn:Hpass;
        [|done].
      cbn [ofOption] in Hdisp. injection Hdisp as <-.
      apply resolverPass_chainResets in Hpass; [|done|exact Hend].
      simpl in Hpass. by rewrite Hpass, Hact.
    - destruct (Session.chainResets s); [done|]. injection Hdisp as <-.
      simpl in Hend. lia. }
  rewrite Htest.
  rewrite <- (rowHasPuyo_true _ 1) by (done || unfold GRID_ROWS; lia).
  by destruct (rowHasPuyo (Session.grid s') 1).
Qed.

(** C6, the defect.  In [interleavedLocks] a piece is locked on rows 1 and
    0 while the resolver A of the lock before sleeps.  The resolver B of
    the new lock empties four cells under it and sleeps; A wakes, finds
    nothing to clear, sees the piece on row 1 and ends the game; then B
    lets the column fall.  When no resolver is left the phase is [over],
    the score is 80, and rows 0 and 1 of the grid are empty. *)
Theorem game_over_with_row_1_empty :
  ∃ s,
    runEvents interleavedLocks (initialSession 0) = Some (Ok s) ∧
    reachable false 0 s ∧
    Session.resolvers s = [] ∧ Session.isAnimating s = false ∧
    Session.gameState s = over ∧ Session.score s = 80 ∧
    (∀ x, 0 ≤ x < GRID_COLS →
       cellAt (Session.grid s) x 0 = None ∧
       cellAt (Session.grid s) x 1 = None) ∧
    Session.gameState (sessionAfter redsCleared) = active ∧
    cellAt (Session.grid (sessionAfter lockDuringWait)) 2 1 = Some red ∧
    Session.gameState (sessionAfter lockDuringWait) = over.
Proof.
  exists (sessionAfter interleavedLocks).
  split; [by vm_compute|]. split; [apply sessionAfter_reachable|].
  split; [by vm_compute|]. split; [by vm_compute|].
  split; [by vm_compute|]. split; [by vm_compute|].
  split; [|by vm_compute].
  intros x Hx. unfold GRID_COLS in Hx.
  assert (Hcases : x = 0 ∨ x = 1 ∨ x = 2 ∨ x = 3 ∨ x = 4 ∨ x = 5) by lia.
  destruct Hcases as [->|[->|[->|[->|[->| ->]]]]]; by vm_compute.
Qed.

(** ** What a pass clears *)

(** A pass of [checkAndUpdateChain] up to its first timer clears something
    exactly when the grid has a group of four.  Then it leaves the grid
    with the cells of all such groups emptied and every other cell as it
    was, and the resolver asleep; gravity comes 250 ms later, when its
    timer fires, and is applied to the grid as it is then.  Otherwise the
    pass ends the resolver. *)
Theorem resolverPass_clears_groups (s : Session.t) (chainCount : Z) :
  wfGrid (Session.grid s) →
  ∃ s1, resolverPass chainCount s = Some s1 ∧
    (((∀ p, ¬ inGroupOfFour (Session.grid s) p) ∧ s1 = finishResolver s) ∨
     ((∃ p, inGroupOfFour (Session.grid s) p) ∧
      wfGrid (Session.grid s1) ∧
      (∀ x y, inBounds x y = true →
         (inGroupOfFour (Session.grid s) (x, y) →
          cellAt (Session.grid s1) x y = None) ∧
         (¬ inGroupOfFour (Session.grid s) (x, y) →
          cellAt (Session.grid s1) x y = cellAt (Session.grid s) x y)) ∧
      ∃ r, Session.resolvers s1 = Session.resolvers s ++ [r] ∧
           ∀ s2 rest, Session.resolvers s2 = r :: rest →
             ∃ s3, resumeResolver s2 = Some s3 ∧
                   Session.grid s3 = applyGravity (Session.grid s2))).
Proof.
  intros Hwf.
  destruct (resolverPass_spec s chainCount Hwf)
    as (b & m & Hnd & Hk & Hb & Hfour & Hocc & ->).
  eexists. split; [reflexivity|]. destruct b.
  - right. split; [by apply Hb|]. simpl.
    split; [by apply wfGrid_clearMatched|]. split.
    + intros x y Hin. rewrite cellAt_clearMatched; [|done|].
      * split; intros Hg.
        -- by rewrite decide_True by (by apply Hk).
        -- by rewrite decide_False by (by rewrite Hk).
      * intros k Hk'. apply Hk in Hk'. by destruct Hk'.
    + eexists. split; [reflexivity|]. intros s2 rest Hres.
      destruct (resumeResolver_clearTimer s2 _ rest (length m) Hres eq_refl)
        as (s3 & Hresume & _ & _ & Hg & _).
      exists s3. split; [done|]. exact Hg.
  - left. split; [|done]. intros p Hp.
    assert (false = true); [|done]. apply Hb. by exists p.
Qed.

(** ** What a lock leaves *)


(** ** The grid a pass scans *)


(** ** Every handler returns or throws *)

Lemma isValidMove_inBounds grid puyo :
  isValidMove grid puyo = true →
  inBounds (PuyoPair.x puyo) (PuyoPair.y puyo) = true ∧
  let p2 := getSecondPuyoPosition (PuyoPair.x puyo) (PuyoPair.y puyo)
              (PuyoPair.rotation puyo) in
  inBounds p2.1 p2.2 = true.
Proof.
  unfold isValidMove, inBounds.
  destruct (getSecondPuyoPosition _ _ _) as [x2 y2]. simpl.
  rewrite !andb_true_iff. tauto.
Qed.

Lemma resolverPass_currentPuyo count s s' :
  resolverPass count s = Some s' →
  Session.currentPuyo s' = Session.currentPuyo s.
Proof.
  unfold resolverPass.
  destruct (scanMatches (Session.grid s)) as [[[] m]|]; simpl; [| |done].
  - by intros [= <-].
  - intros [= <-]. unfold finishResolver. simpl.
    by destruct (rowHasPuyo _ _).
Qed.

Lemma resumeResolver_currentPuyo s s' :
  resumeResolver s = Some s' →
  Session.currentPuyo s' = Session.currentPuyo s.
Proof.
  unfold resumeResolver.
  destruct (Session.resolvers s) as [|r rest]; [by intros [= <-]|].
  pose proof (attachGrid_frame (resolverGrid r) (Session.setResolvers rest s))
    as (_ & _ & _ & _ & Hcur & _).
  destruct (resolverAwait r).
  - intros [= <-]. simpl. unfold syncHighScore.
    case_decide; simpl; exact Hcur.
  - intros Hpass. apply resolverPass_currentPuyo in Hpass.
    by rewrite Hpass, Hcur.
Qed.

Lemma resolverPass_returns count s :
  wfGrid (Session.grid s) → is_Some (resolverPass count s).
Proof.
  intros Hwf.
  destruct (resolverPass_spec s count Hwf)
    as (hm & mp & _ & _ & _ & _ & _ & Heq).
  by rewrite Heq.
Qed.

Lemma writeCell_onBoard grid x y v :
  wfGrid grid → inBounds x y = true →
  writeCell grid x y v = Written (setCell grid x y v).
Proof.
  intros Hwf Hin. apply inBounds_spec in Hin as [Hx Hy].
  destruct (wfGrid_row grid y Hwf Hy) as (row & Hrow & Hlen).
  unfold writeCell. destruct Hwf as [Hrows _].
  unfold GRID_ROWS, GRID_COLS in *.
  rewrite decide_True by lia. rewrite Hrow.
  by rewrite decide_True by lia.
Qed.

Lemma placePuyo_returns_or_throws fresh s :
  wfGrid (Session.grid s) → Forall spawnPlaced (Session.nextPuyos s) →
  pieceOnBoard s →
  returnsOrThrows s (placePuyo fresh s).
Proof.
  intros Hwf Hq Hpiece. unfold returnsOrThrows, placePuyo.
  destruct (Session.currentPuyo s) as [puyo|] eqn:Hcur.
  2:{ left. exists s. split; [done|]. intros p. by rewrite Hcur. }
  assert (Hnext : ∀ s1 : Session.t,
    wfGrid (Session.grid s1) →
    Session.currentPuyo s1 = head (Session.nextPuyos s) →
    ∃ s', match applyGravityAndCheck s1 with
          | Some s => Ok s | None => Overflow end = Ok s' ∧ pieceOnBoard s').
  { intros s1 Hwf1 Hcur1. unfold applyGravityAndCheck.
    match goal with |- context [resolverPass 0 ?s0] =>
      destruct (resolverPass_returns 0 s0) as [s2 Hpass] end.
    { simpl. by apply wfGrid_applyGravity. }
    rewrite Hpass. exists s2. split; [done|].
    apply resolverPass_currentPuyo in Hpass. simpl in Hpass.
    intros p. rewrite Hpass, Hcur1. intros Hp. left.
    by eapply spawnPlaced_head. }
  destruct (Hpiece puyo Hcur) as [(Hx & Hy & Hrot)|[Hin1 Hin2]].
  - right. rewrite Hx, Hy, Hrot.
    change (getSecondPuyoPosition 2 0 0) with (2, -1).
    rewrite writeCell_onBoard by done.
    assert (Hthrow : ∀ g v, wfGrid g → writeCell g 2 (-1) v = TypeError).
    { intros g v _. unfold writeCell. by rewrite decide_False by lia. }
    rewrite Hthrow by (by apply wfGrid_setCell).
    eexists _, puyo. by split_and!.
  - left. destruct (getSecondPuyoPosition _ _ _) as [x2 y2]. simpl in Hin2.
    rewrite writeCell_onBoard by done.
    rewrite writeCell_onBoard by (by try apply wfGrid_setCell).
    apply Hnext; simpl; [|done].
    by do 2 apply wfGrid_setCell.
Qed.

Lemma movePuyo_returns_or_throws direction fresh s :
  wfGrid (Session.grid s) → Forall spawnPlaced (Session.nextPuyos s) →
  pieceOnBoard s →
  returnsOrThrows s (movePuyo direction fresh s).
Proof.
  intros Hwf Hq Hpiece.
  assert (Hsame : returnsOrThrows s (Ok s)) by (left; by exists s).
  unfold movePuyo. destruct (Session.currentPuyo s) as [puyo|] eqn:Hcur;
    [|done].
  destruct (bool_decide _ || _); [done|].
  destruct (isValidMove _ _) eqn:Hvalid.
  { left. eexists. split; [done|]. intros p. simpl. intros [= <-].
    right. by eapply isValidMove_inBounds. }
  destruct direction; try done.
  by apply placePuyo_returns_or_throws.
Qed.

Lemma rotatePuyo_pieceOnBoard direction s :
  pieceOnBoard s → pieceOnBoard (rotatePuyo direction s).
Proof.
  intros Hpiece. unfold rotatePuyo.
  destruct (Session.currentPuyo s) as [puyo|] eqn:Hcur; [|done].
  destruct (bool_decide _ || _); [done|].
  destruct (isValidMove _ _) eqn:Hvalid; [|done].
  intros p. simpl. intros [= <-]. right. by eapply isValidMove_inBounds.
Qed.

Lemma holdPuyo_pieceOnBoard fresh s :
  Forall spawnPlaced (Session.nextPuyos s) →
  pieceOnBoard s → pieceOnBoard (holdPuyo fresh s).
Proof.
  intros Hq Hpiece. unfold holdPuyo.
  destruct (Session.currentPuyo s) as [puyo|] eqn:Hcur; [|done].
  destruct (negb _ || _ || _); [done|].
  destruct (Session.heldPuyo s) as [held|]; intros p; simpl.
  - intros [= <-]. by left.
  - intros Hp. left. by eapply spawnPlaced_head.
Qed.

Lemma handleKeyPress_returns_or_throws escape action fresh s :
  wfGrid (Session.grid s) → Forall spawnPlaced (Session.nextPuyos s) →
  pieceOnBoard s →
  returnsOrThrows s (handleKeyPress escape action fresh s).
Proof.
  intros Hwf Hq Hpiece. unfold handleKeyPress.
  set (pauseToggle := if escape then togglePause else id).
  assert (Htoggle : ∀ s0, pieceOnBoard s0 → pieceOnBoard (pauseToggle s0)).
  { intros s0 H0. unfold pauseToggle. by destruct escape. }
  assert (Hok : ∀ s0, pieceOnBoard s0 →
            returnsOrThrows s (Ok (pauseToggle s0))).
  { intros s0 H0. left. eexists. split; [done|]. by apply Htoggle. }
  destruct (Session.isPaused s); [by apply Hok|].
  destruct action as [action|]; [|by apply Hok].
  assert (Hqueued : ∀ o, returnsOrThrows s o →
            returnsOrThrows s (queued pauseToggle o)).
  { intros o [(s1 & -> & H1)|(s1 & p & -> & H1 & Hp)]; simpl.
    - by apply Hok.
    - right. eexists _, p. split; [done|]. split; [by apply Htoggle|done]. }
  destruct action; apply Hqueued;
    try (by apply movePuyo_returns_or_throws);
    left; eexists; (split; [done|]);
    auto using rotatePuyo_pieceOnBoard, holdPuyo_pieceOnBoard.
Qed.

Lemma startGame_pieceOnBoard r0 r1 r2 r3 s :
  pieceOnBoard (startGame r0 r1 r2 r3 s).
Proof.
  intros p. unfold startGame, syncHighScore.
  case_decide; simpl; intros [= <-]; by left.
Qed.

Lemma dispatch_returns_or_throws stored e s o :
  runInv stored s → pieceOnBoard s → dispatch e s = Some o →
  returnsOrThrows s o.
Proof.
  intros Hinv Hpiece Hdisp.
  pose proof Hinv as (Hwf & Hq & _).
  destruct e; simpl in Hdisp.
  - destruct (_ || _); [|done]. injection Hdisp as <-.
    left. eexists. split; [done|]. apply startGame_pieceOnBoard.
  - injection Hdisp as <-. by apply handleKeyPress_returns_or_throws.
  - destruct (_ || _); [|done]. injection Hdisp as <-.
    left. by eexists.
  - destruct (_ && _); [|done]. injection Hdisp as <-.
    by apply movePuyo_returns_or_throws.
  - destruct (_ && _); [|done]. injection Hdisp as <-.
    left. by eexists.
  - destruct (Session.resolvers s) as [|r rest] eqn:Hres; [done|].
    injection Hdisp as <-.
    destruct (resumeResolver_timerBudget stored s r rest Hinv Hres)
      as (s1 & Hresume & _).
    rewrite Hresume. left. exists s1. split; [done|].
    apply resumeResolver_currentPuyo in Hresume.
    intros p. rewrite Hresume. apply Hpiece.
  - destruct (Session.chainResets s); [done|]. injection Hdisp as <-.
    left. by eexists.
Qed.

Lemma reachable_pieceOnBoard gated stored s :
  reachable gated stored s → pieceOnBoard s.
Proof.
  induction 1 as [|s e o s' Hreach IH Hgate Hdisp Hafter]; [done|].
  apply reachable_runInv in Hreach.
  destruct (dispatch_returns_or_throws stored e s o Hreach IH Hdisp)
    as [(s1 & -> & H1)|(s1 & p & -> & H1 & _)];
    by injection Hafter as <-.
Qed.

(** X20.  In every run, gated or not, every handler that can run returns or
    raises the [TypeError] of a write into a missing row, and it raises it
    only when the piece [placePuyo] locks is still where it was spawned:
    the flood fill never runs out of stack and no write of [placePuyo]
    lands beside a row. *)
Theorem handlers_return_or_throw (gated : bool) (stored : Z) (e : Event)
    (s : Session.t) (o : Outcome) :
  reachable gated stored s → dispatch e s = Some o →
  (∃ s', o = Ok s') ∨
  (∃ s' puyo, o = Throws s' ∧
     Session.currentPuyo s = Some puyo ∧ spawnPlaced puyo).
Proof.
  intros Hreach Hdisp.
  destruct (dispatch_returns_or_throws stored e s o
              (reachable_runInv _ _ _ Hreach)
              (reachable_pieceOnBoard _ _ _ Hreach) Hdisp)
    as [(s1 & -> & _)|(s1 & p & -> & _ & Hp)].
  - left. by exists s1.
  - right. by exists s1, p.
Qed.

(** ** The runs *)

Lemma firstLock_gated : reachable true 0 (sessionAfter firstLock).
Proof. apply sessionAfter_gated. by vm_compute. Qed.

Lemma secondPieceDown_gated : reachable true 0 (sessionAfter secondPieceDown).
Proof. apply sessionAfter_gated. by vm_compute. Qed.

Lemma clearAsleep_gated : reachable true 0 (sessionAfter clearAsleep).
Proof. apply sessionAfter_gated. by vm_compute. Qed.

Lemma clearScored_gated : reachable true 0 (sessionAfter clearScored).
Proof. apply sessionAfter_gated. by vm_compute. Qed.



Lemma clearAsleep_timer :
  dispatch EvTimer (sessionAfter clearAsleep)
  = Some (Ok (sessionAfter clearScored)).
Proof. by vm_compute. Qed.

Lemma secondPieceDown_lock :
  dispatch (pressDown (yellow, yellow)) (sessionAfter secondPieceDown)
  = Some (Ok (sessionAfter clearAsleep)).
Proof. by vm_compute. Qed.


Lemma wfGrid_twoChainSession :
  wfGrid (Session.grid (Session.setGrid twoChainGrid startedSession)).
Proof. exact wfGrid_twoChainGrid. Qed.

(** ** The theorems at work, on the runs *)

(** C7 on [hangingGrid], for a piece with its anchor at (1, 8) and the
    second cell below it, on the blue of (1, 9): the validator says no. *)
Lemma isValidMove_iff_witness :
  wfGrid hangingGrid ∧
  (isValidMove hangingGrid
     {| PuyoPair.color1 := Some red; PuyoPair.color2 := Some green;
        PuyoPair.x := 1; PuyoPair.y := 8; PuyoPair.rotation := 2 |} = true ↔
   (inBounds 1 8 = true ∧ inBounds (1 + 0) (8 + 1) = true) ∧
   (holdsNull hangingGrid 1 8 ∧ holdsNull hangingGrid (1 + 0) (8 + 1))) ∧
  isValidMove hangingGrid
    {| PuyoPair.color1 := Some red; PuyoPair.color2 := Some green;
       PuyoPair.x := 1; PuyoPair.y := 8; PuyoPair.rotation := 2 |} = false ∧
  cellAt hangingGrid 1 9 = Some blue.
Proof.
  split; [exact wfGrid_hangingGrid|].
  split; [|split; reflexivity].
  exact (isValidMove_iff hangingGrid
           {| PuyoPair.color1 := Some red; PuyoPair.color2 := Some green;
              PuyoPair.x := 1; PuyoPair.y := 8; PuyoPair.rotation := 2 |}
           wfGrid_hangingGrid).
Defined.



(** A pass on [twoChainGrid] empties the four reds. *)
Lemma resolverPass_clears_groups_witness :
  wfGrid (Session.grid (Session.setGrid twoChainGrid startedSession)) ∧
  ∃ s1,
    resolverPass 0 (Session.setGrid twoChainGrid startedSession) = Some s1 ∧
    (((∀ p, ¬ inGroupOfFour twoChainGrid p) ∧
      s1 = finishResolver (Session.setGrid twoChainGrid startedSession)) ∨
     ((∃ p, inGroupOfFour twoChainGrid p) ∧
      wfGrid (Session.grid s1) ∧
      (∀ x y, inBounds x y = true →
         (inGroupOfFour twoChainGrid (x, y) →
          cellAt (Session.grid s1) x y = None) ∧
         (¬ inGroupOfFour twoChainGrid (x, y) →
          cellAt (Session.grid s1) x y = cellAt twoChainGrid x y)) ∧
      ∃ r, Session.resolvers s1 = [] ++ [r] ∧
           ∀ s2 rest, Session.resolvers s2 = r :: rest →
             ∃ s3, resumeResolver s2 = Some s3 ∧
                   Session.grid s3 = applyGravity (Session.grid s2))).
Proof.
  split; [exact wfGrid_twoChainSession|].
  exact (resolverPass_clears_groups
           (Session.setGrid twoChainGrid startedSession) 0
           wfGrid_twoChainSession).
Defined.


(** The shape of the session after a click on Play Again while a resolver
    of the game before sleeps: the resolver holds the rows the grid state
    has left. *)
Lemma every_run_keeps_shape_witness :
  reachable false 0 (sessionAfter restartWhileAsleep) ∧
  Session.resolvers (sessionAfter restartWhileAsleep) =
    [{| resolverChainCount := 1; resolverAwait := AfterClear 4;
        resolverGrid := Some 0%nat |}] ∧
  wfGrid (Session.grid (sessionAfter restartWhileAsleep)) ∧
  0 ≤ Session.score (sessionAfter restartWhileAsleep) ∧
  (Session.gameState (sessionAfter restartWhileAsleep) ≠ title →
     length (Session.nextPuyos (sessionAfter restartWhileAsleep)) = 3%nat ∧
     Forall spawnPlaced (Session.nextPuyos (sessionAfter restartWhileAsleep)) ∧
     is_Some (Session.currentPuyo (sessionAfter restartWhileAsleep))).
Proof.
  split; [exact (sessionAfter_reachable restartWhileAsleep)|].
  split; [vm_compute; reflexivity|].
  exact (every_run_keeps_shape false 0 (sessionAfter restartWhileAsleep)
           (sessionAfter_reachable restartWhileAsleep)).
Defined.

(** The high score after the first 40 points of [clearScored]. *)
Lemma high_score_covers_score_witness :
  0 ≤ 0 ∧ reachable true 0 (sessionAfter clearScored) ∧
  Session.score (sessionAfter clearScored) = 40 ∧
  Session.score (sessionAfter clearScored)
    ≤ Session.highScore (sessionAfter clearScored) ∧
  0 ≤ Session.highScore (sessionAfter clearScored).
Proof.
  assert (H0 : 0 ≤ 0) by lia.
  split; [exact H0|]. split; [exact clearScored_gated|].
  split; [vm_compute; reflexivity|].
  exact (high_score_covers_score true 0 (sessionAfter clearScored) H0
           clearScored_gated).
Defined.

(** The spawn column after the lock of [firstLock], two reds on its
    floor. *)
Lemma top_rows_empty_witness :
  reachable true 0 (sessionAfter firstLock) ∧
  Session.gameState (sessionAfter firstLock) = active ∧
  Session.isAnimating (sessionAfter firstLock) = false ∧
  0 ≤ 2 < GRID_COLS ∧
  cellAt (Session.grid (sessionAfter firstLock)) 2 11 = Some red ∧
  cellAt (Session.grid (sessionAfter firstLock)) 2 0 = None ∧
  cellAt (Session.grid (sessionAfter firstLock)) 2 1 = None.
Proof.
  assert (Hx : 0 ≤ 2 < GRID_COLS) by (unfold GRID_COLS; lia).
  assert (H1 : Session.gameState (sessionAfter firstLock) = active)
    by (vm_compute; reflexivity).
  assert (H2 : Session.isAnimating (sessionAfter firstLock) = false)
    by (vm_compute; reflexivity).
  split; [exact firstLock_gated|].
  split; [exact H1|]. split; [exact H2|]. split; [exact Hx|].
  split; [vm_compute; reflexivity|].
  exact (top_rows_empty 0 (sessionAfter firstLock) 2 firstLock_gated
           H1 H2 Hx).
Defined.


(** The first timer of [clearAsleep] raises the score and the high score
    from 0 to 40. *)
Lemma scores_never_drop_witness :
  reachable true 0 (sessionAfter clearAsleep) ∧
  dispatch EvTimer (sessionAfter clearAsleep)
    = Some (Ok (sessionAfter clearScored)) ∧
  after (Ok (sessionAfter clearScored)) = Some (sessionAfter clearScored) ∧
  Session.score (sessionAfter clearAsleep) = 0 ∧
  Session.score (sessionAfter clearScored) = 40 ∧
  Session.highScore (sessionAfter clearAsleep) = 0 ∧
  Session.highScore (sessionAfter clearScored) = 40 ∧
  Session.highScore (sessionAfter clearAsleep)
    ≤ Session.highScore (sessionAfter clearScored) ∧
  Session.score (sessionAfter clearAsleep)
    ≤ Session.score (sessionAfter clearScored).
Proof.
  assert (Htimer : ∀ r0 r1 r2 r3, EvTimer ≠ EvStart r0 r1 r2 r3)
    by (intros; discriminate).
  split; [exact clearAsleep_gated|]. split; [exact clearAsleep_timer|].
  split; [reflexivity|]. split; [vm_compute; reflexivity|].
  split; [vm_compute; reflexivity|]. split; [vm_compute; reflexivity|].
  split; [vm_compute; reflexivity|].
  split.
  - exact (proj1 (scores_never_drop true 0 EvTimer (sessionAfter clearAsleep)
                    (Ok (sessionAfter clearScored))
                    (sessionAfter clearScored)
                    clearAsleep_gated clearAsleep_timer eq_refl)).
  - exact (proj2 (scores_never_drop true 0 EvTimer (sessionAfter clearAsleep)
                    (Ok (sessionAfter clearScored))
                    (sessionAfter clearScored)
                    clearAsleep_gated clearAsleep_timer eq_refl) Htimer).
Defined.

(** The press of [down] that locks the second piece of [secondPieceDown]:
    the flood fill finds the four reds, the handler returns. *)
Lemma gated_runs_never_throw_witness :
  reachable true 0 (sessionAfter secondPieceDown) ∧
  gateOpen (pressDown (yellow, yellow)) (sessionAfter secondPieceDown)
    = true ∧
  dispatch (pressDown (yellow, yellow)) (sessionAfter secondPieceDown)
    = Some (Ok (sessionAfter clearAsleep)) ∧
  cellAt (Session.grid (sessionAfter secondPieceDown)) 2 10 = Some red ∧
  cellAt (Session.grid (sessionAfter clearAsleep)) 2 10 = None ∧
  ∃ s', Ok (sessionAfter clearAsleep) = Ok s' ∧ reachable true 0 s'.
Proof.
  assert (Hgate : gateOpen (pressDown (yellow, yellow))
                    (sessionAfter secondPieceDown) = true)
    by (vm_compute; reflexivity).
  split; [exact secondPieceDown_gated|]. split; [exact Hgate|].
  split; [exact secondPieceDown_lock|].
  split; [vm_compute; reflexivity|]. split; [vm_compute; reflexivity|].
  exact (gated_runs_never_throw 0 (pressDown (yellow, yellow))
           (sessionAfter secondPieceDown) (Ok (sessionAfter clearAsleep))
           secondPieceDown_gated Hgate secondPieceDown_lock).
Defined.

Lemma columnFull_gated : reachable true 0 (sessionAfter columnFull).
Proof. apply sessionAfter_gated. by vm_compute. Qed.

Lemma columnFull_lock :
  dispatch (pressDown (red, green)) (sessionAfter columnFull)
  = Some (Ok (sessionAfter toppedOut)).
Proof. by vm_compute. Qed.

(** The lock of [toppedOut] ends its resolver at once, with a puyo on row
    1: the game is over. *)
Lemma gated_game_over_iff_row_1_witness :
  reachable true 0 (sessionAfter columnFull) ∧
  gateOpen (pressDown (red, green)) (sessionAfter columnFull) = true ∧
  dispatch (pressDown (red, green)) (sessionAfter columnFull)
    = Some (Ok (sessionAfter toppedOut)) ∧
  Session.chainResets (sessionAfter toppedOut)
    = S (Session.chainResets (sessionAfter columnFull)) ∧
  cellAt (Session.grid (sessionAfter toppedOut)) 2 1 = Some red ∧
  (Session.gameState (sessionAfter toppedOut) = over ↔
     ∃ x, 0 ≤ x < GRID_COLS ∧
          cellAt (Session.grid (sessionAfter toppedOut)) x 1 ≠ None) ∧
  (Session.gameState (sessionAfter toppedOut) ≠ over →
   Session.gameState (sessionAfter toppedOut) = active).
Proof.
  assert (Hgate : gateOpen (pressDown (red, green)) (sessionAfter columnFull)
                  = true) by (vm_compute; reflexivity).
  assert (Hend : Session.chainResets (sessionAfter toppedOut)
                 = S (Session.chainResets (sessionAfter columnFull)))
    by (vm_compute; reflexivity).
  split; [exact columnFull_gated|]. split; [exact Hgate|].
  split; [exact columnFull_lock|]. split; [exact Hend|].
  split; [vm_compute; reflexivity|].
  exact (gated_game_over_iff_row_1 0 (pressDown (red, green))
           (sessionAfter columnFull) (sessionAfter toppedOut)
           columnFull_gated Hgate columnFull_lock Hend).
Defined.

Lemma handlers_return_or_throw_witness :
  reachable false 0 (sessionAfter stackToTheTop) ∧
  (∃ s', dispatch (pressDown (yellow, yellow)) (sessionAfter stackToTheTop)
           = Some (Throws s')) ∧
  ∃ puyo, Session.currentPuyo (sessionAfter stackToTheTop) = Some puyo ∧
          spawnPlaced puyo.
Proof.
  split; [apply sessionAfter_reachable|].
  assert (Hd : ∃ s', dispatch (pressDown (yellow, yellow))
                       (sessionAfter stackToTheTop) = Some (Throws s'))
    by (eexists; vm_compute; reflexivity).
  destruct Hd as [s' Hd].
  destruct (handlers_return_or_throw false 0 _ _ _
              (sessionAfter_reachable stackToTheTop) Hd)
    as [[s1 Hs1]|(s1 & puyo & _ & Hcur & Hsp)].
  - discriminate Hs1.
  - split; [exists s'; exact Hd|].
    exists puyo. split; [exact Hcur|exact Hsp].
Defined.

(** ** The properties above on concrete inputs *)

Lemma allSettled_twoChainGrid : allSettled twoChainGrid.
Proof.
  assert (Heq : applyGravity twoChainGrid = twoChainGrid) by (by vm_compute).
  rewrite <- Heq. apply allSettled_applyGravity, wfGrid_twoChainGrid.
Qed.

(** The flood fill from the lowest red of [twoChainGrid]. *)
Lemma findConnectedPuyos_connected_witness :
  wfGrid twoChainGrid ∧ inBounds 0 10 = true ∧
  ∃ matches,
    findConnectedPuyos MAX_DEPTH twoChainGrid 0 10
      (cellAt twoChainGrid 0 10) [] = Some matches
    ∧ NoDup matches
    ∧ Z.of_nat (length matches) ≤ GRID_ROWS * GRID_COLS
    ∧ ∀ p, p ∈ matches ↔
           connected twoChainGrid (cellAt twoChainGrid 0 10) (0, 10) p.
Proof.
  split; [exact wfGrid_twoChainGrid|]. split; [reflexivity|].
  exact (findConnectedPuyos_connected twoChainGrid 0 10 wfGrid_twoChainGrid
           eq_refl).
Defined.

(** The scan of [twoChainGrid]. *)
Lemma scanMatches_marks_groups_witness :
  wfGrid twoChainGrid ∧
  ∃ hasMatches matchedPuyos,
    scanMatches twoChainGrid = Some (hasMatches, matchedPuyos) ∧
    NoDup matchedPuyos ∧
    (∀ p, p ∈ matchedPuyos ↔ inGroupOfFour twoChainGrid p) ∧
    (hasMatches = true ↔ ∃ p, inGroupOfFour twoChainGrid p).
Proof.
  split; [exact wfGrid_twoChainGrid|].
  exact (scanMatches_marks_groups twoChainGrid wfGrid_twoChainGrid).
Defined.

(** Gravity on [twoChainGrid], whose only column stands on the floor. *)
Lemma applyGravity_settled_witness :
  wfGrid twoChainGrid ∧ allSettled twoChainGrid ∧
  applyGravity twoChainGrid = twoChainGrid.
Proof.
  split; [exact wfGrid_twoChainGrid|].
  split; [exact allSettled_twoChainGrid|].
  exact (applyGravity_settled twoChainGrid wfGrid_twoChainGrid
           allSettled_twoChainGrid).
Defined.

(** The rotations of a piece as [generatePuyoPair] makes it. *)
Lemma rotation_cycle_witness :
  0 ≤ PuyoPair.rotation (generatePuyoPair (red, green)) ≤ 3 ∧
  rotatedBy Turn.left (rotatedBy Turn.right (generatePuyoPair (red, green)))
    = generatePuyoPair (red, green).
Proof.
  assert (Hr : 0 ≤ PuyoPair.rotation (generatePuyoPair (red, green)) ≤ 3)
    by (simpl; lia).
  split; [exact Hr|].
  exact (proj1 (proj2 (rotation_cycle (generatePuyoPair (red, green)) Hr))).
Defined.

(** The down key on the title screen. *)
Lemma commands_gated_witness :
  (Session.isPaused (initialSession 0) = true ∨
   Session.gameState (initialSession 0) ≠ active) ∧
  handleKeyPress false (Some ControlAction.down) (red, red)
    (initialSession 0) = Ok (initialSession 0).
Proof.
  assert (Hgate : Session.isPaused (initialSession 0) = true ∨
                  Session.gameState (initialSession 0) ≠ active)
    by (right; discriminate).
  split; [exact Hgate|].
  exact (proj1 (commands_gated (Some ControlAction.down) (red, red)
                  (initialSession 0) Hgate)).
Defined.

(** A rotation to the right in the session just started. *)
Lemma side_moves_commit_valid_witness :
  wfGrid (Session.grid startedSession) ∧
  (rotatePuyo Turn.right startedSession = startedSession ∨
  ∃ puyo, isValidMove (Session.grid startedSession) puyo = true ∧
          rotatePuyo Turn.right startedSession =
            Session.setCurrentPuyo (Some puyo) startedSession).
Proof.
  split; [exact wfGrid_createEmptyGrid|].
  exact (side_moves_commit_valid (red, red) startedSession
           wfGrid_createEmptyGrid (rotatePuyo Turn.right startedSession)
           (or_intror (or_intror (or_intror eq_refl)))).
Defined.

(** The lock of the piece of [landedSession] on the floor. *)
Lemma lock_runs_like_loop_witness :
  wfGrid (Session.grid landedSession) ∧
  Session.gameState landedSession = active ∧
  Session.isPaused landedSession = false ∧
  Session.resolvers landedSession = [] ∧
  Session.currentPuyo landedSession
    = Some (movedBy 0 11 (generatePuyoPair (red, green))) ∧
  isValidMove (Session.grid landedSession)
    (movedBy 0 11 (generatePuyoPair (red, green))) = true ∧
  isValidMove (Session.grid landedSession)
    (movedBy 0 1 (movedBy 0 11 (generatePuyoPair (red, green)))) = false ∧
  ∃ s1 s' final,
    movePuyo Direction.down (blue, blue) landedSession = Ok s1 ∧
    runTimers (S (Z.to_nat (GRID_ROWS * GRID_COLS))) s1 = Some s' ∧
    resolveLock (S (Z.to_nat (GRID_ROWS * GRID_COLS)))
      (setCell (setCell createEmptyGrid 2 11 (Some red)) 2 10 (Some green))
      0 0 = Some final ∧
    Session.grid s' = newGrid final ∧
    Session.score s' = score final ∧
    Session.chainCounter s' = chainCounter final ∧
    Session.currentPuyo s' = head (Session.nextPuyos landedSession) ∧
    Session.nextPuyos s' =
      tail (Session.nextPuyos landedSession) ++ [generatePuyoPair (blue, blue)].
Proof.
  split; [exact wfGrid_createEmptyGrid|].
  do 6 (split; [reflexivity|]).
  exact (lock_runs_like_loop landedSession (blue, blue)
           (movedBy 0 11 (generatePuyoPair (red, green)))
           wfGrid_createEmptyGrid eq_refl eq_refl eq_refl eq_refl
           eq_refl eq_refl).
Defined.

